(** * CFGCYK: BNF to CNF conversion (src/bnf.py) and CYK recognition (src/cyk.py)

    A shallow embedding of the two Python modules.  Python objects that the
    code mutates in place (the [symbols] dictionary of a [BNF] instance and
    the [BNF_Symbol] records stored in it) are modelled by explicit state
    passing; a Python exception is a [Raise] result. *)

From Stdlib Require Import ZArith String List Bool Lia.
Import ListNotations.
Local Open Scope Z_scope.
Local Open Scope list_scope.
Set Warnings "-register-all".

(** ** Python values used as symbol identities, tags and rule members *)

Module Py.

(** Symbols are "any" hashable value: the code itself uses integers (start
    symbols and replacement ids), callers use strings or numbers, the root
    tag is [None], and a rule is a tuple of symbols.

    The code uses these values as dictionary keys and set members only, so
    a value stands for its class under Python's [==] and [hash]: [PInt z] is
    the integer [z] and every key that is equal to it ([True] and [1.0] for
    1, [False] for 0, [-1.0] for -1), and [PFloat m e] is the number
    [(2 * m + 1) / 2 ^ e], the one form of a finite float that is not a
    whole number.  With that, two values are the same key exactly when they
    are equal. *)
Inductive pyval : Type :=
| PNone
| PInt (z : Z)
| PFloat (m : Z) (e : positive)
| PStr (s : string)
| PTuple (items : list pyval).

Fixpoint eqb (a b : pyval) {struct a} : bool :=
  match a, b with
  | PNone, PNone => true
  | PInt x, PInt y => Z.eqb x y
  | PFloat m e, PFloat m' e' => Z.eqb m m' && Pos.eqb e e'
  | PStr x, PStr y => String.eqb x y
  | PTuple xs, PTuple ys =>
      (fix tuple_eqb (l1 l2 : list pyval) {struct l1} : bool :=
         match l1, l2 with
         | [], [] => true
         | x :: l1', y :: l2' => eqb x y && tuple_eqb l1' l2'
         | _, _ => false
         end) xs ys
  | _, _ => false
  end.

(** Equality of tuples (rules), element by element. *)
Fixpoint tuple_eqb (l1 l2 : list pyval) : bool :=
  match l1, l2 with
  | [], [] => true
  | x :: l1', y :: l2' => eqb x y && tuple_eqb l1' l2'
  | _, _ => false
  end.

(** Exceptions the modelled code can raise. *)
Inductive exn : Type := KeyError | IndexError.

Inductive result (A : Type) : Type :=
| Ok (a : A)
| Raise (e : exn).
Arguments Ok {A} a.
Arguments Raise {A} e.

Definition bind {A B : Type} (m : result A) (k : A -> result B) : result B :=
  match m with
  | Ok a => k a
  | Raise e => Raise e
  end.

(** A [for] loop whose body may raise: the state is threaded left to right. *)
Fixpoint for_each {A S : Type} (xs : list A) (body : A -> S -> result S)
         (st : S) : result S :=
  match xs with
  | [] => Ok st
  | x :: xs' => bind (body x st) (for_each xs' body)
  end.

(** A loop that [return]s [False] from the enclosing function at the first
    element whose check fails, and yields [True] when it runs to the end. *)
Fixpoint all_pass {A : Type} (xs : list A) (check : A -> result bool)
  : result bool :=
  match xs with
  | [] => Ok true
  | x :: xs' =>
      bind (check x) (fun ok => if ok then all_pass xs' check else Ok false)
  end.

(** [l[i]] on a list or tuple: a negative index counts from the end. *)
Definition index {A : Type} (l : list A) (i : Z) : result A :=
  let n := Z.of_nat (length l) in
  let j := if i <? 0 then i + n else i in
  if (j <? 0) || (n <=? j) then Raise IndexError
  else match nth_error l (Z.to_nat j) with
       | Some x => Ok x
       | None => Raise IndexError
       end.

(** [l[:-2]] *)
Definition all_but_last_two {A : Type} (l : list A) : list A :=
  firstn (length l - 2) l.

(** *** Sets

    A Python [set] is a duplicate-free list.  Python leaves the iteration
    order of a set unspecified; the model iterates in insertion order. *)
Section Sets.
Context {A : Type} (eq : A -> A -> bool).

Definition set_mem (x : A) (s : list A) : bool := existsb (eq x) s.

Definition set_add (x : A) (s : list A) : list A :=
  if set_mem x s then s else s ++ [x].

Definition set_remove (x : A) (s : list A) : list A :=
  filter (fun y => negb (eq x y)) s.

Definition set_inter (s1 s2 : list A) : list A :=
  filter (fun x => set_mem x s2) s1.
End Sets.

(** *** Dictionaries

    A Python [dict] keyed by symbols: an association list with unique keys
    in insertion order.  Assigning to an existing key keeps its position. *)
Definition dict (V : Type) : Type := list (pyval * V).

Fixpoint lookup {V : Type} (k : pyval) (d : dict V) : option V :=
  match d with
  | [] => None
  | (k', v) :: d' => if eqb k k' then Some v else lookup k d'
  end.

Definition contains {V : Type} (k : pyval) (d : dict V) : bool :=
  match lookup k d with Some _ => true | None => false end.

(** [d[k]] *)
Definition getitem {V : Type} (k : pyval) (d : dict V) : result V :=
  match lookup k d with
  | Some v => Ok v
  | None => Raise KeyError
  end.

(** [d[k] = v] *)
Fixpoint setitem {V : Type} (k : pyval) (v : V) (d : dict V) : dict V :=
  match d with
  | [] => [(k, v)]
  | (k', v') :: d' =>
      if eqb k k' then (k', v) :: d' else (k', v') :: setitem k v d'
  end.

Definition keys {V : Type} (d : dict V) : list pyval := map fst d.
Definition values {V : Type} (d : dict V) : list V := map snd d.

End Py.

Export Py.

Notation "x <- m ;; k" := (bind m (fun x => k))
  (at level 61, m at next level, right associativity).
Notation "' pat <- m ;; k" := (bind m (fun x => match x with pat => k end))
  (at level 61, pat pattern, m at next level, right associativity).

(** ** class BNF_Symbol *)

Module BNF_Symbol.

Record t : Type := mk {
  symbol : pyval;
  rules : list (list pyval);   (* set(tuple(any)) *)
  parents : list pyval;        (* set(any) *)
  is_terminal : bool
}.

(** [__init__(self, symbol, is_terminal)] *)
Definition init (sym : pyval) (terminal : bool) : t := mk sym [] [] terminal.

(** [add_rule(self, *produces)]: the returned integer and the updated record. *)
Definition add_rule (self : t) (produces : list pyval) : Z * t :=
  if is_terminal self then (-1, self)
  else (0, mk (symbol self) (set_add tuple_eqb produces (rules self))
               (parents self) (is_terminal self)).

(** [remove_rule(self, *produces)] *)
Definition remove_rule (self : t) (produces : list pyval) : Z * t :=
  if negb (set_mem tuple_eqb produces (rules self)) then (-1, self)
  else (0, mk (symbol self) (set_remove tuple_eqb produces (rules self))
               (parents self) (is_terminal self)).

(** [remove_parent(self, parent)] *)
Definition remove_parent (self : t) (parent : pyval) : Z * t :=
  if negb (set_mem Py.eqb parent (parents self)) then (-1, self)
  else (0, mk (symbol self) (rules self)
               (set_remove Py.eqb parent (parents self)) (is_terminal self)).

(** [add_parent(self, parent_symbol)] *)
Definition add_parent (self : t) (parent_symbol : pyval) : Z * t :=
  (0, mk (symbol self) (rules self)
         (set_add Py.eqb parent_symbol (parents self)) (is_terminal self)).

Definition get_parents (self : t) : list pyval := parents self.
Definition get_rules (self : t) : list (list pyval) := rules self.

End BNF_Symbol.

(** ** class BNF *)

Module BNF.

Record t : Type := mk {
  start_symbol : Z;
  symbols : dict BNF_Symbol.t;
  current_term_replacement : Z;
  tags : dict pyval
}.

Definition set_symbols (self : t) (d : dict BNF_Symbol.t) : t :=
  mk (start_symbol self) d (current_term_replacement self) (tags self).

Definition set_start_symbol (self : t) (s : Z) : t :=
  mk s (symbols self) (current_term_replacement self) (tags self).

Definition set_current_term_replacement (self : t) (c : Z) : t :=
  mk (start_symbol self) (symbols self) c (tags self).

Definition set_tags (self : t) (tg : dict pyval) : t :=
  mk (start_symbol self) (symbols self) (current_term_replacement self) tg.

(** [self.symbols[k].method(...)] for a method that mutates the stored
    record: the lookup raises [KeyError] on an undeclared key, the record is
    updated in place and the method's integer is returned. *)
Definition call_on_symbol (k : pyval) (method : BNF_Symbol.t -> Z * BNF_Symbol.t)
           (self : t) : result (Z * t) :=
  s <- getitem k (symbols self) ;;
  let '(r, s') := method s in
  Ok (r, set_symbols self (setitem k s' (symbols self))).

(** The same, for a call whose returned integer the caller drops. *)
Definition do_on_symbol (k : pyval) (method : BNF_Symbol.t -> Z * BNF_Symbol.t)
           (self : t) : result t :=
  '(_, self') <- call_on_symbol k method self ;; Ok self'.

(** [__init__(self)] *)
Definition init : t :=
  mk 0 [(PInt 0, BNF_Symbol.init (PInt 0) false)] (-1) [].

(** [add_rule_to_root(self, *rule)] *)
Definition add_rule_to_root (self : t) (rule : list pyval) : result t :=
  self1 <- do_on_symbol (PInt (start_symbol self))
             (fun s => BNF_Symbol.add_rule s rule) self ;;
  for_each rule
    (fun item st =>
       do_on_symbol item
         (fun s => BNF_Symbol.add_parent s (PInt (start_symbol st))) st)
    self1.

(** [add_symbol(self, symbol, is_terminal)] *)
Definition add_symbol (self : t) (symbol : pyval) (is_terminal : bool) : Z * t :=
  if contains symbol (symbols self) then (-1, self)
  else (0, set_symbols self
             (setitem symbol (BNF_Symbol.init symbol is_terminal) (symbols self))).

(** [add_terminal_symbol(self, symbol)] *)
Definition add_terminal_symbol (self : t) (symbol : pyval) : Z * t :=
  add_symbol self symbol true.

(** [add_intermediate_symbol(self, symbol)] *)
Definition add_intermediate_symbol (self : t) (symbol : pyval) : Z * t :=
  add_symbol self symbol false.

(** The first loop of [add_rule]: is some member undeclared? *)
Definition has_unknown_member (self : t) (output_symbols_tuple : list pyval) : bool :=
  existsb (fun symbol => negb (contains symbol (symbols self))) output_symbols_tuple.

(** [add_rule(self, input_symbol, output_symbols_tuple)] *)
Definition add_rule (self : t) (input_symbol : pyval)
           (output_symbols_tuple : list pyval) : result (Z * t) :=
  if negb (contains input_symbol (symbols self)) then Ok (-3, self)
  else
    parent <- getitem input_symbol (symbols self) ;;
    if BNF_Symbol.is_terminal parent then Ok (-1, self)
    else if has_unknown_member self output_symbols_tuple then Ok (-2, self)
    else
      self1 <- do_on_symbol input_symbol
                 (fun s => BNF_Symbol.add_rule s output_symbols_tuple) self ;;
      self2 <- for_each output_symbols_tuple
                 (fun symbol st =>
                    do_on_symbol symbol
                      (fun s => BNF_Symbol.add_parent s input_symbol) st)
                 self1 ;;
      Ok (0, self2).

(** [does_start_occur_on_right(self)]: the loop reads [self.symbols[symbol]]
    for each key of the dictionary itself, that is, each stored record. *)
Definition does_start_occur_on_right (self : t) : bool :=
  existsb
    (fun s => existsb (fun rule => set_mem Py.eqb (PInt (start_symbol self)) rule)
                      (BNF_Symbol.get_rules s))
    (values (symbols self)).

(** [conversion_start(self)] *)
Definition conversion_start (self : t) : result t :=
  if does_start_occur_on_right self then
    let self1 := set_start_symbol self (start_symbol self + 1) in
    let '(_, self2) :=
      add_intermediate_symbol self1 (PInt (start_symbol self1)) in
    '(_, self3) <- add_rule self2 (PInt (start_symbol self2))
                     [PInt (start_symbol self2 - 1)] ;;
    Ok self3
  else Ok self.

(** [conversion_term_replacer(self, terminal_product)] *)
Definition conversion_term_replacer (self : t) (terminal_product : pyval)
  : result (Z * t) :=
  let replacement_id := current_term_replacement self in
  let self1 := set_current_term_replacement self (current_term_replacement self - 1) in
  let self2 :=
    set_symbols self1
      (setitem (PInt replacement_id)
               (BNF_Symbol.init (PInt replacement_id) false) (symbols self1)) in
  self3 <- do_on_symbol (PInt replacement_id)
             (fun s => BNF_Symbol.add_rule s [terminal_product]) self2 ;;
  self4 <- do_on_symbol terminal_product
             (fun s => BNF_Symbol.add_parent s (PInt replacement_id)) self3 ;;
  Ok (replacement_id, self4).

(** [check_if_conversion_term_necessary(self, rule)]: the loop state is the
    pair [(has_nonterminals, has_terminals)]. *)
Definition check_if_conversion_term_necessary (self : t) (rule : list pyval)
  : result bool :=
  '(has_nonterminals, has_terminals) <-
    for_each rule
      (fun item '(nt, tm) =>
         s <- getitem item (symbols self) ;;
         if BNF_Symbol.is_terminal s then Ok (nt, true) else Ok (true, tm))
      (false, false) ;;
  Ok (has_nonterminals && has_terminals).

(** [conversion_term_product_determinalizer(self, parent_symbol, rule)].
    The final call is [remove_rule(rule)], without unpacking: inside
    [remove_rule] the parameter [produces] is the 1-tuple [(rule,)]. *)
Definition conversion_term_product_determinalizer (self : t)
           (parent_symbol : pyval) (rule : list pyval) : result t :=
  '(replaced, self1) <-
    for_each rule
      (fun item '(replaced, st) =>
         s <- getitem item (symbols st) ;;
         if BNF_Symbol.is_terminal s then
           '(_, st') <- conversion_term_replacer st item ;;
           Ok (true, st')
         else Ok (replaced, st))
      (false, self) ;;
  if (replaced : bool) then
    do_on_symbol parent_symbol
      (fun s => BNF_Symbol.remove_rule s [PTuple rule]) self1
  else Ok self1.

(** [conversion_term(self)].  The snapshots [old_symbols] and [old_rules]
    are Python sets; the model iterates over them in the order of the
    dictionary and of the rule set. *)
Definition conversion_term (self : t) : result t :=
  let old_symbols := keys (symbols self) in
  for_each old_symbols
    (fun symbol st =>
       s <- getitem symbol (symbols st) ;;
       let old_rules := BNF_Symbol.get_rules s in
       for_each old_rules
         (fun rule st1 =>
            necessary <- check_if_conversion_term_necessary st1 rule ;;
            if (necessary : bool)
            then conversion_term_product_determinalizer st1 symbol rule
            else Ok st1)
         st)
    self.

(** Equality of the 3-tuples stored in the [replacements] set. *)
Definition triple_eqb (x y : pyval * pyval * pyval) : bool :=
  let '(a, b, c) := x in
  let '(a', b', c') := y in
  Py.eqb a a' && Py.eqb b b' && Py.eqb c c'.

(** [conversion_bin_splitter(self, parent_symbol, rule)].  The loop state is
    [(replacements, previous_replacement_id, replacement_id, self)]. *)
Definition conversion_bin_splitter (self : t) (parent_symbol : pyval)
           (rule : list pyval) : result (list (pyval * pyval * pyval) * t) :=
  let replacement_id := current_term_replacement self in
  let self1 := set_current_term_replacement self (current_term_replacement self - 1) in
  let '(replacements, previous_replacement_id, _, self2) :=
    fold_left
      (fun '(replacements, previous_replacement_id, replacement_id, st) item =>
         let '(_, st1) := add_symbol st (PInt replacement_id) false in
         (set_add triple_eqb
                  (previous_replacement_id, item, PInt replacement_id) replacements,
          PInt replacement_id,
          current_term_replacement st1,
          set_current_term_replacement st1 (current_term_replacement st1 - 1)))
      (all_but_last_two rule)
      ([], parent_symbol, replacement_id, self1) in
  last_but_one <- index rule (-2) ;;
  last <- index rule (-1) ;;
  Ok (set_add triple_eqb (previous_replacement_id, last_but_one, last) replacements,
      self2).

(** [is_bin_applicable(self, rule)] *)
Definition is_bin_applicable (rule : list pyval) : bool :=
  (2 <? length rule)%nat.

(** [is_only_subrule_with_daughter(self, parent_symbol, daughter_symbol)] *)
Definition is_only_subrule_with_daughter (self : t)
           (parent_symbol daughter_symbol : pyval) : result bool :=
  p <- getitem parent_symbol (symbols self) ;;
  Ok (fold_left
        (fun is_only rule =>
           if set_mem Py.eqb daughter_symbol rule && (1 <? length rule)%nat
           then false else is_only)
        (BNF_Symbol.get_rules p) true).

(** [conversion_bin(self)] *)
Definition conversion_bin (self : t) : result t :=
  let oldsymbols := keys (symbols self) in
  for_each oldsymbols
    (fun symbol st =>
       s <- getitem symbol (symbols st) ;;
       let oldrules := BNF_Symbol.get_rules s in
       for_each oldrules
         (fun rule st1 =>
            if is_bin_applicable rule then
              '(replacements, st2) <- conversion_bin_splitter st1 symbol rule ;;
              st3 <- for_each replacements
                       (fun '(parent, symbol1, symbol2) a =>
                          a1 <- do_on_symbol parent
                                  (fun p => BNF_Symbol.add_rule p [symbol1; symbol2]) a ;;
                          a2 <- do_on_symbol symbol1
                                  (fun c => BNF_Symbol.add_parent c parent) a1 ;;
                          do_on_symbol symbol2
                            (fun c => BNF_Symbol.add_parent c parent) a2)
                       st2 ;;
              st4 <- do_on_symbol symbol
                       (fun p => BNF_Symbol.remove_rule p rule) st3 ;;
              for_each rule
                (fun item a =>
                   only <- is_only_subrule_with_daughter a symbol item ;;
                   if (only : bool)
                   then do_on_symbol item
                          (fun c => BNF_Symbol.remove_parent c symbol) a
                   else Ok a)
                st4
            else Ok st1)
         st)
    self.

(** [conversion_del(self)]: [pass] *)
Definition conversion_del (self : t) : result t := Ok self.

Definition pair_eqb (x y : pyval * pyval) : bool :=
  Py.eqb (fst x) (fst y) && Py.eqb (snd x) (snd y).

(** The first loop nest of [conversion_unit]; the state is
    [(unit_rule_products, self)]. *)
Definition conversion_unit_collect (self : t)
  : result (list (pyval * pyval) * t) :=
  let old_symbols := keys (symbols self) in
  for_each old_symbols
    (fun symbol '(products, st) =>
       s <- getitem symbol (symbols st) ;;
       let old_rules := BNF_Symbol.get_rules s in
       for_each old_rules
         (fun rule '(products1, st1) =>
            match rule with
            | [rule0] =>
                target <- getitem rule0 (symbols st1) ;;
                if negb (BNF_Symbol.is_terminal target) then
                  st2 <- for_each (BNF_Symbol.get_rules target)
                           (fun subrule a =>
                              do_on_symbol symbol
                                (fun p => BNF_Symbol.add_rule p subrule) a)
                           st1 ;;
                  Ok (set_add pair_eqb (symbol, rule0) products1, st2)
                else Ok (products1, st1)
            | _ => Ok (products1, st1)
            end)
         (products, st))
    ([], self).

(** [conversion_unit(self)] *)
Definition conversion_unit (self : t) : result t :=
  '(unit_rule_products, self1) <- conversion_unit_collect self ;;
  for_each unit_rule_products
    (fun '(parent, product) st =>
       st1 <- do_on_symbol parent
                (fun p => BNF_Symbol.remove_rule p [product]) st ;;
       only <- is_only_subrule_with_daughter st1 parent product ;;
       if (only : bool)
       then do_on_symbol product (fun c => BNF_Symbol.remove_parent c parent) st1
       else Ok st1)
    self1.

(** The body of the inner loop of [check_if_cnf]: [Ok false] stands for
    [return False], [Ok true] for falling through to the next rule.  The
    cases are those of [len(rule)]: 0, 1, 2 and more than 2. *)
Definition check_rule (self : t) (rule : list pyval) : result bool :=
  match rule with
  | [] => Ok true
  | [rule0] =>
      s0 <- getitem rule0 (symbols self) ;;
      Ok (BNF_Symbol.is_terminal s0)
  | [rule0; rule1] =>
      s0 <- getitem rule0 (symbols self) ;;
      if BNF_Symbol.is_terminal s0 then Ok false
      else
        s1 <- getitem rule1 (symbols self) ;;
        Ok (negb (BNF_Symbol.is_terminal s1))
  | _ => Ok false
  end.

(** [check_if_cnf(self)] *)
Definition check_if_cnf (self : t) : result bool :=
  all_pass (values (symbols self))
    (fun s => all_pass (BNF_Symbol.get_rules s) (check_rule self)).

(** [add_tag(self, symbol, tag)] *)
Definition add_tag (self : t) (symbol tag : pyval) : t :=
  set_tags self (setitem symbol tag (tags self)).

(** [reset_start_symbol_for_cnf(self)] *)
Definition reset_start_symbol_for_cnf (self : t) : t :=
  set_tags self (setitem (PInt (start_symbol self)) PNone (tags self)).

(** [while tag in self.tags.values(): tag += 1].  At most [length vals]
    values can be skipped, which bounds the number of iterations. *)
Fixpoint skip_used_tags (fuel : nat) (tag : Z) (vals : list pyval) : Z :=
  match fuel with
  | O => tag
  | S fuel' =>
      if set_mem Py.eqb (PInt tag) vals
      then skip_used_tags fuel' (tag + 1) vals
      else tag
  end.

(** [set_unset_tags(self)]; the loop state is [(tag, self.tags)]. *)
Definition set_unset_tags (self : t) : t :=
  let '(_, tags') :=
    fold_left
      (fun '(tag, tg) symbol =>
         if negb (contains symbol tg) then
           let tag' := skip_used_tags (S (length tg)) tag (values tg) in
           (tag', setitem symbol (PInt tag') tg)
         else (tag, tg))
      (keys (symbols self)) (0, tags self) in
  reset_start_symbol_for_cnf (set_tags self tags').

(** The class [PhraseStructure] is imported from another module; what
    [create_phrase_structure] does with the fresh instance is the sequence
    of method calls it makes on it, recorded here in order. *)
Inductive ps_call : Type :=
| Call_add_symbol (symbol_tag : pyval) (is_terminal : bool)
| Call_add_intermediate_rule (symbol_tag produces1 produces2 : pyval)
| Call_add_terminal_rule (symbol_tag produces : pyval).

(** The calls of the second loop of [create_phrase_structure] for one rule. *)
Definition rule_calls (self : t) (symbol_tag : pyval) (rule : list pyval)
  : result (list ps_call) :=
  match rule with
  | [rule0; rule1] =>
      t0 <- getitem rule0 (tags self) ;;
      t1 <- getitem rule1 (tags self) ;;
      Ok [Call_add_intermediate_rule symbol_tag t0 t1]
  | [rule0] =>
      t0 <- getitem rule0 (tags self) ;;
      Ok [Call_add_terminal_rule symbol_tag t0]
  | _ => Ok []
  end.

(** [create_phrase_structure(self)] *)
Definition create_phrase_structure (self : t) : result (list ps_call * t) :=
  let self1 := set_unset_tags self in
  calls1 <- for_each (symbols self1)
              (fun '(symbol, s) calls =>
                 symbol_tag <- getitem symbol (tags self1) ;;
                 Ok (calls ++ [Call_add_symbol symbol_tag (BNF_Symbol.is_terminal s)]))
              [] ;;
  calls2 <- for_each (symbols self1)
              (fun '(symbol, s) calls =>
                 symbol_tag <- getitem symbol (tags self1) ;;
                 for_each (BNF_Symbol.get_rules s)
                   (fun rule cs =>
                      new <- rule_calls self1 symbol_tag rule ;;
                      Ok (cs ++ new))
                   calls)
              calls1 ;;
  Ok (calls2, self1).

(** One iteration of the [while] loop of [convert_to_cnf]. *)
Definition conversion_pass (self : t) : result t :=
  self1 <- conversion_start self ;;
  self2 <- conversion_term self1 ;;
  self3 <- conversion_bin self2 ;;
  self4 <- conversion_del self3 ;;
  conversion_unit self4.

(** [convert_to_cnf(self)].  The [while] loop has no bound in the source;
    [fuel] bounds the number of iterations and [None] means that the loop
    was still running when the fuel ran out. *)
Fixpoint convert_to_cnf (fuel : nat) (self : t)
  : option (result (list ps_call * t)) :=
  match fuel with
  | O => None
  | S fuel' =>
      match check_if_cnf self with
      | Raise e => Some (Raise e)
      | Ok true => Some (create_phrase_structure self)
      | Ok false =>
          match conversion_pass self with
          | Raise e => Some (Raise e)
          | Ok self' => convert_to_cnf fuel' self'
          end
      end
  end.

End BNF.

(** ** class PhraseStructure *)

Module PhraseStructure.

(** Modelled from the spec: the module [phrase_structure] that both source
    files import is not among the sources.  The spec describes the CNF
    grammar as a collection of symbol records, each with an identity, a
    terminal flag, a set of rules and a set of parents, held in one table
    indexed by the symbol's identity.  The fields and accessors below are
    the ones src/cyk.py reads ([symbols], [get_parents], [get_rules]); the
    table is a dictionary, as [BNF.symbols] is. *)
Record PhraseStructureSymbol : Type := mk_symbol {
  symbol : pyval;
  rules : list (list pyval);
  parents : list pyval;
  is_terminal : bool
}.

Definition get_parents (self : PhraseStructureSymbol) : list pyval := parents self.
Definition get_rules (self : PhraseStructureSymbol) : list (list pyval) := rules self.

Record t : Type := mk { symbols : dict PhraseStructureSymbol }.

Definition init : t := mk [].

(** Modelled from the spec: registering a symbol that already exists
    changes nothing. *)
Definition add_symbol (self : t) (tag : pyval) (terminal : bool) : t :=
  if contains tag (symbols self) then self
  else mk (setitem tag (mk_symbol tag [] [] terminal) (symbols self)).

Definition with_rule (produces : list pyval) (s : PhraseStructureSymbol)
  : PhraseStructureSymbol :=
  mk_symbol (symbol s) (set_add tuple_eqb produces (rules s)) (parents s)
            (is_terminal s).

Definition with_parent (parent : pyval) (s : PhraseStructureSymbol)
  : PhraseStructureSymbol :=
  mk_symbol (symbol s) (rules s) (set_add Py.eqb parent (parents s))
            (is_terminal s).

Definition update (k : pyval) (f : PhraseStructureSymbol -> PhraseStructureSymbol)
           (self : t) : t :=
  match lookup k (symbols self) with
  | Some s => mk (setitem k (f s) (symbols self))
  | None => self
  end.

(** Modelled from the spec: a rule registers the production under its
    parent and the parent in the parent set of every member; a rule that
    names an unknown symbol is not stored. *)
Definition add_rule (self : t) (parent : pyval) (produces : list pyval) : t :=
  if contains parent (symbols self)
     && forallb (fun m => contains m (symbols self)) produces
  then fold_left (fun st m => update m (with_parent parent) st) produces
                 (update parent (with_rule produces) self)
  else self.

Definition add_intermediate_rule (self : t) (parent produces1 produces2 : pyval) : t :=
  add_rule self parent [produces1; produces2].

Definition add_terminal_rule (self : t) (parent produces : pyval) : t :=
  add_rule self parent [produces].

(** The instance that a recorded sequence of calls builds. *)
Definition apply_call (self : t) (c : BNF.ps_call) : t :=
  match c with
  | BNF.Call_add_symbol tag terminal => add_symbol self tag terminal
  | BNF.Call_add_intermediate_rule p a b => add_intermediate_rule self p a b
  | BNF.Call_add_terminal_rule p a => add_terminal_rule self p a
  end.

Definition of_calls (calls : list BNF.ps_call) : t :=
  fold_left apply_call calls init.

End PhraseStructure.

(** ** class CYK *)

Module CYK.

(** [cyk_table]: a list of rows, each a list of sets of symbols. *)
Definition cyk_table : Type := list (list (list pyval)).

(** [generate_cyk_table(self, size)] *)
Definition generate_cyk_table (size : nat) : cyk_table :=
  map (fun i => repeat [] (size - i)) (seq 0 size).

Fixpoint list_set {A : Type} (l : list A) (i : nat) (v : A) : list A :=
  match l, i with
  | [], _ => []
  | _ :: l', O => v :: l'
  | x :: l', S i' => x :: list_set l' i' v
  end.

(** [self.cyk_table[row][column]] *)
Definition cell (table : cyk_table) (row column : Z) : result (list pyval) :=
  r <- index table row ;; index r column.

(** [self.cyk_table[row][column].add(item)], for indices that are not
    negative (all the calls of this form in the source). *)
Definition cell_add (table : cyk_table) (row column : nat) (item : pyval)
  : result cyk_table :=
  r <- index table (Z.of_nat row) ;;
  c <- index r (Z.of_nat column) ;;
  Ok (list_set table row (list_set r column (set_add Py.eqb item c))).

(** [get_cyk_pairs(self, row, column)] *)
Definition get_cyk_pairs (table : cyk_table) (row column : nat)
  : result (list (pyval * pyval)) :=
  for_each (seq 0 row)
    (fun left_i pairs =>
       let left_j := column in
       let right_j := (column + left_i + 1)%nat in
       let right_i := (row - left_i - 1)%nat in
       left <- cell table (Z.of_nat left_i) (Z.of_nat left_j) ;;
       for_each left
         (fun item1 pairs1 =>
            right <- cell table (Z.of_nat right_i) (Z.of_nat right_j) ;;
            Ok (fold_left (fun ps item2 => set_add BNF.pair_eqb (item1, item2) ps)
                          right pairs1))
         pairs)
    [].

(** [get_common_parents(self, item1, item2)] *)
Definition get_common_parents (ps : PhraseStructure.t) (item1 item2 : pyval)
  : result (list pyval) :=
  s1 <- getitem item1 (PhraseStructure.symbols ps) ;;
  let parents1 := PhraseStructure.get_parents s1 in
  s2 <- getitem item2 (PhraseStructure.symbols ps) ;;
  let parents2 := PhraseStructure.get_parents s2 in
  Ok (set_inter Py.eqb parents1 parents2).

(** [fill_cyk_row(self, row)] *)
Definition fill_cyk_row (ps : PhraseStructure.t) (row : nat) (table : cyk_table)
  : result cyk_table :=
  r <- index table (Z.of_nat row) ;;
  let width := length r in
  for_each (seq 0 width)
    (fun column tbl =>
       pairs <- get_cyk_pairs tbl row column ;;
       for_each pairs
         (fun '(item1, item2) tbl1 =>
            common <- get_common_parents ps item1 item2 ;;
            for_each common
              (fun parent tbl2 =>
                 p <- getitem parent (PhraseStructure.symbols ps) ;;
                 if set_mem tuple_eqb [item1; item2] (PhraseStructure.get_rules p)
                 then cell_add tbl2 row column parent
                 else Ok tbl2)
              tbl1)
         tbl)
    table.

(** The first loop of [fits_grammar]: the base row. *)
Definition fill_base_row (ps : PhraseStructure.t) (symbol_list : list pyval)
           (table : cyk_table) : result cyk_table :=
  for_each (seq 0 (length symbol_list))
    (fun column tbl =>
       sym <- index symbol_list (Z.of_nat column) ;;
       s <- getitem sym (PhraseStructure.symbols ps) ;;
       for_each (PhraseStructure.get_parents s)
         (fun parent tbl1 => cell_add tbl1 0 column parent)
         tbl)
    table.

(** [fits_grammar(self, symbol_list)] *)
Definition fits_grammar (ps : PhraseStructure.t) (symbol_list : list pyval)
  : result bool :=
  let size := length symbol_list in
  let table := generate_cyk_table size in
  table1 <- fill_base_row ps symbol_list table ;;
  table2 <- for_each (seq 1 (size - 1)) (fill_cyk_row ps) table1 ;;
  head <- cell table2 (-1) 0 ;;
  Ok (set_mem Py.eqb PNone head).

End CYK.

(** ** Callers, invariants and sample grammars *)

(** *** The public construction calls *)

Inductive op : Type :=
| Op_add_symbol (symbol : pyval) (is_terminal : bool)
| Op_add_rule (input_symbol : pyval) (output_symbols_tuple : list pyval)
| Op_add_tag (symbol tag : pyval).

(** A caller that drops the integer each call returns. *)
Definition run_op (o : op) (g : BNF.t) : result BNF.t :=
  match o with
  | Op_add_symbol symbol is_terminal => Ok (snd (BNF.add_symbol g symbol is_terminal))
  | Op_add_rule input_symbol output => '(_, g') <- BNF.add_rule g input_symbol output ;; Ok g'
  | Op_add_tag symbol tag => Ok (BNF.add_tag g symbol tag)
  end.

Definition run_ops (ops : list op) (g : BNF.t) : result BNF.t :=
  for_each ops run_op g.

(** [n] iterations of the body of the conversion loop. *)
Fixpoint passes (n : nat) (g : BNF.t) : result BNF.t :=
  match n with
  | O => Ok g
  | S n' => g' <- BNF.conversion_pass g ;; passes n' g'
  end.

(** The key is an integer, or equal to one. *)
Definition is_int (v : pyval) : bool :=
  match v with PInt _ => true | _ => false end.

(** The class docstring asks callers not to use integers as symbols; a key
    that is equal to an integer is the same key. *)
Definition declares_no_int (o : op) : Prop :=
  match o with
  | Op_add_symbol symbol _ => is_int symbol = false
  | _ => True
  end.

(** *** Namespaces of synthetic identities *)

(** Every integer key of the symbol table lies between the next replacement
    id (exclusive) and the current start symbol (inclusive). *)
Definition ns_inv (g : BNF.t) : Prop :=
  BNF.current_term_replacement g < 0 /\
  0 <= BNF.start_symbol g /\
  forall z, contains (PInt z) (BNF.symbols g) = true ->
            BNF.current_term_replacement g < z <= BNF.start_symbol g.

(** A key that no later replacement id can be equal to. *)
Definition stable_key (g : BNF.t) (k : pyval) : Prop :=
  forall z, k = PInt z -> BNF.current_term_replacement g < z.

(** What one or more conversion steps may do to a grammar: the two counters
    only advance, new integer keys come from the ranges the counters swept,
    and a symbol under a stable key keeps its kind and those of its rules
    that satisfy [keep]. *)
Definition evolves (keep : list pyval -> Prop) (g g' : BNF.t) : Prop :=
  BNF.current_term_replacement g' <= BNF.current_term_replacement g /\
  BNF.start_symbol g <= BNF.start_symbol g' /\
  (forall z, contains (PInt z) (BNF.symbols g') = true ->
             contains (PInt z) (BNF.symbols g) = true \/
             BNF.current_term_replacement g' < z <= BNF.current_term_replacement g \/
             BNF.start_symbol g < z <= BNF.start_symbol g') /\
  (forall k s, stable_key g k -> lookup k (BNF.symbols g) = Some s ->
     exists s', lookup k (BNF.symbols g') = Some s' /\
                BNF_Symbol.is_terminal s' = BNF_Symbol.is_terminal s /\
                forall r, keep r -> In r (BNF_Symbol.rules s) ->
                          In r (BNF_Symbol.rules s')).

(** A method of [BNF_Symbol] that changes neither the kind of the symbol
    nor any of its rules that satisfy [keep]. *)
Definition gentle (keep : list pyval -> Prop)
           (method : BNF_Symbol.t -> Z * BNF_Symbol.t) : Prop :=
  forall s,
    BNF_Symbol.is_terminal (snd (method s)) = BNF_Symbol.is_terminal s /\
    forall r, keep r -> In r (BNF_Symbol.rules s) ->
              In r (BNF_Symbol.rules (snd (method s))).

Definition arity_two (r : list pyval) : Prop := length r = 2%nat.
Definition not_unit (r : list pyval) : Prop := length r <> 1%nat.

(** *** Rules that mix terminal and non-terminal members *)

Definition is_terminal_in (g : BNF.t) (k : pyval) : bool :=
  match lookup k (BNF.symbols g) with
  | Some s => BNF_Symbol.is_terminal s
  | None => false
  end.

Definition is_nonterminal_in (g : BNF.t) (k : pyval) : bool :=
  match lookup k (BNF.symbols g) with
  | Some s => negb (BNF_Symbol.is_terminal s)
  | None => false
  end.

Definition mixed (g : BNF.t) (rule : list pyval) : bool :=
  existsb (is_terminal_in g) rule && existsb (is_nonterminal_in g) rule.

Definition has_rule (g : BNF.t) (parent : pyval) (rule : list pyval) : Prop :=
  exists s, lookup parent (BNF.symbols g) = Some s /\ In rule (BNF_Symbol.rules s).

(** A grammar in which some stable non-terminal [p] holds a rule [[a; b]]
    with a terminal [b] after a non-terminal [a], or with a terminal [a]. *)
Definition stuck (g : BNF.t) : Prop :=
  exists p a b,
    stable_key g p /\ stable_key g a /\ stable_key g b /\
    has_rule g p [a; b] /\
    (is_terminal_in g a = true \/
     (is_nonterminal_in g a = true /\ is_terminal_in g b = true)).

(** *** The parent relation *)

(** [parent] is in the parent set of [member]. *)
Definition has_parent (g : BNF.t) (member parent : pyval) : bool :=
  match lookup member (BNF.symbols g) with
  | Some s => set_mem Py.eqb parent (BNF_Symbol.parents s)
  | None => false
  end.

(** Every rule's parent is in the parent set of every member of the rule. *)
Definition parents_cover_rules (g : BNF.t) : bool :=
  forallb
    (fun '(parent, s) =>
       forallb (fun rule => forallb (fun member => has_parent g member parent) rule)
               (BNF_Symbol.rules s))
    (BNF.symbols g).

(** *** Derivations *)

(** [derives g x w]: the sequence of terminals [w] is derivable from the
    symbol [x] with the rules of [g]. *)
Inductive derives (g : BNF.t) : pyval -> list pyval -> Prop :=
| derives_terminal x :
    is_terminal_in g x = true -> derives g x [x]
| derives_rule x rule parts :
    is_nonterminal_in g x = true ->
    has_rule g x rule ->
    Forall2 (derives g) rule parts ->
    derives g x (concat parts).

(** *** The shape of the emitted grammar *)

(** A rule handed to the [PhraseStructure] is the image under the tags of
    a rule of the grammar [g] with one terminal member, declared to the
    [PhraseStructure] as a terminal, or with two non-terminal members,
    declared as non-terminals. *)
Definition call_in_cnf (g : BNF.t) (calls : list BNF.ps_call) (c : BNF.ps_call)
  : Prop :=
  match c with
  | BNF.Call_add_symbol _ _ => True
  | BNF.Call_add_terminal_rule _ produces =>
      exists m,
        is_terminal_in g m = true /\
        lookup m (BNF.tags g) = Some produces /\
        In (BNF.Call_add_symbol produces true) calls
  | BNF.Call_add_intermediate_rule _ produces1 produces2 =>
      exists m1 m2,
        is_nonterminal_in g m1 = true /\ is_nonterminal_in g m2 = true /\
        lookup m1 (BNF.tags g) = Some produces1 /\
        lookup m2 (BNF.tags g) = Some produces2 /\
        In (BNF.Call_add_symbol produces1 false) calls /\
        In (BNF.Call_add_symbol produces2 false) calls
  end.

(** The next identity of each of the two allocators is not in use. *)
Definition next_ids_fresh (g : BNF.t) : Prop :=
  contains (PInt (BNF.current_term_replacement g)) (BNF.symbols g) = false /\
  contains (PInt (BNF.start_symbol g + 1)) (BNF.symbols g) = false.

(** *** Sample grammars, built with the public calls *)

Local Open Scope string_scope.

(** [0 -> A b], [A -> a] *)
Definition mixed_ops : list op :=
  [Op_add_symbol (PStr "A") false; Op_add_symbol (PStr "a") true;
   Op_add_symbol (PStr "b") true;
   Op_add_rule (PInt 0) [PStr "A"; PStr "b"];
   Op_add_rule (PStr "A") [PStr "a"]].

(** [0 -> X], [X -> a] *)
Definition unit_ops : list op :=
  [Op_add_symbol (PStr "X") false; Op_add_symbol (PStr "a") true;
   Op_add_rule (PInt 0) [PStr "X"];
   Op_add_rule (PStr "X") [PStr "a"]].

(** [0 -> A B C], [0 -> B], [A -> a], [B -> b], [C -> c] *)
Definition long_and_unit_ops : list op :=
  [Op_add_symbol (PStr "A") false; Op_add_symbol (PStr "B") false;
   Op_add_symbol (PStr "C") false; Op_add_symbol (PStr "a") true;
   Op_add_symbol (PStr "b") true; Op_add_symbol (PStr "c") true;
   Op_add_rule (PInt 0) [PStr "A"; PStr "B"; PStr "C"];
   Op_add_rule (PInt 0) [PStr "B"];
   Op_add_rule (PStr "A") [PStr "a"]; Op_add_rule (PStr "B") [PStr "b"];
   Op_add_rule (PStr "C") [PStr "c"]].

(** [0 -> A t] where the caller named the terminal [t] with the integer -1. *)
Definition int_symbol_ops : list op :=
  [Op_add_symbol (PStr "A") false; Op_add_symbol (PInt (-1)) true;
   Op_add_rule (PInt 0) [PStr "A"; PInt (-1)]].

(** [0 -> A B], [A -> a], [B -> b], with the terminals tagged by their names. *)
Definition ab_ops : list op :=
  [Op_add_symbol (PStr "A") false; Op_add_symbol (PStr "B") false;
   Op_add_symbol (PStr "a") true; Op_add_symbol (PStr "b") true;
   Op_add_rule (PInt 0) [PStr "A"; PStr "B"];
   Op_add_rule (PStr "A") [PStr "a"]; Op_add_rule (PStr "B") [PStr "b"];
   Op_add_tag (PStr "a") (PStr "a"); Op_add_tag (PStr "b") (PStr "b")].

Definition grammar_of (ops : list op) : BNF.t :=
  match run_ops ops BNF.init with
  | Ok g => g
  | Raise _ => BNF.init
  end.

Local Close Scope string_scope.

(** *** The CYK table *)

(** The table has a first row of [n] cells. *)
Definition base_row_width (table : CYK.cyk_table) (n : nat) : Prop :=
  exists r rest, table = r :: rest /\ length r = n.

(** The grammar [None -> A B], [A -> a], [B -> b] that [convert_to_cnf]
    emits for [ab_ops]. *)
Definition ab_phrase_structure : PhraseStructure.t :=
  match BNF.convert_to_cnf 1 (grammar_of ab_ops) with
  | Some (Ok (calls, _)) => PhraseStructure.of_calls calls
  | _ => PhraseStructure.init
  end.

(** *** Declared rule members *)

(** Every member of the rule [r] is a key of the symbol table. *)
Definition declared_in (g : BNF.t) (r : list pyval) : Prop :=
  forall m, In m r -> contains m (BNF.symbols g) = true.

(** Every member of every rule is a key of the symbol table: what the
    membership checks of [add_rule] establish. *)
Definition members_declared (g : BNF.t) : Prop :=
  forall k s r, In (k, s) (BNF.symbols g) ->
                In r (BNF_Symbol.rules s) -> declared_in g r.

(** No key is ever taken out of the symbol table. *)
Definition keeps_keys (g g' : BNF.t) : Prop :=
  forall k, contains k (BNF.symbols g) = true ->
            contains k (BNF.symbols g') = true.

(** The state [g'] reached from [g] is as well formed as [g]. *)
Definition sound_from (g g' : BNF.t) : Prop :=
  members_declared g' /\ keeps_keys g g'.

(** A method of [BNF_Symbol] whose only new rules are among [extra]. *)
Definition adds_only (extra : list (list pyval))
           (method : BNF_Symbol.t -> Z * BNF_Symbol.t) : Prop :=
  forall s r, In r (BNF_Symbol.rules (snd (method s))) ->
              In r (BNF_Symbol.rules s) \/ In r extra.

(** *** Rules that are not in Chomsky normal form *)

(** [check_rule] lets the rule pass. *)
Definition conforms (g : BNF.t) (rule : list pyval) : bool :=
  match BNF.check_rule g rule with
  | Ok true => true
  | _ => false
  end.

(** The number of rules of the grammar that [check_rule] does not let pass. *)
Definition non_conforming_rules (g : BNF.t) : nat :=
  length (filter (fun rule => negb (conforms g rule))
                 (concat (map BNF_Symbol.rules (values (BNF.symbols g))))).

(** *** Predicates on all the rules of a grammar *)

(** Every rule stored in the symbol table satisfies [R]. *)
Definition all_rules (R : list pyval -> Prop) (g : BNF.t) : Prop :=
  forall k s r, In (k, s) (BNF.symbols g) -> In r (BNF_Symbol.rules s) -> R r.

(** *** The shape of a split rule *)

(** The right-branching chain that replaces a rule of two or more members
    under [prev], with the replacement ids [rid], [rid - 1], ... *)
Fixpoint bin_chain (prev : pyval) (rid : Z) (rule : list pyval)
  : list (pyval * pyval * pyval) :=
  match rule with
  | item :: ((_ :: _ :: _) as rest) =>
      (prev, item, PInt rid) :: bin_chain (PInt rid) (rid - 1) rest
  | [last_but_one; last] => [(prev, last_but_one, last)]
  | _ => []
  end.

(** A rule under [parent] that counts for [is_only_subrule_with_daughter]:
    it has more than one member and [daughter] is one of them. *)
Definition counts_as_subrule (daughter : pyval) (rule : list pyval) : bool :=
  set_mem Py.eqb daughter rule && (1 <? length rule)%nat.

(** *** How the rule sets change *)

(** Between [g] and [g'] the rule sets gained rules of at most two members
    only. *)
Definition gains_short_rules (g g' : BNF.t) : Prop :=
  forall k s' r, lookup k (BNF.symbols g') = Some s' -> In r (BNF_Symbol.rules s') ->
    (length r <= 2)%nat \/
    exists s, lookup k (BNF.symbols g) = Some s /\ In r (BNF_Symbol.rules s).

(** From [g] to [g'] every symbol keeps its kind and its rules. *)
Definition rules_grow (g g' : BNF.t) : Prop :=
  forall k s, lookup k (BNF.symbols g) = Some s ->
    exists s', lookup k (BNF.symbols g') = Some s' /\
               BNF_Symbol.is_terminal s' = BNF_Symbol.is_terminal s /\
               incl (BNF_Symbol.rules s) (BNF_Symbol.rules s').

(** From [g] to [g'] no symbol gains a rule. *)
Definition no_new_rules (g g' : BNF.t) : Prop :=
  forall k s' r, lookup k (BNF.symbols g') = Some s' -> In r (BNF_Symbol.rules s') ->
    exists s, lookup k (BNF.symbols g) = Some s /\ In r (BNF_Symbol.rules s).

(** *** Rules in normal form *)

(** The shapes of rule that [check_rule] lets pass: no member, one terminal,
    or two non-terminals. *)
Definition cnf_rule (g : BNF.t) (rule : list pyval) : bool :=
  match rule with
  | [] => true
  | [m] => is_terminal_in g m
  | [m1; m2] => is_nonterminal_in g m1 && is_nonterminal_in g m2
  | _ => false
  end.

(** *** Tags *)

(** The loop of [set_unset_tags] from the counter [tag] and the tags [tg]. *)
Definition tags_loop (ks : list pyval) (tag : Z) (tg : dict pyval) : Z * dict pyval :=
  fold_left
    (fun '(tag, tg) symbol =>
       if negb (contains symbol tg) then
         let tag' := BNF.skip_used_tags (S (length tg)) tag (values tg) in
         (tag', setitem symbol (PInt tag') tg)
       else (tag, tg))
    ks (tag, tg).

(** The number of integers from [tag] on among [vals]. *)
Definition count_from (tag : Z) (vals : list pyval) : nat :=
  length (filter (fun v => match v with PInt z => tag <=? z | _ => false end) vals).

(** *** Cells of the CYK table and what they hold *)

(** The cell of the table at a row and a column, when there is one. *)
Definition table_cell (table : CYK.cyk_table) (row column : nat) : option (list pyval) :=
  match nth_error table row with
  | Some r => nth_error r column
  | None => None
  end.

(** The triangle that [generate_cyk_table] builds: [size] rows, row [i] of
    [size - i] cells. *)
Definition table_shape (size : nat) (table : CYK.cyk_table) : Prop :=
  length table = size /\
  forall i r, nth_error table i = Some r -> length r = (size - i)%nat.

(** Every symbol in every cell satisfies [P] at the cell's row and column. *)
Definition table_all (P : nat -> nat -> pyval -> Prop) (table : CYK.cyk_table) : Prop :=
  forall i j c x, table_cell table i j = Some c -> In x c -> P i j x.

(** What the recognizer combines: [p] spans one symbol when it is among the
    symbol's parents, and spans [w1 ++ w2] when it is a common parent of
    [a] and [b], holds the rule [(a, b)], and [a] spans [w1], [b] spans
    [w2]. *)
Inductive spans (ps : PhraseStructure.t) : pyval -> list pyval -> Prop :=
| spans_symbol p a s :
    lookup a (PhraseStructure.symbols ps) = Some s ->
    In p (PhraseStructure.get_parents s) ->
    spans ps p [a]
| spans_pair p a b sa sb sp w1 w2 :
    spans ps a w1 -> spans ps b w2 ->
    lookup a (PhraseStructure.symbols ps) = Some sa ->
    lookup b (PhraseStructure.symbols ps) = Some sb ->
    In p (PhraseStructure.get_parents sa) ->
    In p (PhraseStructure.get_parents sb) ->
    lookup p (PhraseStructure.symbols ps) = Some sp ->
    In [a; b] (PhraseStructure.get_rules sp) ->
    spans ps p (w1 ++ w2).

(** Every parent recorded in the table of symbols is itself a key of it. *)
Definition parents_declared (ps : PhraseStructure.t) : Prop :=
  forall k s p, lookup k (PhraseStructure.symbols ps) = Some s ->
                In p (PhraseStructure.get_parents s) ->
                contains p (PhraseStructure.symbols ps) = true.

(** The rows have the shape of the triangle and every symbol in the table
    is a key of the table of symbols. *)
Definition table_ok (ps : PhraseStructure.t) (size : nat) (table : CYK.cyk_table) : Prop :=
  table_shape size table /\
  table_all (fun _ _ x => contains x (PhraseStructure.symbols ps) = true) table.

(** The symbol [x] is in the cell at [row] and [column]. *)
Definition in_cell (table : CYK.cyk_table) (row column : nat) (x : pyval) : Prop :=
  exists c, table_cell table row column = Some c /\ In x c.

(** The cells of [table'] hold what those of [table] hold. *)
Definition table_le (table table' : CYK.cyk_table) : Prop :=
  forall i j x, in_cell table i j x -> in_cell table' i j x.

(** Row [i] holds every symbol that spans [i + 1] symbols of the sequence
    from some column on. *)
Definition row_complete (ps : PhraseStructure.t) (symbol_list : list pyval)
           (table : CYK.cyk_table) (i : nat) : Prop :=
  forall j x, (i + j < length symbol_list)%nat ->
              spans ps x (firstn (S i) (skipn j symbol_list)) ->
              in_cell table i j x.

(** *** Allocation of synthetic identities *)

(** The integer [z] was not a key of [g] and is a non-terminal of [g']. *)
Definition newly_allocated (g g' : BNF.t) (z : Z) : Prop :=
  contains (PInt z) (BNF.symbols g) = false /\
  is_nonterminal_in g' (PInt z) = true.

(** The three places where the conversion hands out an identity, called in
    the state [s]: [conversion_term_replacer] hands out the replacement
    counter; [conversion_bin_splitter] the ids of its chain, from the
    counter downwards; [conversion_start] the successor of the start
    symbol.  Each identity handed out is not a key of [s], the replacement
    ids are below zero and the start symbol above, and the state after the
    call satisfies [ns_inv]. *)
Definition allocates_fresh (s : BNF.t) : Prop :=
  (forall item id s',
     BNF.conversion_term_replacer s item = Ok (id, s') ->
     id = BNF.current_term_replacement s /\ id < 0 /\
     newly_allocated s s' id /\ ns_inv s') /\
  (forall parent rule replacements s',
     BNF.conversion_bin_splitter s parent rule = Ok (replacements, s') ->
     (forall t, In t replacements <->
                In t (bin_chain parent (BNF.current_term_replacement s) rule)) /\
     (forall i, BNF.current_term_replacement s - Z.of_nat (length rule - 2) < i
                <= BNF.current_term_replacement s ->
                i < 0 /\ newly_allocated s s' i) /\
     ns_inv s') /\
  (forall s',
     BNF.conversion_start s = Ok s' ->
     (BNF.does_start_occur_on_right s = false -> s' = s) /\
     (BNF.does_start_occur_on_right s = true ->
      BNF.start_symbol s' = BNF.start_symbol s + 1 /\
      0 < BNF.start_symbol s' /\
      newly_allocated s s' (BNF.start_symbol s')) /\
     ns_inv s').

(** Every step of a pass, and the pass, started in [s] ends in a state that
    satisfies [ns_inv]: a method call on a stored symbol, which is the only
    other way in which a pass changes the table, and each of the functions
    that a pass is made of. *)
Definition steps_keep_ns_inv (s : BNF.t) : Prop :=
  (forall k method s', BNF.do_on_symbol k method s = Ok s' -> ns_inv s') /\
  (forall parent rule s',
     BNF.conversion_term_product_determinalizer s parent rule = Ok s' -> ns_inv s') /\
  (forall s', BNF.conversion_term s = Ok s' -> ns_inv s') /\
  (forall s', BNF.conversion_bin s = Ok s' -> ns_inv s') /\
  (forall s', BNF.conversion_unit s = Ok s' -> ns_inv s') /\
  (forall s', BNF.conversion_pass s = Ok s' -> ns_inv s').

(** *** The grammar that the calls build *)








Local Open Scope string_scope.


Local Close Scope string_scope.

(** * Properties *)

(** ** Facts about the Python substrate *)

Section PyvalInduction.
Variable P : pyval -> Prop.
Hypothesis HNone : P PNone.
Hypothesis HInt : forall z, P (PInt z).
Hypothesis HFloat : forall m e, P (PFloat m e).
Hypothesis HStr : forall s, P (PStr s).
Hypothesis HTuple : forall items, Forall P items -> P (PTuple items).

Lemma pyval_nested_ind : forall v, P v.
Proof.
  fix IH 1. intros [ | z | m e | s | items].
  - exact HNone.
  - apply HInt.
  - apply HFloat.
  - apply HStr.
  - apply HTuple. induction items as [ | x items IHitems].
    + constructor.
    + constructor; [apply IH | exact IHitems].
Qed.
End PyvalInduction.

Lemma eqb_PTuple (xs ys : list pyval) :
  Py.eqb (PTuple xs) (PTuple ys) = tuple_eqb xs ys.
Proof.
  destruct xs, ys; reflexivity.
Qed.

Lemma pyval_eqb_eq (a b : pyval) : Py.eqb a b = true <-> a = b.
Proof.
  revert b. induction a as [ | z | m e | s | items IH] using pyval_nested_ind;
    intros [ | z' | m' e' | s' | items'];
    try (simpl; split; intro H; (discriminate || reflexivity)).
  - simpl. rewrite Z.eqb_eq. split; intro H; [subst | injection H]; auto.
  - simpl. rewrite andb_true_iff, Z.eqb_eq, Pos.eqb_eq.
    split; [intros [-> ->]; reflexivity | intro H; injection H; auto].
  - simpl. rewrite String.eqb_eq. split; intro H; [subst | injection H]; auto.
  - rewrite eqb_PTuple.
    assert (Hl : tuple_eqb items items' = true <-> items = items').
    { revert items'. induction IH as [ | x xs Hx _ IHxs]; intros [ | y ys]; simpl;
        try (split; intro H; (discriminate || reflexivity)).
      rewrite andb_true_iff, Hx, IHxs.
      split; [intros [-> ->]; reflexivity | intro H; injection H; auto]. }
    rewrite Hl. split; intro H; [subst | injection H]; auto.
Qed.

Lemma tuple_eqb_eq (xs ys : list pyval) : tuple_eqb xs ys = true <-> xs = ys.
Proof.
  rewrite <- eqb_PTuple, pyval_eqb_eq.
  split; intro H; [injection H | subst]; auto.
Qed.

Lemma pyval_eqb_refl (a : pyval) : Py.eqb a a = true.
Proof. apply pyval_eqb_eq. reflexivity. Qed.

Lemma pyval_eqb_neq (a b : pyval) : Py.eqb a b = false <-> a <> b.
Proof.
  rewrite <- pyval_eqb_eq. destruct (Py.eqb a b); split; congruence.
Qed.

Lemma tuple_eqb_neq (xs ys : list pyval) : tuple_eqb xs ys = false <-> xs <> ys.
Proof.
  rewrite <- tuple_eqb_eq. destruct (tuple_eqb xs ys); split; congruence.
Qed.

(** *** Sets *)

Section SetFacts.
Context {A : Type} (eq : A -> A -> bool).
Hypothesis eq_ok : forall x y, eq x y = true <-> x = y.

Lemma set_mem_In (x : A) (s : list A) : set_mem eq x s = true <-> In x s.
Proof.
  unfold set_mem. rewrite existsb_exists. split.
  - intros [y [Hy Hxy]]. apply eq_ok in Hxy. subst. exact Hy.
  - intro H. exists x. split; [exact H | apply eq_ok; reflexivity].
Qed.

Lemma set_add_In (x y : A) (s : list A) :
  In y (set_add eq x s) <-> y = x \/ In y s.
Proof.
  unfold set_add. destruct (set_mem eq x s) eqn:E.
  - apply set_mem_In in E. split; [auto | intros [-> | H]; auto].
  - rewrite in_app_iff. simpl. split; intros [H | H]; auto.
    + destruct H as [H | []]. auto.
Qed.

Lemma set_remove_In (x y : A) (s : list A) :
  In y (set_remove eq x s) <-> In y s /\ y <> x.
Proof.
  unfold set_remove. rewrite filter_In, negb_true_iff.
  split; intros [H1 H2]; split; auto.
  - intro; subst. assert (eq x x = true) by (apply eq_ok; reflexivity). congruence.
  - destruct (eq x y) eqn:E; auto. apply eq_ok in E. congruence.
Qed.
End SetFacts.

(** *** Dictionaries *)

Section DictFacts.
Context {V : Type}.
Implicit Types (d : dict V) (k : pyval) (v : V).

Lemma lookup_setitem_same k v d : lookup k (setitem k v d) = Some v.
Proof.
  induction d as [ | [k' v'] d IH]; simpl.
  - rewrite pyval_eqb_refl. reflexivity.
  - destruct (Py.eqb k k') eqn:E; simpl; rewrite E; auto.
Qed.

Lemma lookup_setitem_other k k' v d :
  k' <> k -> lookup k' (setitem k v d) = lookup k' d.
Proof.
  intro Hne. induction d as [ | [k0 v0] d IH]; simpl.
  - apply pyval_eqb_neq in Hne. rewrite Hne. reflexivity.
  - destruct (Py.eqb k k0) eqn:E; simpl.
    + apply pyval_eqb_eq in E. subst k0.
      apply pyval_eqb_neq in Hne. rewrite Hne. reflexivity.
    + rewrite IH. reflexivity.
Qed.

Lemma contains_setitem k k' v d :
  contains k' (setitem k v d) = Py.eqb k' k || contains k' d.
Proof.
  unfold contains. destruct (Py.eqb k' k) eqn:E.
  - apply pyval_eqb_eq in E. subst. rewrite lookup_setitem_same. reflexivity.
  - apply pyval_eqb_neq in E. rewrite lookup_setitem_other by exact E. reflexivity.
Qed.

Lemma contains_lookup k d : contains k d = true <-> exists v, lookup k d = Some v.
Proof.
  unfold contains. destruct (lookup k d).
  - split; eauto.
  - split; [discriminate | intros [v H]; discriminate].
Qed.

Lemma getitem_ok k d v : getitem k d = Ok v <-> lookup k d = Some v.
Proof.
  unfold getitem. destruct (lookup k d); split; congruence.
Qed.

Lemma lookup_In k d v : lookup k d = Some v -> In (k, v) d.
Proof.
  induction d as [ | [k' v'] d IH]; simpl; [discriminate | ].
  destruct (Py.eqb k k') eqn:E.
  - apply pyval_eqb_eq in E. intro H. injection H as ->. subst. auto.
  - auto.
Qed.

Lemma lookup_In_values k d v : lookup k d = Some v -> In v (values d).
Proof.
  intro H. apply lookup_In in H. unfold values.
  change v with (snd (k, v)). apply in_map. exact H.
Qed.
End DictFacts.

(** *** Results and loops *)

Lemma bind_ok {A B : Type} (m : result A) (k : A -> result B) (b : B) :
  bind m k = Ok b -> exists a, m = Ok a /\ k a = Ok b.
Proof. destruct m; simpl; [eauto | discriminate]. Qed.

(** Inverts hypotheses of the form [bind m k = Ok b]. *)
Ltac bind_inv H :=
  let a := fresh "a" in
  let H1 := fresh H "_call" in
  apply bind_ok in H; destruct H as [a [H1 H]].

Lemma for_each_inv {A S : Type} (P : S -> Prop) (xs : list A)
      (body : A -> S -> result S) :
  (forall x st st', In x xs -> P st -> body x st = Ok st' -> P st') ->
  forall st st', P st -> for_each xs body st = Ok st' -> P st'.
Proof.
  induction xs as [ | x xs IH]; simpl; intros Hbody st st' HP H.
  - injection H as <-. exact HP.
  - bind_inv H. apply (IH (fun y s s' Hy => Hbody y s s' (or_intror Hy)) a st');
      [ | exact H].
    apply (Hbody x st a); auto.
Qed.

Lemma fold_left_inv {A S : Type} (P : S -> Prop) (xs : list A)
      (body : S -> A -> S) :
  (forall x st, In x xs -> P st -> P (body st x)) ->
  forall st, P st -> P (fold_left body xs st).
Proof.
  induction xs as [ | x xs IH]; simpl; intros Hbody st HP; [exact HP | ].
  apply IH; [intros; apply Hbody; auto | apply Hbody; auto].
Qed.

Lemma all_pass_true {A : Type} (xs : list A) (check : A -> result bool) :
  all_pass xs check = Ok true -> forall x, In x xs -> check x = Ok true.
Proof.
  induction xs as [ | y xs IH]; simpl; intros H x Hx; [contradiction | ].
  bind_inv H. destruct a; [ | discriminate].
  destruct Hx as [<- | Hx]; [exact H_call | apply IH; assumption].
Qed.

(** ** The symbol table under method calls *)

Lemma do_on_symbol_eq (k : pyval) (method : BNF_Symbol.t -> Z * BNF_Symbol.t)
      (g : BNF.t) (s : BNF_Symbol.t) :
  lookup k (BNF.symbols g) = Some s ->
  BNF.do_on_symbol k method g =
  Ok (BNF.set_symbols g (setitem k (snd (method s)) (BNF.symbols g))).
Proof.
  intro H. unfold BNF.do_on_symbol, BNF.call_on_symbol, getitem.
  rewrite H. simpl. destruct (method s). reflexivity.
Qed.

Lemma do_on_symbol_inv (k : pyval) (method : BNF_Symbol.t -> Z * BNF_Symbol.t)
      (g g' : BNF.t) :
  BNF.do_on_symbol k method g = Ok g' ->
  exists s, lookup k (BNF.symbols g) = Some s /\
            g' = BNF.set_symbols g (setitem k (snd (method s)) (BNF.symbols g)).
Proof.
  intro H. destruct (lookup k (BNF.symbols g)) as [s | ] eqn:E.
  - rewrite (do_on_symbol_eq _ _ _ _ E) in H. injection H as <-. eauto.
  - unfold BNF.do_on_symbol, BNF.call_on_symbol, getitem in H.
    rewrite E in H. discriminate.
Qed.

(** The second loop of [add_rule]. *)
Lemma add_parents_loop (input_symbol : pyval) (members : list pyval) :
  forall g,
    (forall m, In m members -> contains m (BNF.symbols g) = true) ->
    exists g',
      for_each members
        (fun symbol st =>
           BNF.do_on_symbol symbol
             (fun s => BNF_Symbol.add_parent s input_symbol) st) g = Ok g' /\
      (forall k s, lookup k (BNF.symbols g) = Some s ->
         exists s', lookup k (BNF.symbols g') = Some s' /\
                    BNF_Symbol.rules s' = BNF_Symbol.rules s /\
                    (forall q, In q (BNF_Symbol.parents s) ->
                               In q (BNF_Symbol.parents s'))) /\
      (forall m, In m members -> has_parent g' m input_symbol = true).
Proof.
  induction members as [ | m members IH]; intros g Hdecl.
  - exists g. simpl. repeat split; [eauto | contradiction].
  - assert (Hm : contains m (BNF.symbols g) = true) by (apply Hdecl; left; reflexivity).
    apply contains_lookup in Hm. destruct Hm as [sm Hsm].
    set (g1 := BNF.set_symbols g
                 (setitem m (snd (BNF_Symbol.add_parent sm input_symbol))
                          (BNF.symbols g))).
    assert (Hstep : forall k s, lookup k (BNF.symbols g) = Some s ->
              exists s', lookup k (BNF.symbols g1) = Some s' /\
                         BNF_Symbol.rules s' = BNF_Symbol.rules s /\
                         (forall q, In q (BNF_Symbol.parents s) ->
                                    In q (BNF_Symbol.parents s')) /\
                         (k = m -> In input_symbol (BNF_Symbol.parents s'))).
    { intros k s Hk. unfold g1. simpl.
      destruct (Py.eqb k m) eqn:E.
      - apply pyval_eqb_eq in E. subst k. rewrite lookup_setitem_same.
        rewrite Hsm in Hk. injection Hk as ->.
        eexists. split; [reflexivity | ]. simpl.
        split; [reflexivity | ].
        split; intros; apply (set_add_In Py.eqb pyval_eqb_eq); auto.
      - apply pyval_eqb_neq in E. rewrite lookup_setitem_other by exact E.
        exists s. repeat split; auto. intro; contradiction. }
    destruct (IH g1) as [g' [Hrun [Hkeep Hpar]]].
    { intros m' Hm'. assert (H : contains m' (BNF.symbols g) = true)
        by (apply Hdecl; right; exact Hm').
      apply contains_lookup in H. destruct H as [s' Hs'].
      destruct (Hstep _ _ Hs') as [s'' [H'' _]].
      apply contains_lookup. eauto. }
    exists g'. split; [ | split].
    + simpl. rewrite (do_on_symbol_eq _ _ _ _ Hsm). simpl. exact Hrun.
    + intros k s Hk. destruct (Hstep _ _ Hk) as [s1 [H1 [Hr1 [Hp1 _]]]].
      destruct (Hkeep _ _ H1) as [s2 [H2 [Hr2 Hp2]]].
      exists s2. repeat split; [exact H2 | congruence | auto].
    + intros m' [<- | Hm'].
      * destruct (Hstep _ _ Hsm) as [s1 [H1 [_ [_ Hin]]]].
        destruct (Hkeep _ _ H1) as [s2 [H2 [_ Hp2]]].
        unfold has_parent. rewrite H2.
        apply (set_mem_In Py.eqb pyval_eqb_eq). apply Hp2, Hin. reflexivity.
      * apply Hpar. exact Hm'.
Qed.

Lemma has_unknown_member_false (g : BNF.t) (members : list pyval) :
  BNF.has_unknown_member g members = false ->
  forall m, In m members -> contains m (BNF.symbols g) = true.
Proof.
  unfold BNF.has_unknown_member. intros H m Hm.
  destruct (contains m (BNF.symbols g)) eqn:E; [reflexivity | ].
  assert (Hex : existsb (fun symbol => negb (contains symbol (BNF.symbols g))) members = true).
  { apply existsb_exists. exists m. rewrite E. auto. }
  congruence.
Qed.

(** [add_rule] on a declared non-terminal parent with declared members. *)
Lemma add_rule_success (g : BNF.t) (p : pyval) (r : list pyval) :
  is_nonterminal_in g p = true ->
  BNF.has_unknown_member g r = false ->
  exists g', BNF.add_rule g p r = Ok (0, g') /\
             has_rule g' p r /\
             forall m, In m r -> has_parent g' m p = true.
Proof.
  unfold is_nonterminal_in. intros Hp Hr.
  destruct (lookup p (BNF.symbols g)) as [sp | ] eqn:Ep; [ | discriminate].
  apply negb_true_iff in Hp.
  set (g1 := BNF.set_symbols g
               (setitem p (snd (BNF_Symbol.add_rule sp r)) (BNF.symbols g))).
  destruct (add_parents_loop p r g1) as [g' [Hrun [Hkeep Hpar]]].
  { intros m Hm. unfold g1. simpl. rewrite contains_setitem.
    rewrite (has_unknown_member_false g r Hr m Hm). apply orb_true_r. }
  exists g'. split; [ | split].
  - unfold BNF.add_rule. unfold contains. rewrite Ep. simpl.
    unfold getitem. rewrite Ep. simpl. rewrite Hp, Hr.
    rewrite (do_on_symbol_eq _ _ _ _ Ep). simpl. fold g1. rewrite Hrun. reflexivity.
  - destruct (Hkeep p (snd (BNF_Symbol.add_rule sp r))) as [s' [Hs' [Hrules _]]].
    { unfold g1. simpl. apply lookup_setitem_same. }
    exists s'. split; [exact Hs' | ]. rewrite Hrules.
    unfold BNF_Symbol.add_rule. rewrite Hp. simpl.
    apply (set_add_In tuple_eqb tuple_eqb_eq). left. reflexivity.
  - exact Hpar.
Qed.

(** C9. [add_rule] never raises: it returns one of -3, -1, -2 and 0, and
    whenever the value is not 0 the grammar is exactly as it was.  It
    returns -3 for an undeclared parent, -1 for a terminal parent and -2 for
    an undeclared member under a non-terminal parent; with a declared
    non-terminal parent and declared members it returns 0, the rule is
    stored under the parent and the parent is in the parent set of every
    member. *)
Theorem add_rule_outcomes (g : BNF.t) (p : pyval) (r : list pyval) :
  (exists code g', BNF.add_rule g p r = Ok (code, g') /\
                   (code = -3 \/ code = -1 \/ code = -2 \/ code = 0) /\
                   (code <> 0 -> g' = g)) /\
  (contains p (BNF.symbols g) = false -> BNF.add_rule g p r = Ok (-3, g)) /\
  (is_terminal_in g p = true -> BNF.add_rule g p r = Ok (-1, g)) /\
  (is_nonterminal_in g p = true -> BNF.has_unknown_member g r = true ->
   BNF.add_rule g p r = Ok (-2, g)) /\
  (is_nonterminal_in g p = true -> BNF.has_unknown_member g r = false ->
   exists g', BNF.add_rule g p r = Ok (0, g') /\
              has_rule g' p r /\
              forall m, In m r -> has_parent g' m p = true).
Proof.
  split; [ | repeat split].
  - destruct (lookup p (BNF.symbols g)) as [sp | ] eqn:Ep.
    + destruct (BNF_Symbol.is_terminal sp) eqn:Et.
      * exists (-1), g. unfold BNF.add_rule, contains, getitem.
        rewrite Ep. simpl. rewrite Et. repeat split; auto.
      * destruct (BNF.has_unknown_member g r) eqn:Er.
        -- exists (-2), g. unfold BNF.add_rule, contains, getitem.
           rewrite Ep. simpl. rewrite Et, Er. repeat split; auto.
        -- destruct (add_rule_success g p r) as [g' [H _]]; [ | exact Er | ].
           { unfold is_nonterminal_in. rewrite Ep, Et. reflexivity. }
           exists 0, g'. split; [exact H | ]. split; [auto | ].
           intro Hne. contradiction Hne. reflexivity.
    + exists (-3), g. unfold BNF.add_rule, contains. rewrite Ep. simpl.
      repeat split; auto.
  - intro H. unfold BNF.add_rule. rewrite H. reflexivity.
  - unfold is_terminal_in, BNF.add_rule, contains, getitem. intro H.
    destruct (lookup p (BNF.symbols g)); [ | discriminate].
    simpl. rewrite H. reflexivity.
  - unfold is_nonterminal_in, BNF.add_rule, contains, getitem. intros H Hr.
    destruct (lookup p (BNF.symbols g)); [ | discriminate].
    simpl. apply negb_true_iff in H. rewrite H, Hr. reflexivity.
  - apply add_rule_success.
Qed.

Lemma add_rule_outcomes_witness :
  (exists code g', BNF.add_rule BNF.init (PStr "S") [] = Ok (code, g') /\
                   (code = -3 \/ code = -1 \/ code = -2 \/ code = 0) /\
                   (code <> 0 -> g' = BNF.init)) /\
  BNF.add_rule BNF.init (PStr "S") [] = Ok (-3, BNF.init) /\
  BNF.add_rule (grammar_of mixed_ops) (PStr "a") [PStr "b"]
    = Ok (-1, grammar_of mixed_ops) /\
  BNF.add_rule BNF.init (PInt 0) [PStr "x"] = Ok (-2, BNF.init) /\
  exists g', BNF.add_rule (grammar_of mixed_ops) (PStr "A") [PStr "a"; PStr "b"]
               = Ok (0, g') /\
             has_rule g' (PStr "A") [PStr "a"; PStr "b"] /\
             forall m, In m [PStr "a"; PStr "b"] -> has_parent g' m (PStr "A") = true.
Proof.
  split; [ | split; [ | split; [ | split]]].
  - apply (add_rule_outcomes BNF.init (PStr "S") []).
  - apply (add_rule_outcomes BNF.init (PStr "S") []). reflexivity.
  - apply (add_rule_outcomes (grammar_of mixed_ops) (PStr "a") [PStr "b"]). reflexivity.
  - apply (add_rule_outcomes BNF.init (PInt 0) [PStr "x"]); reflexivity.
  - apply (add_rule_outcomes (grammar_of mixed_ops) (PStr "A") [PStr "a"; PStr "b"]);
      reflexivity.
Defined.

(** C10. [add_rule] with an empty member tuple under any declared
    non-terminal returns 0 and leaves the rule of arity zero in the rule set
    of that symbol, where [check_rule] lets it pass. *)
Theorem add_rule_stores_empty_rule (g : BNF.t) (p : pyval) :
  is_nonterminal_in g p = true ->
  exists g', BNF.add_rule g p [] = Ok (0, g') /\
             has_rule g' p [] /\
             BNF.check_rule g' [] = Ok true.
Proof.
  intro Hp. destruct (add_rule_success g p [] Hp eq_refl) as [g' [H [Hrule _]]].
  exists g'. repeat split; assumption.
Qed.

Lemma add_rule_stores_empty_rule_witness :
  exists g', BNF.add_rule BNF.init (PInt 0) [] = Ok (0, g') /\
             has_rule g' (PInt 0) [] /\
             BNF.check_rule g' [] = Ok true.
Proof.
  apply (add_rule_stores_empty_rule BNF.init (PInt 0)). reflexivity.
Defined.

(** After [add_rule(0, ())] on a fresh grammar [check_if_cnf] holds at once,
    and [convert_to_cnf] emits a grammar without the rule. *)
Example empty_rule_is_dropped :
  exists g' out,
    BNF.add_rule BNF.init (PInt 0) [] = Ok (0, g') /\
    BNF.check_if_cnf g' = Ok true /\
    BNF.convert_to_cnf 1 g' = Some (Ok ([BNF.Call_add_symbol PNone false], out)).
Proof.
  eexists. eexists. split; [reflexivity | ]. split; reflexivity.
Qed.

(** C4. On the grammar [0 -> X], [X -> a], whose parent sets cover its
    rules, [conversion_unit] leaves the rule [0 -> a] without 0 in the parent
    set of [a]; on [0 -> A B C], [0 -> B], [conversion_bin] takes 0 out of
    the parent set of [B] although the rule [0 -> B] is still there. *)
Theorem conversion_breaks_parent_edges :
  (parents_cover_rules (grammar_of unit_ops) = true /\
   exists g', BNF.conversion_unit (grammar_of unit_ops) = Ok g' /\
              has_rule g' (PInt 0) [PStr "a"] /\
              has_parent g' (PStr "a") (PInt 0) = false /\
              parents_cover_rules g' = false) /\
  (parents_cover_rules (grammar_of long_and_unit_ops) = true /\
   exists g', BNF.conversion_bin (grammar_of long_and_unit_ops) = Ok g' /\
              has_rule g' (PInt 0) [PStr "B"] /\
              has_parent g' (PStr "B") (PInt 0) = false /\
              parents_cover_rules g' = false).
Proof.
  split; (split; [reflexivity | ]); eexists;
    (split; [vm_compute; reflexivity | ]);
    (split; [eexists; split; [reflexivity | simpl; auto] | ]);
    split; reflexivity.
Qed.

(** ** The CYK table *)

Lemma index_nth {A : Type} (l : list A) (i : nat) (x : A) :
  nth_error l i = Some x -> index l (Z.of_nat i) = Ok x.
Proof.
  intro H. unfold index.
  assert (Hlt : (i < length l)%nat) by (apply nth_error_Some; congruence).
  destruct (Z.of_nat i <? 0) eqn:E1; [apply Z.ltb_lt in E1; lia | ].
  rewrite E1. simpl.
  destruct (Z.of_nat (length l) <=? Z.of_nat i) eqn:E2;
    [apply Z.leb_le in E2; lia | ].
  rewrite Nat2Z.id, H. reflexivity.
Qed.

Lemma list_set_length {A : Type} (l : list A) (i : nat) (v : A) :
  length (CYK.list_set l i v) = length l.
Proof.
  revert i. induction l as [ | x l IH]; intros [ | i]; simpl; auto.
Qed.

Lemma cell_add_base_row (table : CYK.cyk_table) (n column : nat) (item : pyval) :
  base_row_width table n -> (column < n)%nat ->
  exists table', CYK.cell_add table 0 column item = Ok table' /\
                 base_row_width table' n.
Proof.
  intros [r [rest [-> Hlen]]] Hc.
  destruct (nth_error r column) as [c | ] eqn:E;
    [ | apply nth_error_None in E; lia].
  unfold CYK.cell_add. change (Z.of_nat 0) with 0.
  unfold index at 1. simpl length.
  replace (0 <? 0) with false by reflexivity. simpl.
  destruct (Z.of_nat (S (length rest)) <=? 0) eqn:E0;
    [apply Z.leb_le in E0; lia | ].
  simpl. rewrite (index_nth _ _ _ E). simpl.
  eexists. split; [reflexivity | ].
  eexists. eexists. split; [reflexivity | ].
  rewrite list_set_length. exact Hlen.
Qed.

Lemma add_parents_base_row (n column : nat) (parents : list pyval) :
  (column < n)%nat ->
  forall table, base_row_width table n ->
  exists table',
    for_each parents (fun parent tbl => CYK.cell_add tbl 0 column parent) table
      = Ok table' /\ base_row_width table' n.
Proof.
  intro Hc. induction parents as [ | p parents IH]; intros table Hw; simpl.
  - eauto.
  - destruct (cell_add_base_row table n column p Hw Hc) as [t1 [H1 Hw1]].
    rewrite H1. simpl. apply IH. exact Hw1.
Qed.

Lemma fill_base_row_unknown (ps : PhraseStructure.t) (symbol_list : list pyval) :
  forall columns table,
    base_row_width table (length symbol_list) ->
    (forall c, In c columns -> (c < length symbol_list)%nat) ->
    (exists c x, In c columns /\ nth_error symbol_list c = Some x /\
                 lookup x (PhraseStructure.symbols ps) = None) ->
    for_each columns
      (fun column tbl =>
         sym <- index symbol_list (Z.of_nat column) ;;
         s <- getitem sym (PhraseStructure.symbols ps) ;;
         for_each (PhraseStructure.get_parents s)
           (fun parent tbl1 => CYK.cell_add tbl1 0 column parent) tbl)
      table = Raise KeyError.
Proof.
  induction columns as [ | c columns IH]; intros table Hw Hcols Hbad.
  - destruct Hbad as [c [x [[] _]]].
  - simpl.
    assert (Hc : (c < length symbol_list)%nat) by (apply Hcols; left; reflexivity).
    destruct (nth_error symbol_list c) as [y | ] eqn:Ey;
      [ | apply nth_error_None in Ey; lia].
    rewrite (index_nth _ _ _ Ey). simpl. unfold getitem.
    destruct (lookup y (PhraseStructure.symbols ps)) as [s | ] eqn:Es;
      [ | reflexivity].
    simpl.
    destruct (add_parents_base_row _ c (PhraseStructure.get_parents s) Hc table Hw)
      as [t1 [H1 Hw1]].
    rewrite H1. simpl. apply IH; [exact Hw1 | intros; apply Hcols; right; auto | ].
    destruct Hbad as [c' [x [[<- | Hin] [Hx Hnone]]]].
    + congruence.
    + eauto.
Qed.

(** C8. When some symbol of the sequence is not a key of the grammar's
    symbol table, [fits_grammar] does not return a boolean: the subscript
    [symbols[symbol_list[column]]] raises [KeyError] while the base row is
    being filled. *)
Theorem fits_grammar_unknown_symbol_raises
        (ps : PhraseStructure.t) (symbol_list : list pyval) (x : pyval) :
  In x symbol_list ->
  contains x (PhraseStructure.symbols ps) = false ->
  CYK.fits_grammar ps symbol_list = Raise KeyError.
Proof.
  intros Hin Habsent. unfold CYK.fits_grammar, CYK.fill_base_row.
  rewrite fill_base_row_unknown; [reflexivity | | | ].
  - destruct symbol_list as [ | y l]; [contradiction | ].
    unfold CYK.generate_cyk_table. simpl.
    eexists. eexists. split; [reflexivity | ].
    simpl. rewrite repeat_length. reflexivity.
  - intros c Hc. apply in_seq in Hc. lia.
  - apply In_nth_error in Hin. destruct Hin as [c Hc].
    exists c, x. split; [ | split; [exact Hc | ]].
    + apply in_seq. assert ((c < length symbol_list)%nat)
        by (apply nth_error_Some; congruence). lia.
    + unfold contains in Habsent.
      destruct (lookup x (PhraseStructure.symbols ps)); [discriminate | reflexivity].
Qed.

Lemma fits_grammar_unknown_symbol_raises_witness :
  CYK.fits_grammar ab_phrase_structure [PStr "a"; PStr "c"] = Raise KeyError.
Proof.
  apply (fits_grammar_unknown_symbol_raises ab_phrase_structure
           [PStr "a"; PStr "c"] (PStr "c")).
  - simpl. auto.
  - reflexivity.
Defined.

(** C7. On the empty sequence the table has no row, and [fits_grammar]
    raises [IndexError] at [self.cyk_table[-1][0]] whatever the grammar. *)
Theorem fits_grammar_empty_raises (ps : PhraseStructure.t) :
  CYK.fits_grammar ps [] = Raise IndexError.
Proof. reflexivity. Qed.

(** On sequences of symbols of the grammar the recognizer answers. *)
Example fits_grammar_ab :
  CYK.fits_grammar ab_phrase_structure [PStr "a"; PStr "b"] = Ok true /\
  CYK.fits_grammar ab_phrase_structure [PStr "b"; PStr "a"] = Ok false.
Proof. split; reflexivity. Qed.

(** ** What the conversion steps leave in place *)

Section Evolution.
Variable keep : list pyval -> Prop.

Lemma evolves_refl (g : BNF.t) : evolves keep g g.
Proof.
  unfold evolves. repeat split; try lia; auto.
  intros k s _ H. exists s. auto.
Qed.

Lemma evolves_trans (g1 g2 g3 : BNF.t) :
  evolves keep g1 g2 -> evolves keep g2 g3 -> evolves keep g1 g3.
Proof.
  intros [Hc1 [Hs1 [Hk1 Hl1]]] [Hc2 [Hs2 [Hk2 Hl2]]].
  unfold evolves. repeat split; try lia.
  - intros z Hz. destruct (Hk2 z Hz) as [H | H]; [ | lia].
    destruct (Hk1 z H) as [H' | H']; [auto | lia].
  - intros k s Hst Hk. destruct (Hl1 k s Hst Hk) as [s2 [H2 [Ht2 Hr2]]].
    destruct (Hl2 k s2) as [s3 [H3 [Ht3 Hr3]]]; [ | exact H2 | ].
    + intros z Hz. specialize (Hst z Hz). lia.
    + exists s3. repeat split; [exact H3 | congruence | auto].
Qed.

(** A method call on a stored record. *)
Lemma evolves_do_on_symbol (k : pyval) (method : BNF_Symbol.t -> Z * BNF_Symbol.t)
      (g g' : BNF.t) :
  gentle keep method -> BNF.do_on_symbol k method g = Ok g' -> evolves keep g g'.
Proof.
  intros Hm H. apply do_on_symbol_inv in H. destruct H as [s [Hs ->]].
  unfold evolves. simpl. repeat split; try lia.
  - intros z Hz. left. rewrite contains_setitem in Hz.
    apply orb_true_iff in Hz. destruct Hz as [Hz | Hz]; [ | exact Hz].
    apply pyval_eqb_eq in Hz. subst k. apply contains_lookup. eauto.
  - intros k0 s0 _ Hk0. destruct (Py.eqb k0 k) eqn:E.
    + apply pyval_eqb_eq in E. subst k0. rewrite lookup_setitem_same.
      assert (s0 = s) by congruence. subst s0.
      exists (snd (method s)). destruct (Hm s) as [Ht Hr]. auto.
    + apply pyval_eqb_neq in E. rewrite lookup_setitem_other by exact E.
      exists s0. auto.
Qed.

(** Declaring the integer [z], taken from a range one of the counters has
    swept since [g0]. *)
Lemma evolves_add_symbol (g0 g : BNF.t) (z : Z) (terminal : bool) :
  evolves keep g0 g ->
  BNF.current_term_replacement g < z <= BNF.current_term_replacement g0 \/
  BNF.start_symbol g0 < z <= BNF.start_symbol g ->
  evolves keep g0 (snd (BNF.add_symbol g (PInt z) terminal)).
Proof.
  intros [Hc [Hs [Hk Hl]]] Hz. unfold BNF.add_symbol.
  destruct (contains (PInt z) (BNF.symbols g)) eqn:E; simpl;
    [unfold evolves; auto | ].
  unfold evolves. simpl. repeat split; try lia.
  - intros z' Hz'. rewrite contains_setitem in Hz'.
    apply orb_true_iff in Hz'. destruct Hz' as [Hz' | Hz']; [ | auto].
    apply pyval_eqb_eq in Hz'. injection Hz' as ->. tauto.
  - intros k s Hst Hk0. destruct (Hl k s Hst Hk0) as [s' [Hs' Hrest]].
    exists s'. split; [ | exact Hrest].
    rewrite lookup_setitem_other; [exact Hs' | ].
    intro; subst k. unfold contains in E. rewrite Hs' in E. discriminate.
Qed.

(** Storing a fresh record under the next replacement id. *)
Lemma evolves_replacement (g0 g : BNF.t) (s : BNF_Symbol.t) :
  evolves keep g0 g ->
  evolves keep g0
    (BNF.set_symbols
       (BNF.set_current_term_replacement g (BNF.current_term_replacement g - 1))
       (setitem (PInt (BNF.current_term_replacement g)) s (BNF.symbols g))).
Proof.
  intros [Hc [Hs [Hk Hl]]]. unfold evolves. simpl. repeat split; try lia.
  - intros z Hz. rewrite contains_setitem in Hz.
    apply orb_true_iff in Hz. destruct Hz as [Hz | Hz].
    + apply pyval_eqb_eq in Hz. injection Hz as ->. right. left. lia.
    + destruct (Hk z Hz) as [H | H]; [auto | right; lia].
  - intros k s0 Hst Hk0. destruct (Hl k s0 Hst Hk0) as [s' [Hs' Hrest]].
    exists s'. split; [ | exact Hrest].
    rewrite lookup_setitem_other; [exact Hs' | ].
    intro; subst k. specialize (Hst _ eq_refl). lia.
Qed.

Lemma evolves_counters (g0 g : BNF.t) (c s : Z) :
  evolves keep g0 g ->
  c <= BNF.current_term_replacement g -> BNF.start_symbol g <= s ->
  evolves keep g0
    (BNF.set_start_symbol (BNF.set_current_term_replacement g c) s).
Proof.
  intros [Hc [Hs [Hk Hl]]] Hc' Hs'. unfold evolves. simpl.
  repeat split; try lia; auto.
  intros z Hz. destruct (Hk z Hz) as [H | H]; [auto | right; lia].
Qed.

(** *** Gentle methods *)

Lemma gentle_add_rule (r : list pyval) :
  gentle keep (fun s => BNF_Symbol.add_rule s r).
Proof.
  intro s. unfold BNF_Symbol.add_rule.
  destruct (BNF_Symbol.is_terminal s) eqn:E; simpl; split; auto.
  intros r' _ H. apply (set_add_In tuple_eqb tuple_eqb_eq). auto.
Qed.

Lemma gentle_remove_rule (r : list pyval) :
  ~ keep r -> gentle keep (fun s => BNF_Symbol.remove_rule s r).
Proof.
  intros Hr s. unfold BNF_Symbol.remove_rule.
  destruct (negb (set_mem tuple_eqb r (BNF_Symbol.rules s))); simpl; split; auto.
  intros r' Hk H. apply (set_remove_In tuple_eqb tuple_eqb_eq).
  split; [exact H | ]. intro; subst. contradiction.
Qed.

Lemma gentle_add_parent (p : pyval) :
  gentle keep (fun s => BNF_Symbol.add_parent s p).
Proof. intro s. simpl. auto. Qed.

Lemma gentle_remove_parent (p : pyval) :
  gentle keep (fun s => BNF_Symbol.remove_parent s p).
Proof.
  intro s. unfold BNF_Symbol.remove_parent.
  destruct (negb (set_mem Py.eqb p (BNF_Symbol.parents s))); simpl; auto.
Qed.

(** *** The public [add_rule] and the START step *)

Lemma evolves_add_rule (g g' : BNF.t) (p : pyval) (r : list pyval) (code : Z) :
  BNF.add_rule g p r = Ok (code, g') -> evolves keep g g'.
Proof.
  unfold BNF.add_rule. intro H.
  destruct (negb (contains p (BNF.symbols g)));
    [injection H as _ <-; apply evolves_refl | ].
  bind_inv H. destruct (BNF_Symbol.is_terminal a);
    [injection H as _ <-; apply evolves_refl | ].
  destruct (BNF.has_unknown_member g r);
    [injection H as _ <-; apply evolves_refl | ].
  bind_inv H. bind_inv H. injection H as _ <-.
  apply evolves_trans with a0.
  - eapply evolves_do_on_symbol; [apply gentle_add_rule | exact H_call0].
  - revert H_call1. apply for_each_inv; [ | apply evolves_refl].
    intros x st st' _ Hst Hx. apply evolves_trans with st; [exact Hst | ].
    eapply evolves_do_on_symbol; [apply gentle_add_parent | exact Hx].
Qed.

Lemma evolves_conversion_start (g g' : BNF.t) :
  BNF.conversion_start g = Ok g' -> evolves keep g g'.
Proof.
  unfold BNF.conversion_start. intro H.
  destruct (BNF.does_start_occur_on_right g);
    [ | injection H as <-; apply evolves_refl].
  set (g1 := BNF.set_start_symbol g (BNF.start_symbol g + 1)) in *.
  assert (H1 : evolves keep g g1).
  { unfold evolves, g1. simpl. repeat split; try lia; auto.
    intros k s _ Hk. exists s. auto. }
  pose proof (evolves_add_symbol g g1 (BNF.start_symbol g1) false H1) as H2.
  destruct (BNF.add_intermediate_symbol g1 (PInt (BNF.start_symbol g1)))
    as [c g2] eqn:E2.
  unfold BNF.add_intermediate_symbol in E2. rewrite E2 in H2. simpl in H2.
  bind_inv H. destruct a as [c3 g3]. injection H as <-.
  apply evolves_trans with g2.
  - apply H2. right. unfold g1. simpl. lia.
  - eapply evolves_add_rule. exact H_call.
Qed.

(** *** TERM *)

Hypothesis keep_not_unit : forall r, keep r -> length r <> 1%nat.

Lemma evolves_conversion_term_replacer (g g' : BNF.t) (item : pyval) (rid : Z) :
  BNF.conversion_term_replacer g item = Ok (rid, g') -> evolves keep g g'.
Proof.
  unfold BNF.conversion_term_replacer. intro H.
  bind_inv H. bind_inv H. injection H as _ <-.
  eapply evolves_trans; [ | eapply evolves_do_on_symbol;
                            [apply gentle_add_parent | exact H_call0]].
  eapply evolves_trans; [ | eapply evolves_do_on_symbol;
                            [apply gentle_add_rule | exact H_call]].
  apply (evolves_replacement g g). apply evolves_refl.
Qed.

Lemma evolves_determinalizer (g g' : BNF.t) (parent : pyval) (rule : list pyval) :
  BNF.conversion_term_product_determinalizer g parent rule = Ok g' ->
  evolves keep g g'.
Proof.
  unfold BNF.conversion_term_product_determinalizer. intro H.
  bind_inv H. destruct a as [replaced g1].
  assert (H1 : evolves keep g g1).
  { revert H_call.
    apply (for_each_inv (fun st : bool * BNF.t => evolves keep g (snd st)));
      [ | apply evolves_refl].
    intros item [rep st] [rep' st'] _ Hst Hbody. simpl in *.
    bind_inv Hbody. destruct (BNF_Symbol.is_terminal a).
    - bind_inv Hbody. destruct a0 as [rid st1]. injection Hbody as _ <-.
      eapply evolves_trans; [exact Hst | ].
      eapply evolves_conversion_term_replacer. exact Hbody_call0.
    - injection Hbody as _ <-. exact Hst. }
  destruct replaced; [ | injection H as <-; exact H1].
  eapply evolves_trans; [exact H1 | ].
  eapply evolves_do_on_symbol; [ | exact H].
  apply gentle_remove_rule. intro Hk. apply keep_not_unit in Hk.
  apply Hk. reflexivity.
Qed.

Lemma evolves_conversion_term (g g' : BNF.t) :
  BNF.conversion_term g = Ok g' -> evolves keep g g'.
Proof.
  unfold BNF.conversion_term.
  apply for_each_inv; [ | apply evolves_refl].
  intros symbol st st' _ Hst H. bind_inv H. revert H.
  apply for_each_inv; [ | exact Hst].
  intros rule st1 st1' _ Hst1 H. bind_inv H.
  destruct a0; [ | injection H as <-; exact Hst1].
  eapply evolves_trans; [exact Hst1 | ].
  eapply evolves_determinalizer. exact H.
Qed.

(** *** BIN *)

Hypothesis keep_short : forall r, keep r -> (length r <= 2)%nat.

Lemma evolves_conversion_bin_splitter (g g' : BNF.t) (parent : pyval)
      (rule : list pyval) (replacements : list (pyval * pyval * pyval)) :
  BNF.conversion_bin_splitter g parent rule = Ok (replacements, g') ->
  evolves keep g g'.
Proof.
  unfold BNF.conversion_bin_splitter.
  match goal with
  | |- context [fold_left ?f _ ?s] => set (body := f); set (start := s)
  end.
  assert (Hloop :
            let '(_, _, rid, st) := fold_left body (all_but_last_two rule) start in
            evolves keep g st /\
            BNF.current_term_replacement st < rid <= BNF.current_term_replacement g).
  { apply (fold_left_inv
             (fun acc : list (pyval * pyval * pyval) * pyval * Z * BNF.t =>
                let '(_, _, rid, st) := acc in
                evolves keep g st /\
                BNF.current_term_replacement st < rid
                <= BNF.current_term_replacement g)).
    - intros item [[[reps prev] rid] st] _ [Hst Hrid]. unfold body.
      pose proof (evolves_add_symbol g st rid false Hst (or_introl Hrid)) as Hadd.
      assert (Hctr : BNF.current_term_replacement
                       (snd (BNF.add_symbol st (PInt rid) false))
                     = BNF.current_term_replacement st).
      { unfold BNF.add_symbol.
        destruct (contains (PInt rid) (BNF.symbols st)); reflexivity. }
      destruct (BNF.add_symbol st (PInt rid) false) as [c st1]. simpl in *.
      split; [ | lia].
      destruct Hadd as [Hc [Hs [Hk Hl]]].
      unfold evolves. simpl. repeat split; try lia; auto.
      intros z Hz. destruct (Hk z Hz) as [H | H]; [auto | right; lia].
    - unfold start. split; [ | simpl; lia].
      unfold evolves. simpl. repeat split; try lia; auto.
      intros k s _ Hk. exists s. auto. }
  destruct (fold_left body (all_but_last_two rule) start)
    as [[[reps prev] rid] st].
  destruct Hloop as [Hst _]. intro H.
  bind_inv H. bind_inv H. injection H as _ <-. exact Hst.
Qed.

Lemma evolves_conversion_bin (g g' : BNF.t) :
  BNF.conversion_bin g = Ok g' -> evolves keep g g'.
Proof.
  unfold BNF.conversion_bin.
  apply for_each_inv; [ | apply evolves_refl].
  intros symbol st st' _ Hst H. bind_inv H. revert H.
  apply for_each_inv; [ | exact Hst].
  intros rule st1 st1' _ Hst1 H.
  destruct (BNF.is_bin_applicable rule) eqn:Ebin;
    [ | injection H as <-; exact Hst1].
  bind_inv H. destruct a0 as [replacements st2].
  bind_inv H. bind_inv H.
  apply evolves_trans with a1.
  - apply evolves_trans with a0.
    + apply evolves_trans with st2.
      * eapply evolves_trans; [exact Hst1 | ].
        eapply evolves_conversion_bin_splitter. exact H_call0.
      * revert H_call1. apply for_each_inv; [ | apply evolves_refl].
        intros [[parent symbol1] symbol2] b b' _ Hb Hbody.
        bind_inv Hbody. bind_inv Hbody.
        eapply evolves_trans; [exact Hb | ].
        eapply evolves_trans;
          [eapply evolves_do_on_symbol; [apply gentle_add_rule | exact Hbody_call] | ].
        eapply evolves_trans;
          [eapply evolves_do_on_symbol; [apply gentle_add_parent | exact Hbody_call0] | ].
        eapply evolves_do_on_symbol; [apply gentle_add_parent | exact Hbody].
    + eapply evolves_do_on_symbol; [ | exact H_call2].
      apply gentle_remove_rule. intro Hk. apply keep_short in Hk.
      unfold BNF.is_bin_applicable in Ebin. apply Nat.ltb_lt in Ebin. lia.
  - revert H. apply for_each_inv; [ | apply evolves_refl].
    intros item b b' _ Hb Hbody. bind_inv Hbody.
    destruct a2; [ | injection Hbody as <-; exact Hb].
    eapply evolves_trans; [exact Hb | ].
    eapply evolves_do_on_symbol; [apply gentle_remove_parent | exact Hbody].
Qed.

(** *** UNIT *)

Lemma evolves_conversion_unit_collect (g g' : BNF.t)
      (products : list (pyval * pyval)) :
  BNF.conversion_unit_collect g = Ok (products, g') -> evolves keep g g'.
Proof.
  unfold BNF.conversion_unit_collect. intro H.
  change g' with (snd (products, g')). revert H.
  apply (for_each_inv (fun acc : list (pyval * pyval) * BNF.t =>
                         evolves keep g (snd acc)));
    [ | apply evolves_refl].
  intros symbol [ps st] acc' _ Hst H. bind_inv H. revert H.
  apply (for_each_inv (fun acc : list (pyval * pyval) * BNF.t =>
                         evolves keep g (snd acc)));
    [ | exact Hst].
  intros rule [ps1 st1] acc1 _ Hst1 H. simpl in Hst1.
  destruct rule as [ | rule0 [ | rule1 rest]];
    try (injection H as <-; exact Hst1).
  bind_inv H. destruct (negb (BNF_Symbol.is_terminal a0));
    [ | injection H as <-; exact Hst1].
  bind_inv H. injection H as <-. simpl.
  eapply evolves_trans; [exact Hst1 | ].
  revert H_call1. apply for_each_inv; [ | apply evolves_refl].
  intros subrule b b' _ Hb Hbody.
  eapply evolves_trans; [exact Hb | ].
  eapply evolves_do_on_symbol; [apply gentle_add_rule | exact Hbody].
Qed.

Lemma evolves_conversion_unit (g g' : BNF.t) :
  BNF.conversion_unit g = Ok g' -> evolves keep g g'.
Proof.
  unfold BNF.conversion_unit. intro H. bind_inv H.
  destruct a as [products g1].
  apply evolves_trans with g1;
    [eapply evolves_conversion_unit_collect; exact H_call | ].
  revert H. apply for_each_inv; [ | apply evolves_refl].
  intros [parent product] st st' _ Hst H. bind_inv H. bind_inv H.
  eapply evolves_trans; [exact Hst | ].
  apply evolves_trans with a.
  - eapply evolves_do_on_symbol; [ | exact H_call0].
    apply gentle_remove_rule. intro Hk. apply keep_not_unit in Hk.
    apply Hk. reflexivity.
  - destruct a0; [ | injection H as <-; apply evolves_refl].
    eapply evolves_do_on_symbol; [apply gentle_remove_parent | exact H].
Qed.

(** *** One pass of the loop *)

Lemma evolves_conversion_pass (g g' : BNF.t) :
  BNF.conversion_pass g = Ok g' -> evolves keep g g'.
Proof.
  unfold BNF.conversion_pass, BNF.conversion_del. intro H.
  bind_inv H. bind_inv H. bind_inv H. bind_inv H.
  injection H_call2 as <-.
  eapply evolves_trans; [eapply evolves_conversion_start; exact H_call | ].
  eapply evolves_trans; [eapply evolves_conversion_term; exact H_call0 | ].
  eapply evolves_trans; [eapply evolves_conversion_bin; exact H_call1 | ].
  eapply evolves_conversion_unit; exact H.
Qed.
End Evolution.

(** ** Rules that no step repairs *)

Lemma arity_two_not_unit (r : list pyval) : arity_two r -> length r <> 1%nat.
Proof. unfold arity_two. lia. Qed.

Lemma arity_two_short (r : list pyval) : arity_two r -> (length r <= 2)%nat.
Proof. unfold arity_two. lia. Qed.

Lemma not_unit_not_unit (r : list pyval) : not_unit r -> length r <> 1%nat.
Proof. auto. Qed.

Lemma evolves_kind (keep : list pyval -> Prop) (g g' : BNF.t) (k : pyval) :
  evolves keep g g' -> stable_key g k ->
  contains k (BNF.symbols g) = true ->
  is_terminal_in g' k = is_terminal_in g k /\
  is_nonterminal_in g' k = is_nonterminal_in g k.
Proof.
  intros [_ [_ [_ Hl]]] Hst Hk. apply contains_lookup in Hk.
  destruct Hk as [s Hs]. destruct (Hl k s Hst Hs) as [s' [Hs' [Ht _]]].
  unfold is_terminal_in, is_nonterminal_in. rewrite Hs, Hs', Ht. auto.
Qed.

Lemma evolves_has_rule (keep : list pyval -> Prop) (g g' : BNF.t)
      (p : pyval) (r : list pyval) :
  evolves keep g g' -> stable_key g p -> keep r ->
  has_rule g p r -> has_rule g' p r.
Proof.
  intros [_ [_ [_ Hl]]] Hst Hk [s [Hs Hr]].
  destruct (Hl p s Hst Hs) as [s' [Hs' [_ Hrules]]].
  exists s'. auto.
Qed.

Lemma evolves_stable_key (keep : list pyval -> Prop) (g g' : BNF.t) (k : pyval) :
  evolves keep g g' -> stable_key g k -> stable_key g' k.
Proof.
  intros [Hc _] Hst z Hz. specialize (Hst z Hz). lia.
Qed.

Lemma kind_declared (g : BNF.t) (k : pyval) :
  is_terminal_in g k = true \/ is_nonterminal_in g k = true ->
  contains k (BNF.symbols g) = true.
Proof.
  unfold is_terminal_in, is_nonterminal_in, contains.
  destruct (lookup k (BNF.symbols g)); [reflexivity | intros [H | H]; discriminate].
Qed.

Lemma stuck_evolves (g g' : BNF.t) : stuck g -> evolves arity_two g g' -> stuck g'.
Proof.
  intros [p [a [b [Hp [Ha [Hb [Hrule Hkind]]]]]]] Hev.
  exists p, a, b.
  repeat split; try (eapply evolves_stable_key; eassumption).
  - eapply evolves_has_rule; try eassumption. reflexivity.
  - destruct Hkind as [Hta | [Hna Htb]].
    + left. destruct (evolves_kind _ _ _ a Hev Ha) as [-> _]; auto.
      apply kind_declared. auto.
    + right. destruct (evolves_kind _ _ _ a Hev Ha) as [_ ->];
        [apply kind_declared; auto | ].
      destruct (evolves_kind _ _ _ b Hev Hb) as [-> _];
        [apply kind_declared; auto | ].
      auto.
Qed.

Lemma stuck_conversion_pass (g g' : BNF.t) :
  stuck g -> BNF.conversion_pass g = Ok g' -> stuck g'.
Proof.
  intros Hs H. apply (stuck_evolves g g' Hs).
  apply (evolves_conversion_pass arity_two arity_two_not_unit arity_two_short).
  exact H.
Qed.

Lemma stuck_not_cnf (g : BNF.t) : stuck g -> BNF.check_if_cnf g <> Ok true.
Proof.
  intros [p [a [b [_ [_ [_ [[s [Hs Hr]] Hkind]]]]]]] Hcnf.
  unfold BNF.check_if_cnf in Hcnf.
  pose proof (all_pass_true _ _ Hcnf s (lookup_In_values _ _ _ Hs)) as Hrules.
  pose proof (all_pass_true _ _ Hrules [a; b] Hr) as Hrule.
  unfold BNF.check_rule, getitem, is_terminal_in, is_nonterminal_in in *.
  destruct (lookup a (BNF.symbols g)) as [sa | ]; [ | discriminate].
  simpl in Hrule. destruct (BNF_Symbol.is_terminal sa).
  - discriminate.
  - destruct Hkind as [H | [_ H]]; [discriminate | ].
    destruct (lookup b (BNF.symbols g)) as [sb | ]; [ | discriminate].
    simpl in Hrule. rewrite H in Hrule. discriminate.
Qed.

Lemma stuck_mixed_grammar : stuck (grammar_of mixed_ops).
Proof.
  exists (PInt 0), (PStr "A"), (PStr "b").
  repeat split; try (intros z Hz; discriminate).
  - intros z Hz. injection Hz as <-. reflexivity.
  - eexists. split; [reflexivity | simpl; auto].
  - right. split; reflexivity.
Qed.

(** ** The conversion steps never raise *)

Lemma for_each_total {A S : Type} (P : S -> Prop) (xs : list A)
      (body : A -> S -> result S) :
  (forall x st, In x xs -> P st -> exists st', body x st = Ok st' /\ P st') ->
  forall st, P st -> exists st', for_each xs body st = Ok st' /\ P st'.
Proof.
  induction xs as [ | x xs IH]; simpl; intros Hbody st HP.
  - eauto.
  - destruct (Hbody x st (or_introl eq_refl) HP) as [st1 [H1 HP1]].
    rewrite H1. simpl. apply IH; [ | exact HP1].
    intros y s Hy. apply Hbody. right. exact Hy.
Qed.

Lemma all_pass_total {A : Type} (xs : list A) (check : A -> result bool) :
  (forall x, In x xs -> exists b, check x = Ok b) ->
  exists b, all_pass xs check = Ok b.
Proof.
  induction xs as [ | x xs IH]; simpl; intro H; [eauto | ].
  destruct (H x (or_introl eq_refl)) as [b Hb]. rewrite Hb. simpl.
  destruct b; [apply IH; intros; apply H; auto | eauto].
Qed.

Lemma set_add_In_weak {A : Type} (eq : A -> A -> bool) (x y : A) (s : list A) :
  In y (set_add eq x s) -> y = x \/ In y s.
Proof.
  unfold set_add. destruct (set_mem eq x s); [auto | ].
  intro H. apply in_app_or in H. destruct H as [H | [H | []]]; auto.
Qed.

Lemma in_keys_contains {V : Type} (k : pyval) (d : dict V) :
  In k (keys d) -> contains k d = true.
Proof.
  unfold contains. induction d as [ | [k' v] d IH]; simpl; [contradiction | ].
  intros [<- | H].
  - rewrite pyval_eqb_refl. reflexivity.
  - destruct (Py.eqb k k'); [reflexivity | apply IH; exact H].
Qed.

Lemma in_setitem {V : Type} (k k0 : pyval) (v v0 : V) (d : dict V) :
  In (k0, v0) (setitem k v d) -> v0 = v \/ In (k0, v0) d.
Proof.
  induction d as [ | [k' v'] d IH]; simpl.
  - intros [H | []]. injection H as _ <-. auto.
  - destruct (Py.eqb k k'); simpl.
    + intros [H | H]; [injection H as _ <-; auto | auto].
    + intros [H | H]; [auto | ]. destruct (IH H); auto.
Qed.

Lemma keeps_keys_refl (g : BNF.t) : keeps_keys g g.
Proof. intros k H. exact H. Qed.

Lemma keeps_keys_trans (g1 g2 g3 : BNF.t) :
  keeps_keys g1 g2 -> keeps_keys g2 g3 -> keeps_keys g1 g3.
Proof. intros H1 H2 k H. apply H2, H1, H. Qed.

Lemma sound_from_refl (g : BNF.t) : members_declared g -> sound_from g g.
Proof. intro H. split; [exact H | apply keeps_keys_refl]. Qed.

Lemma sound_from_trans (g1 g2 g3 : BNF.t) :
  keeps_keys g1 g2 -> sound_from g2 g3 -> sound_from g1 g3.
Proof.
  intros H1 [Hd H2]. split; [exact Hd | eapply keeps_keys_trans; eassumption].
Qed.

Lemma declared_in_keeps (g g' : BNF.t) (r : list pyval) :
  keeps_keys g g' -> declared_in g r -> declared_in g' r.
Proof. intros Hk Hr m Hm. apply Hk, Hr, Hm. Qed.

(** A method call on a declared symbol. *)
Lemma do_on_symbol_sound (k : pyval) (method : BNF_Symbol.t -> Z * BNF_Symbol.t)
      (extra : list (list pyval)) (g : BNF.t) :
  members_declared g ->
  contains k (BNF.symbols g) = true ->
  adds_only extra method ->
  (forall r, In r extra -> declared_in g r) ->
  exists g', BNF.do_on_symbol k method g = Ok g' /\ sound_from g g'.
Proof.
  intros Hwf Hk Hm Hextra. apply contains_lookup in Hk. destruct Hk as [s Hs].
  rewrite (do_on_symbol_eq _ _ _ _ Hs). eexists. split; [reflexivity | ].
  assert (Hkeys : keeps_keys g
            (BNF.set_symbols g (setitem k (snd (method s)) (BNF.symbols g)))).
  { intros k' Hk'. simpl. rewrite contains_setitem, Hk'. apply orb_true_r. }
  split; [ | exact Hkeys].
  intros k0 s0 r Hk0 Hr. simpl in Hk0. apply (declared_in_keeps g); [exact Hkeys | ].
  apply in_setitem in Hk0. destruct Hk0 as [-> | Hk0].
  - destruct (Hm s r Hr) as [H | H].
    + exact (Hwf k s r (lookup_In _ _ _ Hs) H).
    + apply Hextra. exact H.
  - exact (Hwf k0 s0 r Hk0 Hr).
Qed.

Lemma adds_only_add_rule (r : list pyval) :
  adds_only [r] (fun s => BNF_Symbol.add_rule s r).
Proof.
  intros s r'. unfold BNF_Symbol.add_rule.
  destruct (BNF_Symbol.is_terminal s); simpl; [auto | ].
  intro H. apply set_add_In_weak in H. destruct H as [-> | H]; simpl; auto.
Qed.

Lemma adds_only_remove_rule (r : list pyval) :
  adds_only [] (fun s => BNF_Symbol.remove_rule s r).
Proof.
  intros s r'. unfold BNF_Symbol.remove_rule.
  destruct (negb (set_mem tuple_eqb r (BNF_Symbol.rules s))); simpl; [auto | ].
  unfold set_remove. intro H. apply filter_In in H. tauto.
Qed.

Lemma adds_only_add_parent (p : pyval) :
  adds_only [] (fun s => BNF_Symbol.add_parent s p).
Proof. intros s r. simpl. auto. Qed.

Lemma adds_only_remove_parent (p : pyval) :
  adds_only [] (fun s => BNF_Symbol.remove_parent s p).
Proof.
  intros s r. unfold BNF_Symbol.remove_parent.
  destruct (negb (set_mem Py.eqb p (BNF_Symbol.parents s))); simpl; auto.
Qed.

(** Discharges the side conditions of [do_on_symbol_sound]. *)
Ltac sound_call :=
  match goal with
  | |- exists g', BNF.do_on_symbol _ (fun s => BNF_Symbol.add_rule s ?r) _ = Ok g' /\ _ =>
      apply (do_on_symbol_sound _ _ [r]);
      [ | | apply adds_only_add_rule | intros ? [<- | []] ]
  | |- exists g', BNF.do_on_symbol _ (fun s => BNF_Symbol.remove_rule s ?r) _ = Ok g' /\ _ =>
      apply (do_on_symbol_sound _ _ []);
      [ | | apply adds_only_remove_rule | intros ? [] ]
  | |- exists g', BNF.do_on_symbol _ (fun s => BNF_Symbol.add_parent s ?p) _ = Ok g' /\ _ =>
      apply (do_on_symbol_sound _ _ []);
      [ | | apply adds_only_add_parent | intros ? [] ]
  | |- exists g', BNF.do_on_symbol _ (fun s => BNF_Symbol.remove_parent s ?p) _ = Ok g' /\ _ =>
      apply (do_on_symbol_sound _ _ []);
      [ | | apply adds_only_remove_parent | intros ? [] ]
  end.

(** Storing a record without rules under any key. *)
Lemma setitem_sound (g g' : BNF.t) (k : pyval) (s : BNF_Symbol.t) :
  members_declared g ->
  BNF.symbols g' = setitem k s (BNF.symbols g) ->
  BNF_Symbol.rules s = [] ->
  sound_from g g' /\ contains k (BNF.symbols g') = true.
Proof.
  intros Hwf Hsym Hrules.
  assert (Hkeys : keeps_keys g g').
  { intros k' Hk'. rewrite Hsym, contains_setitem, Hk'. apply orb_true_r. }
  split; [split; [ | exact Hkeys] | ].
  - intros k0 s0 r Hk0 Hr. apply (declared_in_keeps g); [exact Hkeys | ].
    rewrite Hsym in Hk0. apply in_setitem in Hk0. destruct Hk0 as [-> | Hk0].
    + rewrite Hrules in Hr. contradiction.
    + exact (Hwf k0 s0 r Hk0 Hr).
  - rewrite Hsym, contains_setitem, pyval_eqb_refl. reflexivity.
Qed.

Lemma add_symbol_sound (g : BNF.t) (k : pyval) (terminal : bool) :
  members_declared g ->
  sound_from g (snd (BNF.add_symbol g k terminal)) /\
  contains k (BNF.symbols (snd (BNF.add_symbol g k terminal))) = true.
Proof.
  intro Hwf. unfold BNF.add_symbol.
  destruct (contains k (BNF.symbols g)) eqn:E; simpl.
  - split; [apply sound_from_refl; exact Hwf | exact E].
  - exact (setitem_sound g
             (BNF.set_symbols g
                (setitem k (BNF_Symbol.init k terminal) (BNF.symbols g)))
             k (BNF_Symbol.init k terminal) Hwf eq_refl eq_refl).
Qed.

Lemma same_symbols_sound (g g' : BNF.t) :
  BNF.symbols g' = BNF.symbols g -> members_declared g -> sound_from g g'.
Proof.
  intros Hsym Hwf. split.
  - intros k s r Hk Hr m Hm. rewrite Hsym in *. exact (Hwf k s r Hk Hr m Hm).
  - intros k Hk. rewrite Hsym. exact Hk.
Qed.

(** *** [add_rule] and START *)

Lemma add_rule_sound (g : BNF.t) (p : pyval) (r : list pyval) :
  members_declared g ->
  exists code g', BNF.add_rule g p r = Ok (code, g') /\ sound_from g g'.
Proof.
  intro Hwf. unfold BNF.add_rule.
  destruct (contains p (BNF.symbols g)) eqn:Ep; simpl;
    [ | exists (-3), g; split; [reflexivity | apply sound_from_refl; exact Hwf]].
  destruct (proj1 (contains_lookup _ _) Ep) as [sp Hsp].
  unfold getitem. rewrite Hsp. simpl.
  destruct (BNF_Symbol.is_terminal sp);
    [exists (-1), g; split; [reflexivity | apply sound_from_refl; exact Hwf] | ].
  destruct (BNF.has_unknown_member g r) eqn:Er;
    [exists (-2), g; split; [reflexivity | apply sound_from_refl; exact Hwf] | ].
  pose proof (has_unknown_member_false g r Er) as Hr.
  assert (H1 : exists g1, BNF.do_on_symbol p (fun s => BNF_Symbol.add_rule s r) g
                          = Ok g1 /\ sound_from g g1).
  { sound_call; assumption. }
  destruct H1 as [g1 [H1 [Hwf1 Hk1]]]. rewrite H1. simpl.
  destruct (for_each_total (sound_from g1) r
              (fun symbol st =>
                 BNF.do_on_symbol symbol
                   (fun s => BNF_Symbol.add_parent s p) st)) with (st := g1)
    as [g2 [H2 [Hwf2 Hk2]]].
  - intros m st Hm [Hwfst Hkst].
    assert (H : exists st', BNF.do_on_symbol m (fun s => BNF_Symbol.add_parent s p) st
                            = Ok st' /\ sound_from st st').
    { sound_call; [exact Hwfst | apply Hkst, Hk1, Hr, Hm]. }
    destruct H as [st' [H Hs]]. exists st'. split; [exact H | ].
    eapply sound_from_trans; eassumption.
  - apply sound_from_refl. exact Hwf1.
  - rewrite H2. simpl. exists 0, g2. split; [reflexivity | ].
    split; [exact Hwf2 | eapply keeps_keys_trans; eassumption].
Qed.

Lemma conversion_start_sound (g : BNF.t) :
  members_declared g ->
  exists g', BNF.conversion_start g = Ok g' /\ sound_from g g'.
Proof.
  intro Hwf. unfold BNF.conversion_start.
  destruct (BNF.does_start_occur_on_right g);
    [ | exists g; split; [reflexivity | apply sound_from_refl; exact Hwf]].
  set (g1 := BNF.set_start_symbol g (BNF.start_symbol g + 1)).
  assert (H1 : sound_from g g1)
    by (apply same_symbols_sound; [reflexivity | exact Hwf]).
  destruct H1 as [Hwf1 Hk1].
  destruct (add_symbol_sound g1 (PInt (BNF.start_symbol g1)) false Hwf1)
    as [[Hwf2 Hk2] _].
  unfold BNF.add_intermediate_symbol.
  destruct (BNF.add_symbol g1 (PInt (BNF.start_symbol g1)) false) as [c g2].
  simpl in Hwf2, Hk2.
  destruct (add_rule_sound g2 (PInt (BNF.start_symbol g2))
              [PInt (BNF.start_symbol g2 - 1)] Hwf2) as [code [g3 [H3 [Hwf3 Hk3]]]].
  rewrite H3. simpl. exists g3. split; [reflexivity | ].
  split; [exact Hwf3 | ].
  apply keeps_keys_trans with g2; [ | exact Hk3].
  apply keeps_keys_trans with g1; assumption.
Qed.

(** *** TERM *)

Lemma declared_getitem (g : BNF.t) (k : pyval) :
  contains k (BNF.symbols g) = true ->
  exists s, getitem k (BNF.symbols g) = Ok s /\ lookup k (BNF.symbols g) = Some s.
Proof.
  intro H. apply contains_lookup in H. destruct H as [s Hs].
  exists s. split; [apply getitem_ok | ]; exact Hs.
Qed.

Lemma check_if_conversion_term_necessary_total (g : BNF.t) (rule : list pyval) :
  declared_in g rule ->
  exists b, BNF.check_if_conversion_term_necessary g rule = Ok b.
Proof.
  intro Hrule. unfold BNF.check_if_conversion_term_necessary.
  match goal with
  | |- context [for_each rule ?body ?init] =>
      destruct (for_each_total (fun _ => True) rule body) with (st := init)
        as [[nt tm] [H _]]
  end.
  - intros item [nt tm] Hitem _.
    destruct (declared_getitem g item (Hrule item Hitem)) as [s [Hs _]].
    rewrite Hs. simpl. destruct (BNF_Symbol.is_terminal s); eauto.
  - exact I.
  - rewrite H. simpl. eauto.
Qed.

Lemma conversion_term_replacer_sound (g : BNF.t) (item : pyval) :
  members_declared g -> contains item (BNF.symbols g) = true ->
  exists rid g', BNF.conversion_term_replacer g item = Ok (rid, g') /\
                 sound_from g g'.
Proof.
  intros Hwf Hitem. unfold BNF.conversion_term_replacer.
  match goal with
  | |- context [BNF.do_on_symbol _ _ ?st] => set (g2 := st)
  end.
  destruct (setitem_sound g g2 (PInt (BNF.current_term_replacement g))
              (BNF_Symbol.init (PInt (BNF.current_term_replacement g)) false)
              Hwf eq_refl eq_refl) as [[Hwf2 Hk2] Hc2].
  assert (H3 : exists g3,
             BNF.do_on_symbol (PInt (BNF.current_term_replacement g))
               (fun s => BNF_Symbol.add_rule s [item]) g2 = Ok g3 /\
             sound_from g2 g3).
  { sound_call; [exact Hwf2 | exact Hc2 | ].
    intros m [<- | []]. apply Hk2. exact Hitem. }
  destruct H3 as [g3 [H3 [Hwf3 Hk3]]]. rewrite H3. simpl.
  assert (H4 : exists g4,
             BNF.do_on_symbol item
               (fun s => BNF_Symbol.add_parent s
                           (PInt (BNF.current_term_replacement g))) g3 = Ok g4 /\
             sound_from g3 g4).
  { sound_call; [exact Hwf3 | apply Hk3, Hk2, Hitem]. }
  destruct H4 as [g4 [H4 [Hwf4 Hk4]]]. rewrite H4. simpl.
  eexists. exists g4. split; [reflexivity | ].
  split; [exact Hwf4 | ].
  apply keeps_keys_trans with g3; [ | exact Hk4].
  apply keeps_keys_trans with g2; assumption.
Qed.

Lemma determinalizer_sound (g : BNF.t) (parent : pyval) (rule : list pyval) :
  members_declared g -> declared_in g rule ->
  contains parent (BNF.symbols g) = true ->
  exists g', BNF.conversion_term_product_determinalizer g parent rule = Ok g' /\
             sound_from g g'.
Proof.
  intros Hwf Hrule Hparent. unfold BNF.conversion_term_product_determinalizer.
  match goal with
  | |- context [for_each rule ?body ?init] =>
      destruct (for_each_total (fun acc : bool * BNF.t => sound_from g (snd acc))
                               rule body) with (st := init)
        as [[replaced g1] [H [Hwf1 Hk1]]]
  end.
  - intros item [rep st] Hitem [Hwfst Hkst]. simpl in *.
    destruct (declared_getitem st item (Hkst _ (Hrule item Hitem))) as [s [Hs _]].
    rewrite Hs. simpl. destruct (BNF_Symbol.is_terminal s).
    + destruct (conversion_term_replacer_sound st item Hwfst
                  (Hkst _ (Hrule item Hitem))) as [rid [st' [H' Hs']]].
      rewrite H'. simpl. eexists. split; [reflexivity | ].
      simpl. eapply sound_from_trans; eassumption.
    + eexists. split; [reflexivity | ]. split; assumption.
  - apply sound_from_refl. exact Hwf.
  - rewrite H. simpl in *. destruct replaced.
    + assert (H2 : exists g2,
                 BNF.do_on_symbol parent
                   (fun s => BNF_Symbol.remove_rule s [PTuple rule]) g1 = Ok g2 /\
                 sound_from g1 g2).
      { sound_call; [exact Hwf1 | apply Hk1, Hparent]. }
      destruct H2 as [g2 [H2 Hs2]]. exists g2. split; [exact H2 | ].
      eapply sound_from_trans; eassumption.
    + exists g1. split; [reflexivity | split; assumption].
Qed.

Lemma conversion_term_sound (g : BNF.t) :
  members_declared g ->
  exists g', BNF.conversion_term g = Ok g' /\ sound_from g g'.
Proof.
  intro Hwf. unfold BNF.conversion_term.
  apply (for_each_total (sound_from g)); [ | apply sound_from_refl; exact Hwf].
  intros symbol st Hsym [Hwfst Hkst].
  destruct (declared_getitem st symbol (Hkst _ (in_keys_contains _ _ Hsym)))
    as [s [Hs Hl]].
  rewrite Hs. simpl.
  match goal with
  | |- context [for_each _ ?body st] =>
      destruct (for_each_total (sound_from st) (BNF_Symbol.get_rules s) body)
        with (st := st) as [st' [H' Hs']]
  end.
  - intros rule st1 Hrule [Hwf1 Hk1].
    assert (Hdecl : declared_in st1 rule).
    { apply (declared_in_keeps st); [exact Hk1 | ]. exact (Hwfst symbol s rule (lookup_In _ _ _ Hl) Hrule). }
    destruct (check_if_conversion_term_necessary_total st1 rule Hdecl) as [b Hb].
    rewrite Hb. simpl. destruct b.
    + destruct (determinalizer_sound st1 symbol rule Hwf1 Hdecl) as [st2 [H2 Hs2]].
      { apply Hk1, Hkst. apply in_keys_contains. exact Hsym. }
      exists st2. split; [exact H2 | eapply sound_from_trans; eassumption].
    + exists st1. split; [reflexivity | split; assumption].
  - apply sound_from_refl. exact Hwfst.
  - exists st'. split; [exact H' | eapply sound_from_trans; eassumption].
Qed.

(** *** BIN *)

Lemma index_total {A : Type} (l : list A) (i : Z) :
  - Z.of_nat (length l) <= i < Z.of_nat (length l) ->
  exists x, index l i = Ok x /\ In x l.
Proof.
  intro Hi. unfold index.
  set (j := if i <? 0 then i + Z.of_nat (length l) else i).
  assert (Hj : 0 <= j < Z.of_nat (length l)).
  { unfold j. destruct (i <? 0) eqn:E;
      [apply Z.ltb_lt in E | apply Z.ltb_ge in E]; lia. }
  destruct (j <? 0) eqn:E1; [apply Z.ltb_lt in E1; lia | ].
  destruct (Z.of_nat (length l) <=? j) eqn:E2; [apply Z.leb_le in E2; lia | ].
  simpl.
  destruct (nth_error l (Z.to_nat j)) as [x | ] eqn:E.
  - exists x. split; [reflexivity | eapply nth_error_In; exact E].
  - apply nth_error_None in E. lia.
Qed.

Lemma firstn_In {A : Type} (n : nat) (l : list A) (x : A) :
  In x (firstn n l) -> In x l.
Proof.
  revert l. induction n as [ | n IH]; intros [ | y l]; simpl; try contradiction.
  intros [H | H]; auto.
Qed.

Lemma conversion_bin_splitter_sound (g : BNF.t) (parent : pyval) (rule : list pyval) :
  members_declared g -> contains parent (BNF.symbols g) = true ->
  declared_in g rule -> (2 < length rule)%nat ->
  exists replacements g',
    BNF.conversion_bin_splitter g parent rule = Ok (replacements, g') /\
    sound_from g g' /\
    forall p s1 s2, In (p, s1, s2) replacements ->
      contains p (BNF.symbols g') = true /\
      contains s1 (BNF.symbols g') = true /\
      contains s2 (BNF.symbols g') = true.
Proof.
  intros Hwf Hparent Hrule Hlen. unfold BNF.conversion_bin_splitter.
  match goal with
  | |- context [fold_left ?f _ ?s] => set (body := f); set (start := s)
  end.
  assert (Hloop :
            let '(reps, prev, _, st) := fold_left body (all_but_last_two rule) start in
            sound_from g st /\ contains prev (BNF.symbols st) = true /\
            forall p s1 s2, In (p, s1, s2) reps ->
              contains p (BNF.symbols st) = true /\
              contains s1 (BNF.symbols st) = true /\
              contains s2 (BNF.symbols st) = true).
  { apply (fold_left_inv
             (fun acc : list (pyval * pyval * pyval) * pyval * Z * BNF.t =>
                let '(reps, prev, _, st) := acc in
                sound_from g st /\ contains prev (BNF.symbols st) = true /\
                forall p s1 s2, In (p, s1, s2) reps ->
                  contains p (BNF.symbols st) = true /\
                  contains s1 (BNF.symbols st) = true /\
                  contains s2 (BNF.symbols st) = true)).
    - intros item [[[reps prev] rid] st] Hitem [[Hwfst Hkst] [Hprev Hreps]].
      unfold body.
      destruct (add_symbol_sound st (PInt rid) false Hwfst) as [[Hwf1 Hk1] Hc1].
      destruct (BNF.add_symbol st (PInt rid) false) as [c st1]. simpl in *.
      split; [ | split].
      + split; [ | intros k Hk; simpl; apply Hk1, Hkst, Hk].
        apply (same_symbols_sound st1); [reflexivity | exact Hwf1].
      + exact Hc1.
      + intros p s1 s2 Hin. apply set_add_In_weak in Hin.
        destruct Hin as [Heq | Hin].
        * injection Heq as -> -> ->. repeat split; [apply Hk1, Hprev | | exact Hc1].
          apply Hk1, Hkst, Hrule. unfold all_but_last_two in Hitem.
          eapply firstn_In. exact Hitem.
        * destruct (Hreps p s1 s2 Hin) as [H1 [H2 H3]]. repeat split; apply Hk1; assumption.
    - unfold start. split; [ | split].
      + apply same_symbols_sound; [reflexivity | exact Hwf].
      + exact Hparent.
      + intros p s1 s2 []. }
  destruct (fold_left body (all_but_last_two rule) start) as [[[reps prev] rid] st].
  destruct Hloop as [[Hwfst Hkst] [Hprev Hreps]].
  destruct (index_total rule (-2)) as [x2 [Hx2 Hin2]]; [lia | ].
  destruct (index_total rule (-1)) as [x1 [Hx1 Hin1]]; [lia | ].
  rewrite Hx2. simpl. rewrite Hx1. simpl.
  eexists. exists st. split; [reflexivity | ].
  split; [split; assumption | ].
  intros p s1 s2 Hin. apply set_add_In_weak in Hin.
  destruct Hin as [Heq | Hin]; [ | apply Hreps; exact Hin].
  injection Heq as -> -> ->. repeat split; [exact Hprev | | ]; apply Hkst, Hrule; assumption.
Qed.

Lemma is_only_subrule_with_daughter_total (g : BNF.t) (parent daughter : pyval) :
  contains parent (BNF.symbols g) = true ->
  exists b, BNF.is_only_subrule_with_daughter g parent daughter = Ok b.
Proof.
  intro H. unfold BNF.is_only_subrule_with_daughter.
  destruct (declared_getitem g parent H) as [s [Hs _]]. rewrite Hs. simpl. eauto.
Qed.

Lemma conversion_bin_sound (g : BNF.t) :
  members_declared g ->
  exists g', BNF.conversion_bin g = Ok g' /\ sound_from g g'.
Proof.
  intro Hwf. unfold BNF.conversion_bin.
  apply (for_each_total (sound_from g)); [ | apply sound_from_refl; exact Hwf].
  intros symbol st Hsym [Hwfst Hkst].
  assert (Hsymst : contains symbol (BNF.symbols st) = true)
    by (apply Hkst, in_keys_contains, Hsym).
  destruct (declared_getitem st symbol Hsymst) as [s [Hs Hl]].
  rewrite Hs. simpl.
  match goal with
  | |- context [for_each _ ?body st] =>
      destruct (for_each_total (sound_from st) (BNF_Symbol.get_rules s) body)
        with (st := st) as [st' [H' Hs']]
  end.
  - intros rule st1 Hin [Hwf1 Hk1].
    destruct (BNF.is_bin_applicable rule) eqn:Ebin;
      [ | exists st1; split; [reflexivity | split; assumption]].
    assert (Hdecl : declared_in st1 rule).
    { apply (declared_in_keeps st); [exact Hk1 | ]. exact (Hwfst symbol s rule (lookup_In _ _ _ Hl) Hin). }
    destruct (conversion_bin_splitter_sound st1 symbol rule Hwf1)
      as [reps [st2 [H2 [[Hwf2 Hk2] Hreps]]]];
      [apply Hk1, Hsymst | exact Hdecl
       | unfold BNF.is_bin_applicable in Ebin; apply Nat.ltb_lt in Ebin; exact Ebin | ].
    rewrite H2. simpl.
    match goal with
    | |- context [for_each reps ?body2 st2] =>
        destruct (for_each_total (sound_from st2) reps body2) with (st := st2)
          as [st3 [H3 [Hwf3 Hk3]]]
    end.
    { intros [[p s1] s2] a Hin3 [Hwfa Hka].
      destruct (Hreps p s1 s2 Hin3) as [Hp [Hs1 Hs2]].
      assert (Ha1 : exists a1, BNF.do_on_symbol p
                       (fun q => BNF_Symbol.add_rule q [s1; s2]) a = Ok a1 /\
                     sound_from a a1).
      { sound_call; [exact Hwfa | apply Hka, Hp | ].
        intros m [<- | [<- | []]]; apply Hka; assumption. }
      destruct Ha1 as [a1 [Ha1 [Hwfa1 Hka1]]]. rewrite Ha1. simpl.
      assert (Ha2 : exists a2, BNF.do_on_symbol s1
                       (fun c => BNF_Symbol.add_parent c p) a1 = Ok a2 /\
                     sound_from a1 a2).
      { sound_call; [exact Hwfa1 | apply Hka1, Hka, Hs1]. }
      destruct Ha2 as [a2 [Ha2 [Hwfa2 Hka2]]]. rewrite Ha2. simpl.
      assert (Ha3 : exists a3, BNF.do_on_symbol s2
                       (fun c => BNF_Symbol.add_parent c p) a2 = Ok a3 /\
                     sound_from a2 a3).
      { sound_call; [exact Hwfa2 | apply Hka2, Hka1, Hka, Hs2]. }
      destruct Ha3 as [a3 [Ha3 [Hwfa3 Hka3]]].
      exists a3. split; [exact Ha3 | ]. split; [exact Hwfa3 | ].
      apply keeps_keys_trans with a; [exact Hka | ].
      apply keeps_keys_trans with a1; [exact Hka1 | ].
      apply keeps_keys_trans with a2; assumption. }
    { apply sound_from_refl. exact Hwf2. }
    rewrite H3. simpl.
    assert (Hsym3 : contains symbol (BNF.symbols st3) = true)
      by (apply Hk3, Hk2, Hk1, Hsymst).
    assert (H4 : exists st4, BNF.do_on_symbol symbol
                     (fun p => BNF_Symbol.remove_rule p rule) st3 = Ok st4 /\
                   sound_from st3 st4).
    { sound_call; [exact Hwf3 | exact Hsym3]. }
    destruct H4 as [st4 [H4 [Hwf4 Hk4]]]. rewrite H4. simpl.
    match goal with
    | |- context [for_each rule ?body5 st4] =>
        destruct (for_each_total (sound_from st4) rule body5) with (st := st4)
          as [st5 [H5 [Hwf5 Hk5]]]
    end.
    { intros item a Hitem [Hwfa Hka].
      destruct (is_only_subrule_with_daughter_total a symbol item) as [b Hb];
        [apply Hka, Hk4, Hsym3 | ].
      rewrite Hb. simpl. destruct b.
      - assert (Ha1 : exists a1, BNF.do_on_symbol item
                          (fun c => BNF_Symbol.remove_parent c symbol) a = Ok a1 /\
                        sound_from a a1).
        { sound_call; [exact Hwfa | ].
          apply Hka, Hk4, Hk3, Hk2, Hdecl, Hitem. }
        destruct Ha1 as [a1 [Ha1 Hsa1]]. exists a1. split; [exact Ha1 | ].
        eapply sound_from_trans; eassumption.
      - exists a. split; [reflexivity | split; assumption]. }
    { apply sound_from_refl. exact Hwf4. }
    exists st5. split; [exact H5 | ]. split; [exact Hwf5 | ].
    apply keeps_keys_trans with st1; [exact Hk1 | ].
    apply keeps_keys_trans with st2; [exact Hk2 | ].
    apply keeps_keys_trans with st3; [exact Hk3 | ].
    apply keeps_keys_trans with st4; assumption.
  - apply sound_from_refl. exact Hwfst.
  - exists st'. split; [exact H' | eapply sound_from_trans; eassumption].
Qed.

(** *** UNIT *)

Lemma conversion_unit_collect_sound (g : BNF.t) :
  members_declared g ->
  exists products g',
    BNF.conversion_unit_collect g = Ok (products, g') /\
    sound_from g g' /\
    forall a b, In (a, b) products ->
      contains a (BNF.symbols g') = true /\ contains b (BNF.symbols g') = true.
Proof.
  intro Hwf. unfold BNF.conversion_unit_collect.
  set (P := fun (g0 : BNF.t) (acc : list (pyval * pyval) * BNF.t) =>
              sound_from g0 (snd acc) /\
              forall a b, In (a, b) (fst acc) ->
                contains a (BNF.symbols (snd acc)) = true /\
                contains b (BNF.symbols (snd acc)) = true).
  match goal with
  | |- context [for_each _ ?body ?init] =>
      destruct (for_each_total (P g) (keys (BNF.symbols g)) body) with (st := init)
        as [[products g'] [H [Hs Hp]]]
  end.
  - intros symbol [ps st] Hsym [[Hwfst Hkst] Hps]. simpl in *.
    assert (Hsymst : contains symbol (BNF.symbols st) = true)
      by (apply Hkst, in_keys_contains, Hsym).
    destruct (declared_getitem st symbol Hsymst) as [s [Hs Hl]].
    rewrite Hs. simpl.
    match goal with
    | |- context [for_each _ ?body1 ?init1] =>
        destruct (for_each_total
                    (fun acc => P st acc /\
                                forall a b, In (a, b) ps -> In (a, b) (fst acc) \/
                                  (contains a (BNF.symbols (snd acc)) = true /\
                                   contains b (BNF.symbols (snd acc)) = true))
                    (BNF_Symbol.get_rules s) body1) with (st := init1)
          as [[ps' st'] [H' [[[Hwf' Hk'] Hp'] _]]]
    end.
    + intros rule [ps1 st1] Hrule [[[Hwf1 Hk1] Hps1] Hold]. simpl in *.
      assert (Hstay : exists acc',
                 Ok (ps1, st1) = Ok acc' /\
                 (P st acc' /\
                  forall a b, In (a, b) ps -> In (a, b) (fst acc') \/
                    (contains a (BNF.symbols (snd acc')) = true /\
                     contains b (BNF.symbols (snd acc')) = true))).
      { exists (ps1, st1). split; [reflexivity | ].
        split; [split; [split; assumption | exact Hps1] | exact Hold]. }
      destruct rule as [ | rule0 [ | rule1 rest]]; try exact Hstay.
      assert (Hdecl0 : contains rule0 (BNF.symbols st1) = true).
      { apply Hk1. apply (Hwfst symbol s [rule0] (lookup_In _ _ _ Hl) Hrule). left. reflexivity. }
      destruct (declared_getitem st1 rule0 Hdecl0) as [target [Ht Hlt]].
      rewrite Ht. simpl.
      destruct (negb (BNF_Symbol.is_terminal target)); [ | exact Hstay].
      match goal with
      | |- context [for_each _ ?body2 st1] =>
          destruct (for_each_total (sound_from st1)
                                   (BNF_Symbol.get_rules target) body2)
            with (st := st1) as [st2 [H2 [Hwf2 Hk2]]]
      end.
      * intros subrule a Hsub [Hwfa Hka].
        assert (Ha1 : exists a1, BNF.do_on_symbol symbol
                          (fun p => BNF_Symbol.add_rule p subrule) a = Ok a1 /\
                        sound_from a a1).
        { sound_call; [exact Hwfa | apply Hka, Hk1, Hsymst | ].
          apply (declared_in_keeps st1); [exact Hka | ].
          exact (Hwf1 rule0 target subrule (lookup_In _ _ _ Hlt) Hsub). }
        destruct Ha1 as [a1 [Ha1 Hsa1]]. exists a1. split; [exact Ha1 | ].
        eapply sound_from_trans; eassumption.
      * apply sound_from_refl. exact Hwf1.
      * rewrite H2. simpl. eexists. split; [reflexivity | ]. simpl.
        split; [split; [split | ] | ].
        -- exact Hwf2.
        -- apply keeps_keys_trans with st1; assumption.
        -- intros a b Hab. apply set_add_In_weak in Hab.
           destruct Hab as [Heq | Hab].
           ++ injection Heq as -> ->. split; apply Hk2; [apply Hk1, Hsymst | exact Hdecl0].
           ++ destruct (Hps1 a b Hab). split; apply Hk2; assumption.
        -- intros a b Hab. destruct (Hold a b Hab) as [Hin | [Ha Hb]].
           ++ right. destruct (Hps1 a b Hin). split; apply Hk2; assumption.
           ++ right. split; apply Hk2; assumption.
    + split; [split; [apply sound_from_refl; exact Hwfst | exact Hps] | ].
      intros a b Hab. left. exact Hab.
    + rewrite H'. exists (ps', st'). split; [reflexivity | ]. simpl in *.
      split; [ | exact Hp'].
      split; [exact Hwf' | apply keeps_keys_trans with st; assumption].
  - split; [apply sound_from_refl; exact Hwf | intros a b []].
  - rewrite H. exists products, g'. split; [reflexivity | ]. split; assumption.
Qed.

Lemma conversion_unit_sound (g : BNF.t) :
  members_declared g ->
  exists g', BNF.conversion_unit g = Ok g' /\ sound_from g g'.
Proof.
  intro Hwf. unfold BNF.conversion_unit.
  destruct (conversion_unit_collect_sound g Hwf)
    as [products [g1 [H1 [[Hwf1 Hk1] Hp]]]].
  rewrite H1. simpl.
  match goal with
  | |- context [for_each products ?body g1] =>
      destruct (for_each_total (sound_from g1) products body) with (st := g1)
        as [g2 [H2 [Hwf2 Hk2]]]
  end.
  - intros [parent product] st Hin [Hwfst Hkst].
    destruct (Hp parent product Hin) as [Hpar Hprod].
    assert (Ha1 : exists a1, BNF.do_on_symbol parent
                      (fun p => BNF_Symbol.remove_rule p [product]) st = Ok a1 /\
                    sound_from st a1).
    { sound_call; [exact Hwfst | apply Hkst, Hpar]. }
    destruct Ha1 as [a1 [Ha1 [Hwfa1 Hka1]]]. rewrite Ha1. simpl.
    destruct (is_only_subrule_with_daughter_total a1 parent product) as [b Hb];
      [apply Hka1, Hkst, Hpar | ].
    rewrite Hb. simpl. destruct b.
    + assert (Ha2 : exists a2, BNF.do_on_symbol product
                        (fun c => BNF_Symbol.remove_parent c parent) a1 = Ok a2 /\
                      sound_from a1 a2).
      { sound_call; [exact Hwfa1 | apply Hka1, Hkst, Hprod]. }
      destruct Ha2 as [a2 [Ha2 [Hwfa2 Hka2]]]. exists a2. split; [exact Ha2 | ].
      split; [exact Hwfa2 | ].
      apply keeps_keys_trans with st; [exact Hkst | ].
      apply keeps_keys_trans with a1; assumption.
    + exists a1. split; [reflexivity | ]. split; [exact Hwfa1 | ].
      apply keeps_keys_trans with st; assumption.
  - apply sound_from_refl. exact Hwf1.
  - exists g2. split; [exact H2 | ]. split; [exact Hwf2 | ].
    apply keeps_keys_trans with g1; assumption.
Qed.

(** *** The loop *)

Lemma conversion_pass_sound (g : BNF.t) :
  members_declared g ->
  exists g', BNF.conversion_pass g = Ok g' /\ sound_from g g'.
Proof.
  intro Hwf. unfold BNF.conversion_pass, BNF.conversion_del.
  destruct (conversion_start_sound g Hwf) as [g1 [H1 [Hwf1 Hk1]]].
  rewrite H1. simpl.
  destruct (conversion_term_sound g1 Hwf1) as [g2 [H2 [Hwf2 Hk2]]].
  rewrite H2. simpl.
  destruct (conversion_bin_sound g2 Hwf2) as [g3 [H3 [Hwf3 Hk3]]].
  rewrite H3. simpl.
  destruct (conversion_unit_sound g3 Hwf3) as [g4 [H4 [Hwf4 Hk4]]].
  exists g4. split; [exact H4 | ]. split; [exact Hwf4 | ].
  apply keeps_keys_trans with g1; [exact Hk1 | ].
  apply keeps_keys_trans with g2; [exact Hk2 | ].
  apply keeps_keys_trans with g3; assumption.
Qed.

Lemma passes_sound (n : nat) :
  forall g, members_declared g ->
            exists g', passes n g = Ok g' /\ members_declared g'.
Proof.
  induction n as [ | n IH]; simpl; intros g Hwf; [eauto | ].
  destruct (conversion_pass_sound g Hwf) as [g1 [H1 [Hwf1 _]]].
  rewrite H1. simpl. apply IH. exact Hwf1.
Qed.

Lemma check_rule_total (g : BNF.t) (rule : list pyval) :
  declared_in g rule -> exists b, BNF.check_rule g rule = Ok b.
Proof.
  intro Hr. unfold BNF.check_rule.
  destruct rule as [ | m1 [ | m2 [ | m3 rest]]]; eauto.
  - destruct (declared_getitem g m1) as [s1 [H1 _]]; [apply Hr; simpl; auto | ].
    rewrite H1. simpl. eauto.
  - destruct (declared_getitem g m1) as [s1 [H1 _]]; [apply Hr; simpl; auto | ].
    destruct (declared_getitem g m2) as [s2 [H2 _]]; [apply Hr; simpl; auto | ].
    rewrite H1. simpl. destruct (BNF_Symbol.is_terminal s1); [eauto | ].
    rewrite H2. simpl. eauto.
Qed.

Lemma in_values_lookup {V : Type} (d : dict V) (v : V) :
  In v (values d) -> exists k, In (k, v) d.
Proof.
  unfold values. intro H. apply in_map_iff in H.
  destruct H as [[k v'] [Heq Hin]]. simpl in Heq. subst. eauto.
Qed.

Lemma check_if_cnf_total (g : BNF.t) :
  members_declared g -> exists b, BNF.check_if_cnf g = Ok b.
Proof.
  intro Hwf. unfold BNF.check_if_cnf. apply all_pass_total.
  intros s Hs. apply in_values_lookup in Hs. destruct Hs as [k Hk].
  apply all_pass_total. intros rule Hrule.
  apply check_rule_total. exact (Hwf k s rule Hk Hrule).
Qed.

(** A grammar that is stuck and well formed keeps the loop running. *)
Lemma stuck_diverges (fuel : nat) :
  forall g, stuck g -> members_declared g -> BNF.convert_to_cnf fuel g = None.
Proof.
  induction fuel as [ | fuel IH]; simpl; intros g Hs Hwf; [reflexivity | ].
  destruct (check_if_cnf_total g Hwf) as [b Hb].
  pose proof (stuck_not_cnf g Hs) as Hnot.
  rewrite Hb. destruct b; [congruence | ].
  destruct (conversion_pass_sound g Hwf) as [g' [H' [Hwf' _]]].
  rewrite H'. apply IH; [ | exact Hwf'].
  eapply stuck_conversion_pass; eassumption.
Qed.

(** *** Grammars built with the public calls *)

Lemma members_declared_init : members_declared BNF.init.
Proof.
  intros k s r [H | []] Hr. injection H as <- <-. contradiction.
Qed.

Lemma run_op_sound (o : op) (g : BNF.t) :
  members_declared g ->
  exists g', run_op o g = Ok g' /\ members_declared g'.
Proof.
  intro Hwf. destruct o as [symbol terminal | p r | symbol tag]; simpl.
  - eexists. split; [reflexivity | ].
    apply (add_symbol_sound g symbol terminal Hwf).
  - destruct (add_rule_sound g p r Hwf) as [code [g' [H [Hwf' _]]]].
    rewrite H. simpl. eauto.
  - eexists. split; [reflexivity | ].
    apply (same_symbols_sound g); [reflexivity | exact Hwf].
Qed.

Lemma run_ops_sound (ops : list op) :
  exists g, run_ops ops BNF.init = Ok g /\ members_declared g.
Proof.
  unfold run_ops. apply (for_each_total members_declared).
  - intros o st _ Hst. apply run_op_sound. exact Hst.
  - apply members_declared_init.
Qed.

(** ** The loop of [convert_to_cnf] *)

Lemma grammar_of_sound (ops : list op) : members_declared (grammar_of ops).
Proof.
  unfold grammar_of. destruct (run_ops_sound ops) as [g [H Hwf]].
  rewrite H. exact Hwf.
Qed.

Lemma stuck_non_conforming (g : BNF.t) :
  stuck g -> (0 < non_conforming_rules g)%nat.
Proof.
  intros [p [a [b [_ [_ [_ [[s [Hs Hr]] Hkind]]]]]]].
  unfold non_conforming_rules.
  assert (Hin : In [a; b]
                   (filter (fun rule => negb (conforms g rule))
                      (concat (map BNF_Symbol.rules (values (BNF.symbols g)))))).
  { apply filter_In. split.
    - apply in_concat. exists (BNF_Symbol.rules s). split; [ | exact Hr].
      apply in_map. eapply lookup_In_values. exact Hs.
    - unfold conforms, BNF.check_rule, getitem.
      unfold is_terminal_in, is_nonterminal_in in Hkind.
      destruct (lookup a (BNF.symbols g)) as [sa | ]; [ | reflexivity].
      simpl. destruct (BNF_Symbol.is_terminal sa); [reflexivity | ].
      destruct Hkind as [H | [_ H]]; [discriminate | ].
      destruct (lookup b (BNF.symbols g)) as [sb | ]; [ | reflexivity].
      simpl. rewrite H. reflexivity. }
  destruct (filter _ _); [contradiction | simpl; lia].
Qed.

(** C2. In a well-formed grammar that holds, under a stable non-terminal, a
    rule of two members with a terminal first member, or with a terminal
    after a non-terminal, a full pass of the loop runs without raising and
    leaves a grammar of the same kind, with at least one rule that is not in
    normal form; [convert_to_cnf] is still looping after any number of
    passes. *)
Theorem mixed_rule_blocks_termination (g : BNF.t) :
  members_declared g -> stuck g ->
  (exists g', BNF.conversion_pass g = Ok g' /\
              members_declared g' /\ stuck g' /\
              (0 < non_conforming_rules g')%nat) /\
  (forall fuel, BNF.convert_to_cnf fuel g = None).
Proof.
  intros Hwf Hs. split.
  - destruct (conversion_pass_sound g Hwf) as [g' [H [Hwf' _]]].
    pose proof (stuck_conversion_pass g g' Hs H) as Hs'.
    exists g'. repeat split; try assumption.
    apply stuck_non_conforming. exact Hs'.
  - intro fuel. apply stuck_diverges; assumption.
Qed.

Lemma mixed_rule_blocks_termination_witness :
  (exists g', BNF.conversion_pass (grammar_of mixed_ops) = Ok g' /\
              members_declared g' /\ stuck g' /\
              (0 < non_conforming_rules g')%nat) /\
  (forall fuel, BNF.convert_to_cnf fuel (grammar_of mixed_ops) = None).
Proof.
  apply (mixed_rule_blocks_termination (grammar_of mixed_ops)).
  - intros k s r Hin Hr m Hm. vm_compute in Hin.
    repeat (destruct Hin as [Hin | Hin];
            [injection Hin as <- <-; simpl in Hr;
             repeat (destruct Hr as [Hr | Hr];
                     [subst r; simpl in Hm;
                      repeat (destruct Hm as [Hm | Hm]; [subst m; reflexivity | ]);
                      contradiction | ]);
             contradiction | ]).
    contradiction.
  - exists (PInt 0), (PStr "A"), (PStr "b").
    repeat split; try (intros z Hz; discriminate).
    + intros z Hz. injection Hz as <-. reflexivity.
    + eexists. split; [reflexivity | simpl; auto].
    + right. split; reflexivity.
Defined.

(** One rule of [0 -> A b], [A -> a] is not in normal form, and one still
    is not after each of the first passes. *)
Example non_conforming_rules_mixed :
  non_conforming_rules (grammar_of mixed_ops) = 1%nat /\
  option_map non_conforming_rules
    (match passes 1 (grammar_of mixed_ops) with Ok g => Some g | Raise _ => None end)
  = Some 1%nat /\
  option_map non_conforming_rules
    (match passes 5 (grammar_of mixed_ops) with Ok g => Some g | Raise _ => None end)
  = Some 1%nat.
Proof. repeat split; vm_compute; reflexivity. Qed.

(** The same happens to a rule of two terminals, which no step rewrites. *)
Example stuck_two_terminals :
  stuck (grammar_of [Op_add_symbol (PStr "a") true; Op_add_symbol (PStr "b") true;
                     Op_add_rule (PInt 0) [PStr "a"; PStr "b"]]).
Proof.
  exists (PInt 0), (PStr "a"), (PStr "b").
  repeat split; try (intros z Hz; discriminate).
  - intros z Hz. injection Hz as <-. reflexivity.
  - eexists. split; [reflexivity | simpl; auto].
  - left. reflexivity.
Qed.

(** C1. In the grammar [0 -> A b], [A -> a] the sequence [a b] is derivable
    from the start symbol 0, and [convert_to_cnf] never returns the
    [PhraseStructure] on which [fits_grammar] would be evaluated: it is
    still looping after any number of passes. *)
Theorem derivable_sequence_never_recognized :
  derives (grammar_of mixed_ops) (PInt 0) [PStr "a"; PStr "b"] /\
  forall fuel, BNF.convert_to_cnf fuel (grammar_of mixed_ops) = None.
Proof.
  split.
  - change [PStr "a"; PStr "b"] with (concat [[PStr "a"]; [PStr "b"]]).
    apply derives_rule with (rule := [PStr "A"; PStr "b"]).
    + reflexivity.
    + eexists. split; [reflexivity | simpl; auto].
    + constructor; [ | constructor; [ | constructor]].
      * change [PStr "a"] with (concat [[PStr "a"]]).
        apply derives_rule with (rule := [PStr "a"]).
        -- reflexivity.
        -- eexists. split; [reflexivity | simpl; auto].
        -- constructor; [ | constructor]. apply derives_terminal. reflexivity.
      * apply derives_terminal. reflexivity.
  - intro fuel. apply stuck_diverges.
    + apply stuck_mixed_grammar.
    + apply grammar_of_sound.
Qed.

(** ** TERM *)

Lemma mixed_not_unit (g : BNF.t) (r : list pyval) :
  mixed g r = true -> not_unit r.
Proof.
  unfold mixed, not_unit. intros H Hlen.
  destruct r as [ | m [ | m' r]]; try discriminate.
  simpl in H. rewrite !orb_false_r in H.
  unfold is_terminal_in, is_nonterminal_in in H.
  destruct (lookup m (BNF.symbols g)) as [s | ]; [ | discriminate].
  destruct (BNF_Symbol.is_terminal s); discriminate.
Qed.

Lemma existsb_ext_in {A : Type} (f g : A -> bool) (l : list A) :
  (forall x, In x l -> f x = g x) -> existsb f l = existsb g l.
Proof.
  induction l as [ | x l IH]; simpl; intro H; [reflexivity | ].
  rewrite H by auto. rewrite IH by auto. reflexivity.
Qed.

(** C3. [conversion_term] removes no mixed rule: a rule that mixes terminal
    and non-terminal members, held by a stable symbol and made of declared
    stable symbols, is still in its parent's rule set, and still mixed,
    when [conversion_term] returns. *)
Theorem conversion_term_keeps_mixed_rules
        (g g' : BNF.t) (p : pyval) (r : list pyval) :
  BNF.conversion_term g = Ok g' ->
  stable_key g p ->
  (forall m, In m r -> stable_key g m /\ contains m (BNF.symbols g) = true) ->
  has_rule g p r ->
  mixed g r = true ->
  has_rule g' p r /\ mixed g' r = true.
Proof.
  intros Hterm Hp Hmem Hrule Hmixed.
  pose proof (evolves_conversion_term not_unit not_unit_not_unit g g' Hterm) as Hev.
  split.
  - eapply evolves_has_rule; try eassumption.
    eapply mixed_not_unit. exact Hmixed.
  - unfold mixed in *.
    rewrite (existsb_ext_in (is_terminal_in g') (is_terminal_in g)),
            (existsb_ext_in (is_nonterminal_in g') (is_nonterminal_in g));
      [exact Hmixed | | ];
      intros m Hm; destruct (Hmem m Hm) as [Hst Hdecl];
      destruct (evolves_kind _ _ _ m Hev Hst Hdecl); assumption.
Qed.

Lemma conversion_term_keeps_mixed_rules_witness :
  exists g', BNF.conversion_term (grammar_of mixed_ops) = Ok g' /\
             has_rule g' (PInt 0) [PStr "A"; PStr "b"] /\
             mixed g' [PStr "A"; PStr "b"] = true.
Proof.
  eexists. split; [vm_compute; reflexivity | ].
  apply (conversion_term_keeps_mixed_rules (grammar_of mixed_ops) _ (PInt 0)
           [PStr "A"; PStr "b"]).
  - vm_compute. reflexivity.
  - intros z Hz. injection Hz as <-. reflexivity.
  - intros m [<- | [<- | []]]; (split; [intros z Hz; discriminate | reflexivity]).
  - eexists. split; [reflexivity | simpl; auto].
  - reflexivity.
Defined.

(** ** Namespaces *)

Lemma ns_inv_init : ns_inv BNF.init.
Proof.
  unfold ns_inv. simpl. split; [lia | split; [lia | ]].
  intros z Hz. unfold contains in Hz. simpl in Hz.
  destruct (z =? 0) eqn:E; [apply Z.eqb_eq in E; lia | discriminate].
Qed.

Lemma ns_inv_evolves (keep : list pyval -> Prop) (g g' : BNF.t) :
  ns_inv g -> evolves keep g g' -> ns_inv g'.
Proof.
  intros [Hc [Hs Hk]] [Hc' [Hs' [Hk' _]]]. unfold ns_inv.
  split; [lia | split; [lia | ]].
  intros z Hz. destruct (Hk' z Hz) as [H0 | H0]; [specialize (Hk z H0) | ]; lia.
Qed.

Lemma ns_inv_fresh (g : BNF.t) : ns_inv g -> next_ids_fresh g.
Proof.
  intros [Hc [Hs Hk]]. unfold next_ids_fresh. split.
  - destruct (contains (PInt (BNF.current_term_replacement g)) (BNF.symbols g))
      eqn:E; [apply Hk in E; lia | reflexivity].
  - destruct (contains (PInt (BNF.start_symbol g + 1)) (BNF.symbols g))
      eqn:E; [apply Hk in E; lia | reflexivity].
Qed.

Lemma ns_inv_run_op (o : op) (g g' : BNF.t) :
  declares_no_int o -> ns_inv g -> run_op o g = Ok g' -> ns_inv g'.
Proof.
  destruct o as [symbol terminal | p r | symbol tag]; simpl; intros Hno Hinv H.
  - injection H as <-. unfold BNF.add_symbol.
    destruct (contains symbol (BNF.symbols g)); simpl; [exact Hinv | ].
    destruct Hinv as [Hc [Hs Hk]]. unfold ns_inv. simpl.
    split; [exact Hc | split; [exact Hs | ]].
    intros z Hz. apply Hk. rewrite contains_setitem in Hz.
    apply orb_true_iff in Hz. destruct Hz as [Hz | Hz]; [ | exact Hz].
    apply pyval_eqb_eq in Hz. subst symbol. discriminate.
  - bind_inv H. destruct a as [code g1]. injection H as <-.
    apply (ns_inv_evolves (fun _ => True) g g1 Hinv).
    eapply evolves_add_rule. exact H_call.
  - injection H as <-. exact Hinv.
Qed.

Lemma ns_inv_run_ops (ops : list op) (g : BNF.t) :
  Forall declares_no_int ops -> run_ops ops BNF.init = Ok g -> ns_inv g.
Proof.
  intros Hops. unfold run_ops. apply for_each_inv; [ | apply ns_inv_init].
  intros o st st' Ho Hst H. rewrite Forall_forall in Hops.
  eapply ns_inv_run_op; eauto.
Qed.

Lemma evolves_passes (n : nat) :
  forall g g', passes n g = Ok g' -> evolves arity_two g g'.
Proof.
  induction n as [ | n IH]; simpl; intros g g' H.
  - injection H as <-. apply evolves_refl.
  - bind_inv H. eapply evolves_trans; [ | apply IH; exact H].
    apply (evolves_conversion_pass arity_two arity_two_not_unit arity_two_short).
    exact H_call.
Qed.

(** For a grammar built with the public calls from symbols that are not
    equal to integers, any number of passes runs without raising, and
    afterwards every integer key of the symbol table lies between the next
    replacement id (exclusive, below zero) and the current start symbol
    (inclusive, zero or more).  Every symbol that is in the table after
    some number of passes is still there with the same kind after any
    number of further passes. *)
Lemma keys_stay_between_counters (ops : list op) (n1 n2 : nat) :
  Forall declares_no_int ops ->
  exists g g1 g2,
    run_ops ops BNF.init = Ok g /\
    passes n1 g = Ok g1 /\
    passes n2 g1 = Ok g2 /\
    ns_inv g2 /\ next_ids_fresh g2 /\
    forall k, contains k (BNF.symbols g1) = true ->
              contains k (BNF.symbols g2) = true /\
              is_terminal_in g2 k = is_terminal_in g1 k.
Proof.
  intros Hops.
  destruct (run_ops_sound ops) as [g [Hrun Hwf]].
  destruct (passes_sound n1 g Hwf) as [g1 [Hp1 Hwf1]].
  destruct (passes_sound n2 g1 Hwf1) as [g2 [Hp2 _]].
  exists g, g1, g2.
  split; [exact Hrun | split; [exact Hp1 | split; [exact Hp2 | ]]].
  pose proof (ns_inv_run_ops ops g Hops Hrun) as Hinv.
  pose proof (ns_inv_evolves _ g g1 Hinv (evolves_passes n1 g g1 Hp1)) as Hinv1.
  pose proof (evolves_passes n2 g1 g2 Hp2) as Hev.
  pose proof (ns_inv_evolves _ g1 g2 Hinv1 Hev) as Hinv2.
  split; [exact Hinv2 | split; [apply ns_inv_fresh; exact Hinv2 | ]].
  intros k Hdecl.
  assert (Hst : stable_key g1 k).
  { intros z Hz. subst k. destruct Hinv1 as [_ [_ Hk]]. apply Hk in Hdecl. lia. }
  split; [ | apply (evolves_kind _ g1 g2 k Hev Hst Hdecl)].
  destruct Hev as [_ [_ [_ Hl]]].
  destruct (proj1 (contains_lookup _ _) Hdecl) as [s Hs].
  destruct (Hl k s Hst Hs) as [s' [Hs' _]].
  apply contains_lookup. eauto.
Qed.

(** With rules that no step repairs the allocator runs on every pass; on
    [0 -> A b] the replacement ids -1, ..., -4 are in the table after four
    passes, all of them non-terminals. *)
Example replacement_ids_mixed :
  option_map
    (fun g => (BNF.current_term_replacement g,
               map (is_nonterminal_in g) [PInt (-1); PInt (-2); PInt (-3); PInt (-4)],
               contains (PInt (-5)) (BNF.symbols g)))
    (match passes 4 (grammar_of mixed_ops) with Ok g => Some g | Raise _ => None end)
  = Some (-5, [true; true; true; true], false).
Proof. vm_compute. reflexivity. Qed.

(** C6, as stated, fails when the caller names a terminal with a key that
    is equal to the integer -1 (written [-1], or [-1.0]): that key is the
    first replacement id, and [conversion_term] stores a non-terminal with
    the rule [-1 -> -1] over the caller's terminal. *)
Lemma caller_integer_symbol_collides :
  exists g g',
    run_ops int_symbol_ops BNF.init = Ok g /\
    contains (PInt (BNF.current_term_replacement g)) (BNF.symbols g) = true /\
    is_terminal_in g (PInt (-1)) = true /\
    BNF.conversion_term g = Ok g' /\
    is_terminal_in g' (PInt (-1)) = false /\
    has_rule g' (PInt (-1)) [PInt (-1)].
Proof.
  eexists. eexists.
  split; [vm_compute; reflexivity | ].
  split; [reflexivity | ].
  split; [reflexivity | ].
  split; [vm_compute; reflexivity | ].
  split; [reflexivity | ].
  eexists. split; [reflexivity | simpl; auto].
Qed.

(** ** The emitted grammar *)

Lemma symbols_set_unset_tags (g : BNF.t) :
  BNF.symbols (BNF.set_unset_tags g) = BNF.symbols g.
Proof.
  unfold BNF.set_unset_tags.
  destruct (fold_left _ (keys (BNF.symbols g)) (0, BNF.tags g)) as [tag tags'].
  reflexivity.
Qed.

Lemma convert_to_cnf_returns (fuel : nat) :
  forall g out,
    BNF.convert_to_cnf fuel g = Some (Ok out) ->
    exists g0, BNF.check_if_cnf g0 = Ok true /\
               BNF.create_phrase_structure g0 = Ok out.
Proof.
  induction fuel as [ | fuel IH]; simpl; intros g out H; [discriminate | ].
  destruct (BNF.check_if_cnf g) as [[ | ] | e] eqn:E.
  - exists g. split; [exact E | congruence].
  - destruct (BNF.conversion_pass g) as [g1 | e]; [ | discriminate].
    apply IH with g1. exact H.
  - discriminate.
Qed.

(** The first loop of [create_phrase_structure] declares every symbol. *)
Lemma add_symbol_calls (tags : dict pyval) (entries : dict BNF_Symbol.t) :
  forall acc calls,
    for_each entries
      (fun '(symbol, s) calls =>
         symbol_tag <- getitem symbol tags ;;
         Ok (calls ++ [BNF.Call_add_symbol symbol_tag (BNF_Symbol.is_terminal s)]))
      acc = Ok calls ->
    incl acc calls /\
    forall k s, In (k, s) entries ->
      exists t, lookup k tags = Some t /\
                In (BNF.Call_add_symbol t (BNF_Symbol.is_terminal s)) calls.
Proof.
  induction entries as [ | [k0 s0] entries IH]; simpl; intros acc calls H.
  - injection H as <-. split; [apply incl_refl | contradiction].
  - bind_inv H. bind_inv H_call. injection H_call as <-.
    apply getitem_ok in H_call_call.
    destruct (IH _ _ H) as [Hincl Hall]. split.
    + intros c Hc. apply Hincl. apply in_or_app. auto.
    + intros k s [Heq | Hin].
      * injection Heq as <- <-. exists a0. split; [exact H_call_call | ].
        apply Hincl. apply in_or_app. right. simpl. auto.
      * apply Hall. exact Hin.
Qed.

(** The calls that the second loop adds come from rules of the grammar. *)
Lemma add_rule_calls (g : BNF.t) (entries : dict BNF_Symbol.t) :
  forall acc calls,
    for_each entries
      (fun '(symbol, s) calls =>
         symbol_tag <- getitem symbol (BNF.tags g) ;;
         for_each (BNF_Symbol.get_rules s)
           (fun rule cs =>
              new <- BNF.rule_calls g symbol_tag rule ;;
              Ok (cs ++ new))
           calls)
      acc = Ok calls ->
    incl acc calls /\
    forall c, In c calls ->
      In c acc \/
      exists k s rule tag,
        In (k, s) entries /\ In rule (BNF_Symbol.rules s) /\
        (exists new, BNF.rule_calls g tag rule = Ok new /\ In c new).
Proof.
  intros acc calls.
  set (P := fun cs : list BNF.ps_call =>
              incl acc cs /\
              forall c, In c cs ->
                In c acc \/
                exists k s rule tag,
                  In (k, s) entries /\ In rule (BNF_Symbol.rules s) /\
                  (exists new, BNF.rule_calls g tag rule = Ok new /\ In c new)).
  change (for_each entries
            (fun '(symbol, s) calls =>
               symbol_tag <- getitem symbol (BNF.tags g) ;;
               for_each (BNF_Symbol.get_rules s)
                 (fun rule cs =>
                    new <- BNF.rule_calls g symbol_tag rule ;;
                    Ok (cs ++ new))
                 calls)
            acc = Ok calls -> P calls).
  apply (for_each_inv P).
  - intros [k s] st st' Hks Hst H. bind_inv H. revert H.
    apply (for_each_inv P); [ | exact Hst].
    intros rule cs cs' Hrule [Hincl Hcs] H. bind_inv H. injection H as <-.
    split.
    + intros c Hc. apply in_or_app. left. apply Hincl. exact Hc.
    + intros c Hc. apply in_app_or in Hc. destruct Hc as [Hc | Hc].
      * apply Hcs. exact Hc.
      * right. exists k, s, rule, a. eauto.
  - split; [apply incl_refl | auto].
Qed.

Lemma check_if_cnf_rule (g : BNF.t) (k : pyval) (s : BNF_Symbol.t)
      (rule : list pyval) :
  BNF.check_if_cnf g = Ok true ->
  In (k, s) (BNF.symbols g) -> In rule (BNF_Symbol.rules s) ->
  BNF.check_rule g rule = Ok true.
Proof.
  unfold BNF.check_if_cnf. intros Hcnf Hks Hrule.
  assert (Hs : In s (values (BNF.symbols g))).
  { unfold values. change s with (snd (k, s)). apply in_map. exact Hks. }
  pose proof (all_pass_true _ _ Hcnf s Hs) as Hrules.
  exact (all_pass_true _ _ Hrules rule Hrule).
Qed.

Lemma create_phrase_structure_cnf (g g' : BNF.t) (calls : list BNF.ps_call) :
  BNF.check_if_cnf g = Ok true ->
  BNF.create_phrase_structure g = Ok (calls, g') ->
  forall c, In c calls -> call_in_cnf g' calls c.
Proof.
  intros Hcnf H. unfold BNF.create_phrase_structure in H.
  bind_inv H. bind_inv H. injection H as <- <-.
  set (g1 := BNF.set_unset_tags g) in *.
  assert (Hsym : BNF.symbols g1 = BNF.symbols g) by apply symbols_set_unset_tags.
  destruct (add_symbol_calls _ _ _ _ H_call) as [_ Hdeclared].
  destruct (add_rule_calls g1 _ _ _ H_call0) as [Hincl Horigin].
  assert (Hdecl : forall m sm, lookup m (BNF.symbols g) = Some sm ->
                    forall t, lookup m (BNF.tags g1) = Some t ->
                    In (BNF.Call_add_symbol t (BNF_Symbol.is_terminal sm)) a0).
  { intros m sm Hm t Ht. apply lookup_In in Hm. rewrite <- Hsym in Hm.
    destruct (Hdeclared m sm Hm) as [t' [Ht' Hin]].
    apply Hincl. congruence. }
  intros c Hc. destruct (Horigin c Hc) as [Hc1 | Hc2].
  - (* a call of the first loop *)
    assert (Hshape : forall c', In c' a -> exists t b, c' = BNF.Call_add_symbol t b).
    { revert H_call.
      apply (for_each_inv (fun cs => forall c', In c' cs ->
                                     exists t b, c' = BNF.Call_add_symbol t b)).
      - intros [k s] st st' _ Hst Hbody. bind_inv Hbody. injection Hbody as <-.
        intros c' Hc'. apply in_app_or in Hc'.
        destruct Hc' as [Hc' | [<- | []]]; eauto.
      - intros c' []. }
    destruct (Hshape c Hc1) as [t [b ->]]. exact I.
  - destruct Hc2 as [k [s [rule [tag [Hks [Hrule [new [Hnew Hin]]]]]]]].
    rewrite Hsym in Hks.
    pose proof (check_if_cnf_rule g k s rule Hcnf Hks Hrule) as Hcheck.
    unfold BNF.rule_calls in Hnew. unfold BNF.check_rule in Hcheck.
    destruct rule as [ | m1 [ | m2 [ | m3 rest]]].
    + injection Hnew as <-. contradiction.
    + bind_inv Hnew. injection Hnew as <-. destruct Hin as [<- | []].
      bind_inv Hcheck. injection Hcheck as Hterm.
      apply getitem_ok in Hnew_call, Hcheck_call.
      simpl. exists m1. unfold is_terminal_in. rewrite Hsym, Hcheck_call.
      split; [exact Hterm | split; [exact Hnew_call | ]].
      rewrite <- Hterm. apply Hdecl with m1; assumption.
    + bind_inv Hnew. bind_inv Hnew. injection Hnew as <-.
      destruct Hin as [<- | []].
      bind_inv Hcheck. destruct (BNF_Symbol.is_terminal a3) eqn:E1; [discriminate | ].
      bind_inv Hcheck. injection Hcheck as Hnt. apply negb_true_iff in Hnt.
      apply getitem_ok in Hnew_call, Hnew_call0, Hcheck_call, Hcheck_call0.
      simpl. exists m1, m2. unfold is_nonterminal_in.
      rewrite Hsym, Hcheck_call, Hcheck_call0, E1, Hnt.
      repeat split; try assumption.
      * rewrite <- E1. apply Hdecl with m1; assumption.
      * rewrite <- Hnt. apply Hdecl with m2; assumption.
    + discriminate.
Qed.

(** The grammar left in the [BNF] instance: every rule that is not of arity
    zero has one terminal or two non-terminal members.  A rule of arity
    zero passes [check_rule] and is not handed to the [PhraseStructure]. *)
Lemma convert_to_cnf_leaves_checked_rules
      (fuel : nat) (g g' : BNF.t) (calls : list BNF.ps_call)
      (k : pyval) (s : BNF_Symbol.t) (rule : list pyval) :
  BNF.convert_to_cnf fuel g = Some (Ok (calls, g')) ->
  In (k, s) (BNF.symbols g') -> In rule (BNF_Symbol.rules s) ->
  rule = [] \/
  (exists m, rule = [m] /\ is_terminal_in g' m = true) \/
  (exists m1 m2, rule = [m1; m2] /\
                 is_nonterminal_in g' m1 = true /\ is_nonterminal_in g' m2 = true).
Proof.
  intros H Hks Hrule.
  destruct (convert_to_cnf_returns fuel g _ H) as [g0 [Hcnf Hcreate]].
  unfold BNF.create_phrase_structure in Hcreate.
  bind_inv Hcreate. bind_inv Hcreate. injection Hcreate as _ <-.
  rewrite symbols_set_unset_tags in Hks.
  pose proof (check_if_cnf_rule g0 k s rule Hcnf Hks Hrule) as Hcheck.
  unfold is_terminal_in, is_nonterminal_in. rewrite symbols_set_unset_tags.
  unfold BNF.check_rule in Hcheck.
  destruct rule as [ | m1 [ | m2 [ | m3 rest]]].
  - left. reflexivity.
  - right. left. exists m1. split; [reflexivity | ].
    bind_inv Hcheck. apply getitem_ok in Hcheck_call. rewrite Hcheck_call.
    congruence.
  - right. right. exists m1, m2. split; [reflexivity | ].
    bind_inv Hcheck. apply getitem_ok in Hcheck_call. rewrite Hcheck_call.
    destruct (BNF_Symbol.is_terminal a1); [discriminate | ].
    bind_inv Hcheck. apply getitem_ok in Hcheck_call0. rewrite Hcheck_call0.
    split; [reflexivity | congruence].
  - discriminate.
Qed.

(** Whenever [convert_to_cnf] returns, every rule it handed to the
    [PhraseStructure] has one target, the tag of a terminal symbol and
    declared as a terminal by some call, or two targets, the tags of
    non-terminal symbols and declared as non-terminals by some call. *)
Lemma convert_to_cnf_emits_cnf
        (fuel : nat) (g g' : BNF.t) (calls : list BNF.ps_call) (c : BNF.ps_call) :
  BNF.convert_to_cnf fuel g = Some (Ok (calls, g')) ->
  In c calls ->
  call_in_cnf g' calls c.
Proof.
  intros H Hc. destruct (convert_to_cnf_returns fuel g _ H) as [g0 [Hcnf Hcreate]].
  exact (create_phrase_structure_cnf g0 g' calls Hcnf Hcreate c Hc).
Qed.

(** * Further properties of the code *)

(** ** More facts about sets, dictionaries and loops *)

Lemma filter_all {A : Type} (f : A -> bool) (l : list A) :
  (forall x, In x l -> f x = true) -> filter f l = l.
Proof.
  induction l as [ | x l IH]; simpl; intro H; [reflexivity | ].
  rewrite (H x (or_introl eq_refl)). f_equal. apply IH. auto.
Qed.

Lemma set_remove_added {A : Type} (eq : A -> A -> bool) (x : A) (s : list A) :
  (forall a b, eq a b = true <-> a = b) ->
  set_mem eq x s = false ->
  set_remove eq x (set_add eq x s) = s /\
  set_mem eq x (set_add eq x s) = true /\
  set_add eq x (set_add eq x s) = set_add eq x s.
Proof.
  intros eq_ok Hx.
  assert (Hmem : set_mem eq x (set_add eq x s) = true).
  { apply (set_mem_In eq eq_ok). apply (set_add_In eq eq_ok). auto. }
  split; [ | split; [exact Hmem | ]].
  - unfold set_add. rewrite Hx. unfold set_remove. rewrite filter_app. simpl.
    assert (Hxx : eq x x = true) by (apply eq_ok; reflexivity).
    rewrite Hxx. simpl. rewrite app_nil_r. apply filter_all.
    intros y Hy. apply negb_true_iff. destruct (eq x y) eqn:E; [ | reflexivity].
    apply eq_ok in E. subst y.
    assert (set_mem eq x s = true) by (apply (set_mem_In eq eq_ok); exact Hy).
    congruence.
  - unfold set_add at 1. rewrite Hmem. reflexivity.
Qed.

Lemma setitem_same {V : Type} (k : pyval) (v : V) (d : dict V) :
  lookup k d = Some v -> setitem k v d = d.
Proof.
  induction d as [ | [k' v'] d IH]; simpl; [discriminate | ].
  destruct (Py.eqb k k') eqn:E.
  - intro H. injection H as ->. reflexivity.
  - intro H. rewrite IH by exact H. reflexivity.
Qed.

Lemma setitem_twice {V : Type} (k : pyval) (v1 v2 : V) (d : dict V) :
  setitem k v2 (setitem k v1 d) = setitem k v2 d.
Proof.
  induction d as [ | [k' v'] d IH]; simpl.
  - rewrite pyval_eqb_refl. reflexivity.
  - destruct (Py.eqb k k') eqn:E; simpl; rewrite E; [reflexivity | ].
    rewrite IH. reflexivity.
Qed.

Lemma keys_setitem {V : Type} (k : pyval) (v : V) (d : dict V) :
  keys (setitem k v d) = if contains k d then keys d else keys d ++ [k].
Proof.
  unfold contains. induction d as [ | [k' v'] d IH]; simpl; [reflexivity | ].
  destruct (Py.eqb k k') eqn:E; simpl; [reflexivity | ].
  rewrite IH. destruct (lookup k d); reflexivity.
Qed.

Lemma for_each_fixed {A S : Type} (xs : list A) (body : A -> S -> result S) (st : S) :
  (forall x, In x xs -> body x st = Ok st) -> for_each xs body st = Ok st.
Proof.
  induction xs as [ | x xs IH]; simpl; intro H; [reflexivity | ].
  rewrite (H x (or_introl eq_refl)). simpl. apply IH. auto.
Qed.

Lemma for_each_ext {A S : Type} (P : S -> Prop) (xs : list A)
      (body1 body2 : A -> S -> result S) :
  (forall x st, In x xs -> P st -> body1 x st = body2 x st) ->
  (forall x st st', In x xs -> P st -> body1 x st = Ok st' -> P st') ->
  forall st, P st -> for_each xs body1 st = for_each xs body2 st.
Proof.
  induction xs as [ | x xs IH]; simpl; intros Hext Hinv st HP; [reflexivity | ].
  rewrite <- (Hext x st (or_introl eq_refl) HP).
  destruct (body1 x st) as [st1 | e] eqn:E; simpl; [ | reflexivity].
  apply IH; [intros; apply Hext; auto | intros y s s' Hy; apply Hinv; auto | ].
  apply (Hinv x st st1); auto.
Qed.

Lemma bind_Ok {A B : Type} (a : A) (k : A -> result B) : bind (Ok a) k = k a.
Proof. reflexivity. Qed.

Lemma symbol_eta (s : BNF_Symbol.t) :
  BNF_Symbol.mk (BNF_Symbol.symbol s) (BNF_Symbol.rules s)
                (BNF_Symbol.parents s) (BNF_Symbol.is_terminal s) = s.
Proof. destruct s. reflexivity. Qed.

Lemma grammar_eta (g : BNF.t) :
  BNF.mk (BNF.start_symbol g) (BNF.symbols g)
         (BNF.current_term_replacement g) (BNF.tags g) = g.
Proof. destruct g. reflexivity. Qed.

(** ** class BNF_Symbol *)

(** X1. On a non-terminal symbol that does not hold the rule [r],
    [remove_rule] answers -1 and changes nothing; [add_rule] answers 0 and
    stores [r]; a second [add_rule] answers 0 and changes nothing; and
    [remove_rule] then answers 0 and gives back the symbol as it was. *)
Theorem symbol_rule_add_remove (s : BNF_Symbol.t) (r : list pyval) :
  BNF_Symbol.is_terminal s = false ->
  set_mem tuple_eqb r (BNF_Symbol.rules s) = false ->
  exists s1,
    BNF_Symbol.remove_rule s r = (-1, s) /\
    BNF_Symbol.add_rule s r = (0, s1) /\
    set_mem tuple_eqb r (BNF_Symbol.rules s1) = true /\
    BNF_Symbol.add_rule s1 r = (0, s1) /\
    BNF_Symbol.remove_rule s1 r = (0, s).
Proof.
  destruct s as [sym rules parents terminal]. simpl. intros -> Hr.
  destruct (set_remove_added tuple_eqb r rules tuple_eqb_eq Hr)
    as [Hrem [Hmem Hadd]].
  exists (BNF_Symbol.mk sym (set_add tuple_eqb r rules) parents false).
  unfold BNF_Symbol.remove_rule, BNF_Symbol.add_rule. simpl.
  rewrite Hr, Hmem, Hadd, Hrem. simpl. repeat split.
Qed.

Lemma symbol_rule_add_remove_witness :
  exists s1,
    BNF_Symbol.remove_rule (BNF_Symbol.mk (PStr "S") [[PStr "a"]] [] false)
                           [PStr "A"; PStr "B"]
    = (-1, BNF_Symbol.mk (PStr "S") [[PStr "a"]] [] false) /\
    BNF_Symbol.add_rule (BNF_Symbol.mk (PStr "S") [[PStr "a"]] [] false)
                        [PStr "A"; PStr "B"] = (0, s1) /\
    set_mem tuple_eqb [PStr "A"; PStr "B"] (BNF_Symbol.rules s1) = true /\
    BNF_Symbol.add_rule s1 [PStr "A"; PStr "B"] = (0, s1) /\
    BNF_Symbol.remove_rule s1 [PStr "A"; PStr "B"]
    = (0, BNF_Symbol.mk (PStr "S") [[PStr "a"]] [] false).
Proof.
  apply (symbol_rule_add_remove
           (BNF_Symbol.mk (PStr "S") [[PStr "a"]] [] false) [PStr "A"; PStr "B"]);
    reflexivity.
Defined.

(** X2. On a symbol that does not have the parent [p],
    [remove_parent] answers -1 and changes nothing; [add_parent] answers 0
    and records [p]; a second [add_parent] changes nothing; and
    [remove_parent] then answers 0 and gives back the symbol as it was. *)
Theorem symbol_parent_add_remove (s : BNF_Symbol.t) (p : pyval) :
  set_mem Py.eqb p (BNF_Symbol.parents s) = false ->
  exists s1,
    BNF_Symbol.remove_parent s p = (-1, s) /\
    BNF_Symbol.add_parent s p = (0, s1) /\
    set_mem Py.eqb p (BNF_Symbol.parents s1) = true /\
    BNF_Symbol.add_parent s1 p = (0, s1) /\
    BNF_Symbol.remove_parent s1 p = (0, s).
Proof.
  destruct s as [sym rules parents terminal]. simpl. intros Hp.
  destruct (set_remove_added Py.eqb p parents pyval_eqb_eq Hp)
    as [Hrem [Hmem Hadd]].
  exists (BNF_Symbol.mk sym rules (set_add Py.eqb p parents) terminal).
  unfold BNF_Symbol.remove_parent, BNF_Symbol.add_parent. simpl.
  rewrite Hp, Hmem, Hadd, Hrem. simpl. repeat split.
Qed.

Lemma symbol_parent_add_remove_witness :
  exists s1,
    BNF_Symbol.remove_parent (BNF_Symbol.mk (PStr "a") [] [PStr "A"] true) (PInt 0)
    = (-1, BNF_Symbol.mk (PStr "a") [] [PStr "A"] true) /\
    BNF_Symbol.add_parent (BNF_Symbol.mk (PStr "a") [] [PStr "A"] true) (PInt 0)
    = (0, s1) /\
    set_mem Py.eqb (PInt 0) (BNF_Symbol.parents s1) = true /\
    BNF_Symbol.add_parent s1 (PInt 0) = (0, s1) /\
    BNF_Symbol.remove_parent s1 (PInt 0)
    = (0, BNF_Symbol.mk (PStr "a") [] [PStr "A"] true).
Proof.
  apply (symbol_parent_add_remove
           (BNF_Symbol.mk (PStr "a") [] [PStr "A"] true) (PInt 0)).
  reflexivity.
Defined.

(** ** Declaring symbols and rules *)

(** X3. [add_symbol] on a key that is in the table answers -1 and
    changes nothing.  On a new key it answers 0 and stores, at the end of
    the table, a record of the given kind with no rule and no parent; every
    other entry is as before, and declaring the same key again with the
    other kind answers -1: the first declaration decides the kind. *)
Theorem add_symbol_outcomes (g : BNF.t) (k : pyval) (terminal : bool) :
  (contains k (BNF.symbols g) = true -> BNF.add_symbol g k terminal = (-1, g)) /\
  (contains k (BNF.symbols g) = false ->
   exists g',
     BNF.add_symbol g k terminal = (0, g') /\
     lookup k (BNF.symbols g') = Some (BNF_Symbol.mk k [] [] terminal) /\
     keys (BNF.symbols g') = keys (BNF.symbols g) ++ [k] /\
     (forall k', k' <> k -> lookup k' (BNF.symbols g') = lookup k' (BNF.symbols g)) /\
     BNF.add_symbol g' k (negb terminal) = (-1, g')).
Proof.
  unfold BNF.add_symbol. split; intro H; rewrite H; [reflexivity | ].
  eexists. split; [reflexivity | ]. simpl.
  split; [apply lookup_setitem_same | ].
  split; [rewrite keys_setitem, H; reflexivity | ].
  split; [intros k' Hk'; apply lookup_setitem_other; exact Hk' | ].
  rewrite contains_setitem, pyval_eqb_refl. reflexivity.
Qed.

Lemma add_symbol_outcomes_witness :
  BNF.add_symbol BNF.init (PInt 0) true = (-1, BNF.init) /\
  exists g',
    BNF.add_symbol BNF.init (PStr "A") false = (0, g') /\
    lookup (PStr "A") (BNF.symbols g') = Some (BNF_Symbol.mk (PStr "A") [] [] false) /\
    keys (BNF.symbols g') = keys (BNF.symbols BNF.init) ++ [PStr "A"] /\
    (forall k', k' <> PStr "A" ->
                lookup k' (BNF.symbols g') = lookup k' (BNF.symbols BNF.init)) /\
    BNF.add_symbol g' (PStr "A") (negb false) = (-1, g').
Proof.
  split.
  - apply (add_symbol_outcomes BNF.init (PInt 0) true). reflexivity.
  - apply (add_symbol_outcomes BNF.init (PStr "A") false). reflexivity.
Defined.

(** A method call that leaves the stored record as it is leaves the
    grammar as it is. *)
Lemma do_on_symbol_fixed (k : pyval) (method : BNF_Symbol.t -> Z * BNF_Symbol.t)
      (g : BNF.t) (s : BNF_Symbol.t) :
  lookup k (BNF.symbols g) = Some s -> snd (method s) = s ->
  BNF.do_on_symbol k method g = Ok g.
Proof.
  intros Hs Hm. rewrite (do_on_symbol_eq _ _ _ _ Hs), Hm, (setitem_same _ _ _ Hs).
  unfold BNF.set_symbols. rewrite grammar_eta. reflexivity.
Qed.

Lemma add_rule_zero (g g' : BNF.t) (p : pyval) (r : list pyval) :
  BNF.add_rule g p r = Ok (0, g') ->
  is_nonterminal_in g p = true /\ BNF.has_unknown_member g r = false.
Proof.
  unfold BNF.add_rule, is_nonterminal_in, contains, getitem. intro H.
  destruct (lookup p (BNF.symbols g)) as [sp | ]; simpl in H; [ | discriminate].
  destruct (BNF_Symbol.is_terminal sp); [discriminate | ].
  destruct (BNF.has_unknown_member g r); [discriminate | auto].
Qed.

(** Method calls never change the kind of a symbol. *)
Lemma do_on_symbol_kind (k : pyval) (method : BNF_Symbol.t -> Z * BNF_Symbol.t)
      (g g' : BNF.t) :
  (forall s, BNF_Symbol.is_terminal (snd (method s)) = BNF_Symbol.is_terminal s) ->
  BNF.do_on_symbol k method g = Ok g' ->
  forall k', is_terminal_in g' k' = is_terminal_in g k' /\
             is_nonterminal_in g' k' = is_nonterminal_in g k'.
Proof.
  intros Hm H k'. apply do_on_symbol_inv in H. destruct H as [s [Hs ->]].
  unfold is_terminal_in, is_nonterminal_in. simpl.
  destruct (Py.eqb k' k) eqn:E.
  - apply pyval_eqb_eq in E. subst k'. rewrite lookup_setitem_same, Hs, Hm. auto.
  - apply pyval_eqb_neq in E. rewrite lookup_setitem_other by exact E. auto.
Qed.

Lemma add_rule_kind (g g' : BNF.t) (p : pyval) (r : list pyval) (code : Z) :
  BNF.add_rule g p r = Ok (code, g') ->
  forall k, is_terminal_in g' k = is_terminal_in g k /\
            is_nonterminal_in g' k = is_nonterminal_in g k.
Proof.
  unfold BNF.add_rule. intro H.
  destruct (negb (contains p (BNF.symbols g))); [injection H as _ <-; auto | ].
  bind_inv H. destruct (BNF_Symbol.is_terminal a); [injection H as _ <-; auto | ].
  destruct (BNF.has_unknown_member g r); [injection H as _ <-; auto | ].
  bind_inv H. bind_inv H. injection H as _ <-.
  assert (H0 : forall k, is_terminal_in a0 k = is_terminal_in g k /\
                         is_nonterminal_in a0 k = is_nonterminal_in g k).
  { eapply do_on_symbol_kind; [ | exact H_call0].
    intro s. unfold BNF_Symbol.add_rule.
    destruct (BNF_Symbol.is_terminal s) eqn:E; simpl; congruence. }
  revert H_call1.
  apply (for_each_inv (fun st => forall k,
                           is_terminal_in st k = is_terminal_in g k /\
                           is_nonterminal_in st k = is_nonterminal_in g k));
    [ | exact H0].
  intros m st st' _ Hst Hbody k.
  destruct (do_on_symbol_kind m (fun s => BNF_Symbol.add_parent s p) st st'
              (fun s => eq_refl) Hbody k) as [-> ->].
  apply Hst.
Qed.

(** X4. An [add_rule] that answered 0 answers 0 again on its own
    result and changes nothing: storing a rule twice is storing it once. *)
Theorem add_rule_twice (g g1 : BNF.t) (p : pyval) (r : list pyval) :
  BNF.add_rule g p r = Ok (0, g1) -> BNF.add_rule g1 p r = Ok (0, g1).
Proof.
  intro H. destruct (add_rule_zero g g1 p r H) as [Hp Hr].
  destruct (add_rule_success g p r Hp Hr) as [g' [H' [[sp [Hsp Hin]] Hpar]]].
  assert (g' = g1) by congruence. subst g'.
  destruct (add_rule_kind g g1 p r 0 H p) as [_ Hnt]. rewrite Hp in Hnt.
  unfold is_nonterminal_in in Hnt. rewrite Hsp in Hnt. apply negb_true_iff in Hnt.
  unfold BNF.add_rule, contains, getitem. rewrite Hsp. simpl. rewrite Hnt.
  assert (Hknown : BNF.has_unknown_member g1 r = false).
  { unfold BNF.has_unknown_member.
    destruct (existsb _ r) eqn:E; [ | reflexivity].
    apply existsb_exists in E. destruct E as [m [Hm Hneg]].
    specialize (Hpar m Hm). unfold has_parent in Hpar. unfold contains in Hneg.
    destruct (lookup m (BNF.symbols g1)); discriminate. }
  rewrite Hknown.
  rewrite (do_on_symbol_fixed p _ g1 sp Hsp).
  - simpl. rewrite for_each_fixed; [reflexivity | ].
    intros m Hm. specialize (Hpar m Hm). unfold has_parent in Hpar.
    destruct (lookup m (BNF.symbols g1)) as [sm | ] eqn:Em; [ | discriminate].
    apply (do_on_symbol_fixed m _ g1 sm Em).
    unfold BNF_Symbol.add_parent, set_add. simpl. rewrite Hpar. apply symbol_eta.
  - unfold BNF_Symbol.add_rule, set_add. rewrite Hnt.
    assert (Hmem : set_mem tuple_eqb r (BNF_Symbol.rules sp) = true)
      by (apply (set_mem_In tuple_eqb tuple_eqb_eq); exact Hin).
    simpl. rewrite Hmem. rewrite <- Hnt. apply symbol_eta.
Qed.

Lemma add_rule_twice_witness :
  exists g1,
    BNF.add_rule (grammar_of mixed_ops) (PStr "A") [PStr "a"; PStr "b"] = Ok (0, g1) /\
    BNF.add_rule g1 (PStr "A") [PStr "a"; PStr "b"] = Ok (0, g1).
Proof.
  eexists. split; [vm_compute; reflexivity | ].
  apply (add_rule_twice (grammar_of mixed_ops)). vm_compute. reflexivity.
Defined.

(** ** [add_rule_to_root] *)

Lemma do_on_symbol_frame (k : pyval) (method : BNF_Symbol.t -> Z * BNF_Symbol.t)
      (g g' : BNF.t) :
  BNF.do_on_symbol k method g = Ok g' ->
  BNF.start_symbol g' = BNF.start_symbol g /\
  BNF.current_term_replacement g' = BNF.current_term_replacement g /\
  BNF.tags g' = BNF.tags g /\
  keys (BNF.symbols g') = keys (BNF.symbols g) /\
  forall k', contains k' (BNF.symbols g') = contains k' (BNF.symbols g).
Proof.
  intro H. apply do_on_symbol_inv in H. destruct H as [s [Hs ->]]. simpl.
  assert (Hk : contains k (BNF.symbols g) = true) by (apply contains_lookup; eauto).
  repeat split.
  - rewrite keys_setitem, Hk. reflexivity.
  - intro k'. rewrite contains_setitem. destruct (Py.eqb k' k) eqn:E; [ | reflexivity].
    apply pyval_eqb_eq in E. subst k'. simpl. symmetry. exact Hk.
Qed.

(** X5. When the start symbol is a non-terminal and every member
    of the rule is declared, [add_rule_to_root] returns the grammar that
    [add_rule] returns for the start symbol with the answer 0; in it the
    start symbol holds the rule and is a parent of every member. *)
Theorem add_rule_to_root_agrees (g : BNF.t) (rule : list pyval) :
  is_nonterminal_in g (PInt (BNF.start_symbol g)) = true ->
  BNF.has_unknown_member g rule = false ->
  exists g',
    BNF.add_rule_to_root g rule = Ok g' /\
    BNF.add_rule g (PInt (BNF.start_symbol g)) rule = Ok (0, g') /\
    has_rule g' (PInt (BNF.start_symbol g)) rule /\
    forall m, In m rule -> has_parent g' m (PInt (BNF.start_symbol g)) = true.
Proof.
  intros Hp Hr.
  destruct (add_rule_success g _ rule Hp Hr) as [g' [H [Hrule Hpar]]].
  exists g'. split; [ | auto].
  unfold BNF.add_rule in H. unfold BNF.add_rule_to_root.
  unfold is_nonterminal_in in Hp. unfold contains, getitem in H.
  destruct (lookup (PInt (BNF.start_symbol g)) (BNF.symbols g)) as [sp | ];
    [ | discriminate].
  simpl in H. apply negb_true_iff in Hp. rewrite Hp, Hr in H.
  bind_inv H. rewrite H_call. simpl. bind_inv H. injection H as <-.
  rewrite <- H_call0.
  apply (for_each_ext (fun st => BNF.start_symbol st = BNF.start_symbol g)).
  - intros m st _ Hst. rewrite Hst. reflexivity.
  - intros m st st' _ Hst Hbody. apply do_on_symbol_frame in Hbody.
    destruct Hbody as [Hs _]. congruence.
  - apply do_on_symbol_frame in H_call. tauto.
Qed.

Lemma add_rule_to_root_agrees_witness :
  exists g',
    BNF.add_rule_to_root (grammar_of mixed_ops) [PStr "A"; PStr "A"] = Ok g' /\
    BNF.add_rule (grammar_of mixed_ops)
                 (PInt (BNF.start_symbol (grammar_of mixed_ops)))
                 [PStr "A"; PStr "A"] = Ok (0, g') /\
    has_rule g' (PInt (BNF.start_symbol (grammar_of mixed_ops))) [PStr "A"; PStr "A"] /\
    forall m, In m [PStr "A"; PStr "A"] ->
              has_parent g' m (PInt (BNF.start_symbol (grammar_of mixed_ops))) = true.
Proof.
  apply (add_rule_to_root_agrees (grammar_of mixed_ops) [PStr "A"; PStr "A"]);
    reflexivity.
Defined.

(** X6. [add_rule_to_root] does not check the members of the
    rule: when the start symbol is in the table and some member is not, the
    call raises [KeyError]. *)
Theorem add_rule_to_root_unknown_member (g : BNF.t) (rule : list pyval) :
  contains (PInt (BNF.start_symbol g)) (BNF.symbols g) = true ->
  BNF.has_unknown_member g rule = true ->
  BNF.add_rule_to_root g rule = Raise KeyError.
Proof.
  intros Hstart Hr. unfold BNF.add_rule_to_root.
  apply contains_lookup in Hstart. destruct Hstart as [sp Hsp].
  rewrite (do_on_symbol_eq _ _ _ _ Hsp). simpl.
  match goal with
  | |- for_each rule ?body ?st = _ => set (g1 := st); set (b := body)
  end.
  assert (Hsame : forall k, contains k (BNF.symbols g1) = contains k (BNF.symbols g)).
  { intro k. unfold g1. simpl. rewrite contains_setitem.
    destruct (Py.eqb k (PInt (BNF.start_symbol g))) eqn:E; [ | reflexivity].
    apply pyval_eqb_eq in E. subst k. simpl. symmetry. apply contains_lookup. eauto. }
  clearbody g1. unfold BNF.has_unknown_member in Hr.
  revert g1 Hsame. induction rule as [ | m rule IH]; intros g1 Hsame; [discriminate | ].
  simpl in Hr. simpl. unfold b at 1.
  destruct (contains m (BNF.symbols g)) eqn:Em.
  - simpl in Hr.
    assert (Hm1 : contains m (BNF.symbols g1) = true) by (rewrite Hsame; exact Em).
    apply contains_lookup in Hm1. destruct Hm1 as [sm Hsm].
    rewrite (do_on_symbol_eq _ _ _ _ Hsm). simpl. apply IH; [exact Hr | ].
    intro k. simpl. rewrite contains_setitem, <- Hsame.
    destruct (Py.eqb k m) eqn:E; [ | reflexivity].
    apply pyval_eqb_eq in E. subst k. simpl. symmetry. apply contains_lookup. eauto.
  - unfold BNF.do_on_symbol, BNF.call_on_symbol, getitem.
    rewrite <- Hsame in Em. unfold contains in Em.
    destruct (lookup m (BNF.symbols g1)); [discriminate | reflexivity].
Qed.

Lemma add_rule_to_root_unknown_member_witness :
  BNF.add_rule_to_root (grammar_of mixed_ops) [PStr "A"; PStr "z"] = Raise KeyError.
Proof.
  apply (add_rule_to_root_unknown_member (grammar_of mixed_ops) [PStr "A"; PStr "z"]);
    reflexivity.
Defined.

(** ** START *)

Lemma all_rules_do_on_symbol (R : list pyval -> Prop) (k : pyval)
      (method : BNF_Symbol.t -> Z * BNF_Symbol.t) (g g' : BNF.t) :
  all_rules R g ->
  (forall s r, In r (BNF_Symbol.rules (snd (method s))) ->
               In r (BNF_Symbol.rules s) \/ R r) ->
  BNF.do_on_symbol k method g = Ok g' ->
  all_rules R g'.
Proof.
  intros Hall Hm H. apply do_on_symbol_inv in H. destruct H as [s [Hs ->]].
  intros k0 s0 r Hin Hr. simpl in Hin. apply in_setitem in Hin.
  destruct Hin as [-> | Hin].
  - destruct (Hm s r Hr) as [H | H]; [ | exact H].
    exact (Hall k s r (lookup_In _ _ _ Hs) H).
  - exact (Hall k0 s0 r Hin Hr).
Qed.

Lemma all_rules_add_symbol (R : list pyval -> Prop) (g : BNF.t) (k : pyval)
      (terminal : bool) :
  all_rules R g -> all_rules R (snd (BNF.add_symbol g k terminal)).
Proof.
  intro Hall. unfold BNF.add_symbol.
  destruct (contains k (BNF.symbols g)); simpl; [exact Hall | ].
  intros k0 s0 r Hin Hr. simpl in Hin. apply in_setitem in Hin.
  destruct Hin as [-> | Hin]; [contradiction | exact (Hall k0 s0 r Hin Hr)].
Qed.

Lemma all_rules_add_rule (R : list pyval -> Prop) (g g' : BNF.t) (p : pyval)
      (r : list pyval) (code : Z) :
  all_rules R g -> R r -> BNF.add_rule g p r = Ok (code, g') -> all_rules R g'.
Proof.
  intros Hall HR H. unfold BNF.add_rule in H.
  destruct (negb (contains p (BNF.symbols g))); [injection H as _ <-; exact Hall | ].
  bind_inv H. destruct (BNF_Symbol.is_terminal a); [injection H as _ <-; exact Hall | ].
  destruct (BNF.has_unknown_member g r); [injection H as _ <-; exact Hall | ].
  bind_inv H. bind_inv H. injection H as _ <-.
  revert H_call1. apply for_each_inv.
  - intros m st st' _ Hst Hbody.
    apply (all_rules_do_on_symbol R m (fun s => BNF_Symbol.add_parent s p) st st' Hst);
      [ | exact Hbody].
    intros s r0 Hr0. left. exact Hr0.
  - apply (all_rules_do_on_symbol R p (fun s => BNF_Symbol.add_rule s r) g a0 Hall);
      [ | exact H_call0].
    intros s r0 Hr0. apply adds_only_add_rule in Hr0.
    destruct Hr0 as [H0 | [<- | []]]; auto.
Qed.

Lemma start_not_on_right (g : BNF.t) :
  all_rules (fun r => ~ In (PInt (BNF.start_symbol g)) r) g ->
  BNF.does_start_occur_on_right g = false.
Proof.
  intro Hall. unfold BNF.does_start_occur_on_right.
  destruct (existsb _ (values (BNF.symbols g))) eqn:E; [ | reflexivity].
  apply existsb_exists in E. destruct E as [s [Hs Hex]].
  apply existsb_exists in Hex. destruct Hex as [r [Hr Hmem]].
  apply in_values_lookup in Hs. destruct Hs as [k Hk].
  apply (set_mem_In Py.eqb pyval_eqb_eq) in Hmem.
  exfalso. exact (Hall k s r Hk Hr Hmem).
Qed.

Lemma contains_after_setitem (g : BNF.t) (k k' : pyval) (v : BNF_Symbol.t) :
  contains k' (BNF.symbols (BNF.set_symbols g (setitem k v (BNF.symbols g))))
  = Py.eqb k' k || contains k' (BNF.symbols g).
Proof. simpl. apply contains_setitem. Qed.

Lemma lookup_after_setitem_same (g : BNF.t) (k : pyval) (v : BNF_Symbol.t) :
  lookup k (BNF.symbols (BNF.set_symbols g (setitem k v (BNF.symbols g)))) = Some v.
Proof. simpl. apply lookup_setitem_same. Qed.

Lemma lookup_after_setitem_other (g : BNF.t) (k k' : pyval) (v : BNF_Symbol.t) :
  k' <> k ->
  lookup k' (BNF.symbols (BNF.set_symbols g (setitem k v (BNF.symbols g))))
  = lookup k' (BNF.symbols g).
Proof. intro H. simpl. apply lookup_setitem_other. exact H. Qed.

Lemma has_unknown_member_single (g : BNF.t) (m : pyval) :
  contains m (BNF.symbols g) = true -> BNF.has_unknown_member g [m] = false.
Proof.
  intro H. unfold BNF.has_unknown_member. cbn [existsb]. rewrite H. reflexivity.
Qed.

Lemma add_rule_frame (g g' : BNF.t) (p : pyval) (r : list pyval) (code : Z) :
  BNF.add_rule g p r = Ok (code, g') ->
  BNF.start_symbol g' = BNF.start_symbol g /\
  BNF.current_term_replacement g' = BNF.current_term_replacement g /\
  BNF.tags g' = BNF.tags g /\
  keys (BNF.symbols g') = keys (BNF.symbols g).
Proof.
  unfold BNF.add_rule. intro H.
  destruct (negb (contains p (BNF.symbols g))); [injection H as _ <-; auto | ].
  bind_inv H. destruct (BNF_Symbol.is_terminal a); [injection H as _ <-; auto | ].
  destruct (BNF.has_unknown_member g r); [injection H as _ <-; auto | ].
  bind_inv H. bind_inv H. injection H as _ <-.
  revert H_call1.
  apply (for_each_inv
           (fun st => BNF.start_symbol st = BNF.start_symbol g /\
                      BNF.current_term_replacement st = BNF.current_term_replacement g /\
                      BNF.tags st = BNF.tags g /\
                      keys (BNF.symbols st) = keys (BNF.symbols g))).
  - intros m st st' _ [H1 [H2 [H3 H4]]] Hbody.
    apply do_on_symbol_frame in Hbody. destruct Hbody as [-> [-> [-> [-> _]]]]. auto.
  - apply do_on_symbol_frame in H_call0. tauto.
Qed.

(** X7. START.  On a grammar whose rule members are declared and
    whose start symbol [n] is in the table and occurs in some rule, with
    [n + 1] not yet a key, [conversion_start] makes [n + 1] the start
    symbol: a non-terminal whose only rule is [(n,)] and that is a parent
    of [n].  The new start symbol occurs in no rule, and a second
    [conversion_start] changes nothing. *)
Theorem conversion_start_moves_start (g : BNF.t) :
  members_declared g ->
  contains (PInt (BNF.start_symbol g)) (BNF.symbols g) = true ->
  contains (PInt (BNF.start_symbol g + 1)) (BNF.symbols g) = false ->
  BNF.does_start_occur_on_right g = true ->
  exists g',
    BNF.conversion_start g = Ok g' /\
    BNF.start_symbol g' = BNF.start_symbol g + 1 /\
    lookup (PInt (BNF.start_symbol g')) (BNF.symbols g')
    = Some (BNF_Symbol.mk (PInt (BNF.start_symbol g'))
                          [[PInt (BNF.start_symbol g)]] [] false) /\
    has_parent g' (PInt (BNF.start_symbol g)) (PInt (BNF.start_symbol g')) = true /\
    BNF.does_start_occur_on_right g' = false /\
    BNF.conversion_start g' = Ok g'.
Proof.
  intros Hwf Hold Hnew Hocc.
  set (n := BNF.start_symbol g + 1).
  set (g1 := BNF.set_start_symbol g n).
  set (g2 := BNF.set_symbols g1
               (setitem (PInt n) (BNF_Symbol.init (PInt n) false) (BNF.symbols g1))).
  assert (Hne : PInt (BNF.start_symbol g) <> PInt n).
  { unfold n. intro H. injection H as H. lia. }
  assert (Hn2 : lookup (PInt n) (BNF.symbols g2)
                = Some (BNF_Symbol.init (PInt n) false))
    by apply lookup_setitem_same.
  assert (Hold2 : contains (PInt (BNF.start_symbol g)) (BNF.symbols g2) = true).
  { unfold g2. simpl. rewrite contains_setitem, Hold. apply orb_true_r. }
  destruct (add_rule_success g2 (PInt n) [PInt (BNF.start_symbol g)])
    as [g3 [H3 [[s3 [Hs3 Hin3]] Hpar3]]].
  { unfold is_nonterminal_in. rewrite Hn2. reflexivity. }
  { apply has_unknown_member_single. exact Hold2. }
  assert (Hstart3 : BNF.start_symbol g3 = n).
  { destruct (add_rule_frame _ _ _ _ _ H3) as [-> _]. reflexivity. }
  assert (Hconv : BNF.conversion_start g = Ok g3).
  { unfold BNF.conversion_start. rewrite Hocc.
    unfold BNF.add_intermediate_symbol, BNF.add_symbol. simpl.
    rewrite Hnew. simpl. fold n.
    change (BNF.set_symbols (BNF.set_start_symbol g n)
              (setitem (PInt n) (BNF_Symbol.init (PInt n) false) (BNF.symbols g)))
      with g2.
    replace (n - 1) with (BNF.start_symbol g) by (unfold n; lia).
    rewrite H3. reflexivity. }
  assert (Hright : BNF.does_start_occur_on_right g3 = false).
  { apply start_not_on_right. rewrite Hstart3.
    apply (all_rules_add_rule _ g2 g3 (PInt n) [PInt (BNF.start_symbol g)] 0);
      [ | | exact H3].
    - change g2 with (snd (0, g2)).
      assert (Hadd : BNF.add_symbol g1 (PInt n) false = (0, g2)).
      { unfold BNF.add_symbol, g1, n. simpl. rewrite Hnew. reflexivity. }
      rewrite <- Hadd. apply all_rules_add_symbol.
      intros k s r Hk Hr Hin. unfold g1 in Hk. simpl in Hk.
      pose proof (Hwf k s r Hk Hr (PInt n) Hin) as Hdecl.
      unfold n in Hdecl. congruence.
    - intros [H | []]. apply Hne. exact H. }
  exists g3. split; [exact Hconv | ]. split; [exact Hstart3 | ].
  rewrite Hstart3. split; [ | split; [ | split]].
  - (* the record of the new start symbol *)
    unfold BNF.add_rule in H3.
    rewrite (has_unknown_member_single _ _ Hold2) in H3.
    unfold contains, getitem in H3. rewrite Hn2 in H3. simpl in H3.
    rewrite (do_on_symbol_eq _ _ _ _ Hn2) in H3. simpl in H3.
    match type of H3 with
    | context [BNF.do_on_symbol _ _ ?st] => set (g2' := st) in H3
    end.
    destruct (proj1 (contains_lookup (PInt (BNF.start_symbol g)) (BNF.symbols g2'))) 
      as [so Hso].
    { unfold g2'. rewrite contains_after_setitem, Hold2. apply orb_true_r. }
    rewrite (do_on_symbol_eq _ _ _ _ Hso) in H3. simpl in H3.
    injection H3 as <-. simpl.
    rewrite lookup_setitem_other by (intro H; apply Hne; congruence).
    rewrite lookup_setitem_same. reflexivity.
  - apply Hpar3. left. reflexivity.
  - exact Hright.
  - unfold BNF.conversion_start. rewrite Hright. reflexivity.
Qed.

(** Proves [members_declared] of a grammar given by its construction calls,
    entry by entry. *)
Ltac members_declared_by_cases :=
  let k := fresh "k" in let s := fresh "s" in let r := fresh "r" in
  let m := fresh "m" in
  let Hin := fresh "Hin" in let Hr := fresh "Hr" in let Hm := fresh "Hm" in
  intros k s r Hin Hr m Hm; vm_compute in Hin;
  repeat (destruct Hin as [Hin | Hin];
          [injection Hin as <- <-; simpl in Hr;
           repeat (destruct Hr as [Hr | Hr];
                   [subst r; simpl in Hm;
                    repeat (destruct Hm as [Hm | Hm]; [subst m; reflexivity | ]);
                    contradiction | ]);
           contradiction | ]);
  contradiction.

Lemma conversion_start_moves_start_witness :
  exists g',
    BNF.conversion_start
      (grammar_of [Op_add_symbol (PStr "a") true;
                   Op_add_rule (PInt 0) [PInt 0; PStr "a"]]) = Ok g' /\
    BNF.start_symbol g' = 0 + 1 /\
    lookup (PInt (BNF.start_symbol g')) (BNF.symbols g')
    = Some (BNF_Symbol.mk (PInt (BNF.start_symbol g')) [[PInt 0]] [] false) /\
    has_parent g' (PInt 0) (PInt (BNF.start_symbol g')) = true /\
    BNF.does_start_occur_on_right g' = false /\
    BNF.conversion_start g' = Ok g'.
Proof.
  apply (conversion_start_moves_start
           (grammar_of [Op_add_symbol (PStr "a") true;
                        Op_add_rule (PInt 0) [PInt 0; PStr "a"]])).
  - members_declared_by_cases.
  - reflexivity.
  - reflexivity.
  - reflexivity.
Defined.

(** ** TERM *)

(** X8. [conversion_term_replacer] on a declared symbol returns
    the current replacement id and moves the counter down by one; the id is
    then a non-terminal whose only rule is the symbol alone, the id is a
    parent of the symbol, the start symbol is the same, and every other
    entry of the table is as before. *)
Theorem conversion_term_replacer_allocates (g : BNF.t) (item : pyval) :
  contains item (BNF.symbols g) = true ->
  exists g',
    BNF.conversion_term_replacer g item
    = Ok (BNF.current_term_replacement g, g') /\
    BNF.current_term_replacement g' = BNF.current_term_replacement g - 1 /\
    BNF.start_symbol g' = BNF.start_symbol g /\
    (exists s, lookup (PInt (BNF.current_term_replacement g)) (BNF.symbols g') = Some s /\
               BNF_Symbol.is_terminal s = false /\
               BNF_Symbol.rules s = [[item]]) /\
    has_parent g' item (PInt (BNF.current_term_replacement g)) = true /\
    forall k, k <> PInt (BNF.current_term_replacement g) -> k <> item ->
              lookup k (BNF.symbols g') = lookup k (BNF.symbols g).
Proof.
  intro Hitem. unfold BNF.conversion_term_replacer.
  set (rid := PInt (BNF.current_term_replacement g)).
  match goal with
  | |- context [BNF.do_on_symbol rid _ ?st] => set (g2 := st)
  end.
  assert (Hrid2 : lookup rid (BNF.symbols g2) = Some (BNF_Symbol.init rid false))
    by apply lookup_setitem_same.
  rewrite (do_on_symbol_eq _ _ _ _ Hrid2), bind_Ok.
  match goal with
  | |- context [BNF.do_on_symbol item _ ?st] => set (g3 := st)
  end.
  assert (Hrid3 : lookup rid (BNF.symbols g3)
                  = Some (BNF_Symbol.mk rid [[item]] [] false))
    by apply lookup_setitem_same.
  assert (Hitem3 : exists s3, lookup item (BNF.symbols g3) = Some s3).
  { apply contains_lookup. unfold g3. rewrite contains_after_setitem.
    unfold g2. simpl. rewrite contains_setitem, Hitem.
    rewrite !orb_true_r. reflexivity. }
  destruct Hitem3 as [s3 Hs3].
  rewrite (do_on_symbol_eq _ _ _ _ Hs3), bind_Ok.
  match goal with
  | |- context [Ok (_, ?st)] => set (g4 := st)
  end.
  exists g4. split; [reflexivity | ].
  split; [reflexivity | split; [reflexivity | split; [ | split]]].
  - destruct (Py.eqb rid item) eqn:E.
    + apply pyval_eqb_eq in E. unfold g4. rewrite <- E.
      rewrite lookup_after_setitem_same.
      assert (s3 = BNF_Symbol.mk rid [[item]] [] false) by congruence. subst s3.
      eexists. split; [reflexivity | ]. simpl. split; [reflexivity | congruence].
    + apply pyval_eqb_neq in E. unfold g4.
      rewrite lookup_after_setitem_other by exact E.
      rewrite Hrid3. eexists. split; [reflexivity | ]. simpl. auto.
  - unfold has_parent, g4. rewrite lookup_after_setitem_same. simpl.
    apply (set_mem_In Py.eqb pyval_eqb_eq).
    apply (set_add_In Py.eqb pyval_eqb_eq). left. reflexivity.
  - intros k Hk1 Hk2. unfold g4.
    rewrite lookup_after_setitem_other by exact Hk2.
    unfold g3. rewrite lookup_after_setitem_other by exact Hk1.
    unfold g2. rewrite lookup_after_setitem_other by exact Hk1. reflexivity.
Qed.

Lemma conversion_term_replacer_allocates_witness :
  exists g',
    BNF.conversion_term_replacer (grammar_of mixed_ops) (PStr "b")
    = Ok (BNF.current_term_replacement (grammar_of mixed_ops), g') /\
    BNF.current_term_replacement g'
    = BNF.current_term_replacement (grammar_of mixed_ops) - 1 /\
    BNF.start_symbol g' = BNF.start_symbol (grammar_of mixed_ops) /\
    (exists s, lookup (PInt (BNF.current_term_replacement (grammar_of mixed_ops)))
                      (BNF.symbols g') = Some s /\
               BNF_Symbol.is_terminal s = false /\
               BNF_Symbol.rules s = [[PStr "b"]]) /\
    has_parent g' (PStr "b")
               (PInt (BNF.current_term_replacement (grammar_of mixed_ops))) = true /\
    forall k, k <> PInt (BNF.current_term_replacement (grammar_of mixed_ops)) ->
              k <> PStr "b" ->
              lookup k (BNF.symbols g') = lookup k (BNF.symbols (grammar_of mixed_ops)).
Proof.
  apply (conversion_term_replacer_allocates (grammar_of mixed_ops) (PStr "b")).
  reflexivity.
Defined.

Lemma kind_of_declared (g : BNF.t) (k : pyval) (s : BNF_Symbol.t) :
  lookup k (BNF.symbols g) = Some s ->
  is_terminal_in g k = BNF_Symbol.is_terminal s /\
  is_nonterminal_in g k = negb (BNF_Symbol.is_terminal s).
Proof.
  intro H. unfold is_terminal_in, is_nonterminal_in. rewrite H. auto.
Qed.

Lemma necessary_loop (g : BNF.t) (rule : list pyval) :
  declared_in g rule ->
  forall nt tm,
    for_each rule
      (fun item '(nt, tm) =>
         s <- getitem item (BNF.symbols g) ;;
         if BNF_Symbol.is_terminal s then Ok (nt, true) else Ok (true, tm))
      (nt, tm)
    = Ok (nt || existsb (is_nonterminal_in g) rule,
          tm || existsb (is_terminal_in g) rule).
Proof.
  induction rule as [ | item rule IH]; intros Hdecl nt tm; simpl.
  - rewrite !orb_false_r. reflexivity.
  - destruct (declared_getitem g item (Hdecl item (or_introl eq_refl))) as [s [Hs Hl]].
    rewrite Hs. simpl. destruct (kind_of_declared g item s Hl) as [-> ->].
    destruct (BNF_Symbol.is_terminal s); simpl;
      (rewrite IH by (intros m Hm; apply Hdecl; right; exact Hm));
      rewrite ?orb_true_r, ?orb_true_l, ?orb_false_l; reflexivity.
Qed.

(** X9. On a rule whose members are declared,
    [check_if_conversion_term_necessary] answers whether the rule has both
    a terminal and a non-terminal member; on a rule with an undeclared
    member it raises [KeyError]. *)
Theorem check_if_conversion_term_necessary_mixed (g : BNF.t) (rule : list pyval) :
  (declared_in g rule ->
   BNF.check_if_conversion_term_necessary g rule = Ok (mixed g rule)) /\
  ((exists m, In m rule /\ contains m (BNF.symbols g) = false) ->
   BNF.check_if_conversion_term_necessary g rule = Raise KeyError).
Proof.
  unfold BNF.check_if_conversion_term_necessary. split.
  - intro Hdecl. rewrite (necessary_loop g rule Hdecl). simpl.
    unfold mixed. rewrite andb_comm. reflexivity.
  - intros [m [Hm Hnone]].
    assert (Hloop : forall acc,
               for_each rule
                 (fun item '(nt, tm) =>
                    s <- getitem item (BNF.symbols g) ;;
                    if BNF_Symbol.is_terminal s then Ok (nt, true) else Ok (true, tm))
                 acc = Raise KeyError).
    { induction rule as [ | item rule IH]; intros [nt tm]; [contradiction | ].
      simpl. unfold getitem.
      destruct (lookup item (BNF.symbols g)) as [s | ] eqn:E; [ | reflexivity].
      simpl. destruct Hm as [-> | Hm].
      - unfold contains in Hnone. rewrite E in Hnone. discriminate.
      - destruct (BNF_Symbol.is_terminal s); apply IH; exact Hm. }
    rewrite Hloop. reflexivity.
Qed.

Lemma check_if_conversion_term_necessary_mixed_witness :
  BNF.check_if_conversion_term_necessary (grammar_of mixed_ops) [PStr "A"; PStr "b"]
  = Ok (mixed (grammar_of mixed_ops) [PStr "A"; PStr "b"]) /\
  BNF.check_if_conversion_term_necessary (grammar_of mixed_ops) [PStr "A"; PStr "z"]
  = Raise KeyError.
Proof.
  split.
  - apply (check_if_conversion_term_necessary_mixed (grammar_of mixed_ops)
             [PStr "A"; PStr "b"]).
    intros m [<- | [<- | []]]; reflexivity.
  - apply (check_if_conversion_term_necessary_mixed (grammar_of mixed_ops)
             [PStr "A"; PStr "z"]).
    exists (PStr "z"). split; [simpl; auto | reflexivity].
Defined.

(** ** BIN *)

Lemma only_subrule_loop (daughter : pyval) (rules : list (list pyval)) :
  forall acc,
    fold_left
      (fun is_only rule =>
         if set_mem Py.eqb daughter rule && (1 <? length rule)%nat
         then false else is_only)
      rules acc
    = acc && negb (existsb (counts_as_subrule daughter) rules).
Proof.
  induction rules as [ | r rules IH]; intro acc; simpl.
  - rewrite andb_true_r. reflexivity.
  - rewrite IH. unfold counts_as_subrule at 2.
    destruct (set_mem Py.eqb daughter r && (1 <? length r)%nat); simpl;
      [rewrite andb_false_r | ]; reflexivity.
Qed.

(** X10. [is_only_subrule_with_daughter] answers [True] exactly
    when no rule of the parent with more than one member contains the
    daughter; it raises [KeyError] when the parent is not in the table; and
    occurrences of the daughter as a rule of its own do not count. *)
Theorem is_only_subrule_with_daughter_spec (g : BNF.t) (parent daughter : pyval) :
  (forall s, lookup parent (BNF.symbols g) = Some s ->
     BNF.is_only_subrule_with_daughter g parent daughter
     = Ok (negb (existsb (counts_as_subrule daughter) (BNF_Symbol.rules s)))) /\
  (contains parent (BNF.symbols g) = false ->
   BNF.is_only_subrule_with_daughter g parent daughter = Raise KeyError) /\
  (forall s, lookup parent (BNF.symbols g) = Some s ->
     (forall r, In r (BNF_Symbol.rules s) -> In daughter r -> r = [daughter]) ->
     BNF.is_only_subrule_with_daughter g parent daughter = Ok true).
Proof.
  unfold BNF.is_only_subrule_with_daughter, BNF_Symbol.get_rules, getitem, contains.
  split; [ | split].
  - intros s Hs. rewrite Hs. simpl. rewrite only_subrule_loop. reflexivity.
  - destruct (lookup parent (BNF.symbols g)); [discriminate | reflexivity].
  - intros s Hs Hunit. rewrite Hs. simpl. rewrite only_subrule_loop. simpl.
    destruct (existsb (counts_as_subrule daughter) (BNF_Symbol.rules s)) eqn:E;
      [ | reflexivity].
    apply existsb_exists in E. destruct E as [r [Hr Hc]].
    unfold counts_as_subrule in Hc. apply andb_true_iff in Hc. destruct Hc as [Hm Hl].
    apply (set_mem_In Py.eqb pyval_eqb_eq) in Hm.
    rewrite (Hunit r Hr Hm) in Hl. discriminate.
Qed.

Lemma is_only_subrule_with_daughter_spec_witness :
  BNF.is_only_subrule_with_daughter (grammar_of long_and_unit_ops) (PInt 0) (PStr "B")
  = Ok (negb (existsb (counts_as_subrule (PStr "B"))
                      [[PStr "A"; PStr "B"; PStr "C"]; [PStr "B"]])) /\
  BNF.is_only_subrule_with_daughter (grammar_of unit_ops) (PStr "Z") (PStr "X")
  = Raise KeyError /\
  BNF.is_only_subrule_with_daughter (grammar_of unit_ops) (PInt 0) (PStr "X")
  = Ok true.
Proof.
  destruct (is_only_subrule_with_daughter_spec (grammar_of long_and_unit_ops)
              (PInt 0) (PStr "B")) as [H1 _].
  destruct (is_only_subrule_with_daughter_spec (grammar_of unit_ops)
              (PStr "Z") (PStr "X")) as [_ [H2 _]].
  destruct (is_only_subrule_with_daughter_spec (grammar_of unit_ops)
              (PInt 0) (PStr "X")) as [_ [_ H3]].
  split; [ | split].
  - exact (H1 _ eq_refl).
  - apply H2. reflexivity.
  - apply (H3 (BNF_Symbol.mk (PInt 0) [[PStr "X"]] [] false) eq_refl).
    intros r [<- | []] _. reflexivity.
Defined.

Lemma triple_eqb_eq (x y : pyval * pyval * pyval) :
  BNF.triple_eqb x y = true <-> x = y.
Proof.
  destruct x as [[a b] c], y as [[a' b'] c']. unfold BNF.triple_eqb.
  rewrite !andb_true_iff, !pyval_eqb_eq.
  split; [intros [[-> ->] ->]; reflexivity | intro H; injection H; auto].
Qed.

Lemma index_cons_from_end {A : Type} (x : A) (l : list A) (i : Z) :
  - Z.of_nat (length l) <= i < 0 -> index (x :: l) i = index l i.
Proof.
  intro Hi. unfold index. simpl length.
  destruct (i <? 0) eqn:E; [ | apply Z.ltb_ge in E; lia].
  set (n := Z.of_nat (length l)).
  replace (Z.of_nat (S (length l))) with (n + 1) by (unfold n; lia).
  destruct (i + (n + 1) <? 0) eqn:E1; [apply Z.ltb_lt in E1; lia | ].
  destruct (n + 1 <=? i + (n + 1)) eqn:E2; [apply Z.leb_le in E2; lia | ].
  destruct (i + n <? 0) eqn:E3; [apply Z.ltb_lt in E3; lia | ].
  destruct (n <=? i + n) eqn:E4; [apply Z.leb_le in E4; lia | ].
  simpl. replace (Z.to_nat (i + (n + 1))) with (S (Z.to_nat (i + n))) by lia.
  reflexivity.
Qed.

Lemma all_but_last_two_cons {A : Type} (x : A) (l : list A) :
  (2 <= length l)%nat -> all_but_last_two (x :: l) = x :: all_but_last_two l.
Proof.
  intro H. unfold all_but_last_two. simpl length.
  replace (S (length l) - 2)%nat with (S (length l - 2)) by lia. reflexivity.
Qed.

Lemma add_symbol_frame (g : BNF.t) (k : pyval) (terminal : bool) :
  BNF.current_term_replacement (snd (BNF.add_symbol g k terminal))
  = BNF.current_term_replacement g /\
  BNF.start_symbol (snd (BNF.add_symbol g k terminal)) = BNF.start_symbol g /\
  BNF.tags (snd (BNF.add_symbol g k terminal)) = BNF.tags g /\
  forall k', contains k' (BNF.symbols g) = true ->
             lookup k' (BNF.symbols (snd (BNF.add_symbol g k terminal)))
             = lookup k' (BNF.symbols g).
Proof.
  unfold BNF.add_symbol. destruct (contains k (BNF.symbols g)) eqn:E; simpl; auto.
  repeat split. intros k' Hk'. apply lookup_setitem_other. congruence.
Qed.

(** What [add_symbol] leaves under each key: a key that was there keeps its
    record, also when it is the key being declared. *)
Lemma add_symbol_lookup (g : BNF.t) (k k' : pyval) (terminal : bool) :
  lookup k' (BNF.symbols (snd (BNF.add_symbol g k terminal)))
  = if Py.eqb k' k
    then match lookup k (BNF.symbols g) with
         | Some s => Some s
         | None => Some (BNF_Symbol.mk k [] [] terminal)
         end
    else lookup k' (BNF.symbols g).
Proof.
  unfold BNF.add_symbol, contains.
  destruct (lookup k (BNF.symbols g)) as [s | ] eqn:E; simpl.
  - destruct (Py.eqb k' k) eqn:Ek; [ | reflexivity].
    apply pyval_eqb_eq in Ek. subst k'. exact E.
  - destruct (Py.eqb k' k) eqn:Ek.
    + apply pyval_eqb_eq in Ek. subst k'. apply lookup_setitem_same.
    + apply pyval_eqb_neq in Ek. apply lookup_setitem_other. exact Ek.
Qed.

(** The loop of [conversion_bin_splitter], from any of its states. *)
Lemma splitter_loop (rule : list pyval) :
  forall acc prev rid st,
    (2 <= length rule)%nat ->
    BNF.current_term_replacement st = rid - 1 ->
    exists reps prev' rid' st' a b,
      fold_left
        (fun '(replacements, previous_replacement_id, replacement_id, st) item =>
           let '(_, st1) := BNF.add_symbol st (PInt replacement_id) false in
           (set_add BNF.triple_eqb
                    (previous_replacement_id, item, PInt replacement_id) replacements,
            PInt replacement_id,
            BNF.current_term_replacement st1,
            BNF.set_current_term_replacement st1
              (BNF.current_term_replacement st1 - 1)))
        (all_but_last_two rule) (acc, prev, rid, st)
      = (reps, prev', rid', st') /\
      index rule (-2) = Ok a /\ index rule (-1) = Ok b /\
      (forall t, In t (set_add BNF.triple_eqb (prev', a, b) reps) <->
                 In t acc \/ In t (bin_chain prev rid rule)) /\
      BNF.current_term_replacement st'
      = BNF.current_term_replacement st - Z.of_nat (length rule - 2) /\
      BNF.start_symbol st' = BNF.start_symbol st /\
      BNF.tags st' = BNF.tags st /\
      (forall k, contains k (BNF.symbols st) = true ->
                 lookup k (BNF.symbols st') = lookup k (BNF.symbols st)) /\
      (forall i, rid - Z.of_nat (length rule - 2) < i <= rid ->
                 lookup (PInt i) (BNF.symbols st')
                 = match lookup (PInt i) (BNF.symbols st) with
                   | Some s => Some s
                   | None => Some (BNF_Symbol.mk (PInt i) [] [] false)
                   end) /\
      (forall k, contains k (BNF.symbols st') = true ->
                 contains k (BNF.symbols st) = true \/
                 exists i, k = PInt i /\ rid - Z.of_nat (length rule - 2) < i <= rid).
Proof.
  induction rule as [ | x rest IH]; intros acc prev rid st Hlen Hctr;
    [simpl in Hlen; lia | ].
  destruct rest as [ | y [ | z rest']]; [simpl in Hlen; lia | | ].
  - (* two members: the loop does not run *)
    exists acc, prev, rid, st, x, y. simpl.
    repeat split; try reflexivity; try lia; auto.
    + intro H. apply (set_add_In BNF.triple_eqb triple_eqb_eq) in H.
      destruct H as [-> | H]; [right; left; reflexivity | left; exact H].
    + intro H. apply (set_add_In BNF.triple_eqb triple_eqb_eq).
      destruct H as [H | [<- | []]]; auto.
  - (* more: one iteration, then the rest of the rule *)
    rewrite all_but_last_two_cons by (simpl; lia).
    cbn [fold_left].
    destruct (add_symbol_frame st (PInt rid) false) as [Hc1 [Hs1 [Ht1 Hl1]]].
    pose proof (fun k' => add_symbol_lookup st (PInt rid) k' false) as Hlk1.
    destruct (BNF.add_symbol st (PInt rid) false) as [c st1].
    simpl in Hc1, Hs1, Ht1, Hl1, Hlk1.
    destruct (IH (set_add BNF.triple_eqb (prev, x, PInt rid) acc) (PInt rid)
                 (BNF.current_term_replacement st1)
                 (BNF.set_current_term_replacement st1
                    (BNF.current_term_replacement st1 - 1)))
      as [reps [prev' [rid' [st' [a [b [Hfold [Ha [Hb [Hin [Hc [Hs [Ht [Hl [Hnew Hkeys]]]]]]]]]]]]]]].
    { simpl. lia. }
    { reflexivity. }
    exists reps, prev', rid', st', a, b.
    split; [exact Hfold | ].
    split; [rewrite index_cons_from_end by (simpl length; lia); exact Ha | ].
    split; [rewrite index_cons_from_end by (simpl length; lia); exact Hb | ].
    split; [ | split; [ | split; [ | split; [ | split; [ | split]]]]].
    + intro t. rewrite Hin. rewrite (set_add_In BNF.triple_eqb triple_eqb_eq).
      rewrite Hc1, Hctr.
      cbn [bin_chain]. simpl In.
      split; [intros [[-> | H] | H] | intros [H | [<- | H]]]; auto.
    + rewrite Hc. simpl BNF.current_term_replacement. rewrite Hc1.
      simpl length. lia.
    + rewrite Hs. exact Hs1.
    + rewrite Ht. exact Ht1.
    + intros k Hk. rewrite Hl.
      * simpl. apply Hl1. exact Hk.
      * simpl. apply contains_lookup. rewrite Hl1 by exact Hk.
        apply contains_lookup. exact Hk.
    + intros i Hi. simpl length in Hi.
      destruct (Z.eq_dec i rid) as [-> | Hne].
      * rewrite Hl.
        -- simpl. rewrite Hlk1, pyval_eqb_refl. reflexivity.
        -- simpl. unfold contains. rewrite Hlk1, pyval_eqb_refl.
           destruct (lookup (PInt rid) (BNF.symbols st)); reflexivity.
      * rewrite Hnew by (rewrite Hc1, Hctr; simpl length; lia).
        simpl. rewrite Hlk1.
        replace (Py.eqb (PInt i) (PInt rid)) with false; [reflexivity | ].
        symmetry. apply pyval_eqb_neq. congruence.
    + intros k Hk. destruct (Hkeys k Hk) as [H | [i [-> Hi]]].
      * simpl in H. unfold contains in H. rewrite Hlk1 in H.
        destruct (Py.eqb k (PInt rid)) eqn:Ek.
        -- apply pyval_eqb_eq in Ek. subst k. right. exists rid.
           split; [reflexivity | simpl length; lia].
        -- left. exact H.
      * right. exists i. split; [reflexivity | ].
        rewrite Hc1, Hctr in Hi. simpl length in *. lia.
Qed.

(** X11. On a rule of at least two members
    [conversion_bin_splitter] returns the chain of pair rules that spells
    the rule out through the ids from the replacement counter downwards,
    one for each member but the last two; the counter moves down by the
    number of members less one, and the start symbol and the tags are the
    same.  Each id of the chain is a key of the table afterwards: a
    non-terminal with no rule and no parent when it was not a key before,
    and the record it had when it was, since the answer of [add_symbol] is
    not looked at.  No other key is added and every entry that was in the
    table is as before; in a table with no integer key at or below the
    counter every id of the chain is new.  On a shorter rule the call
    raises [IndexError]. *)
Theorem conversion_bin_splitter_chain (g : BNF.t) (parent : pyval) (rule : list pyval) :
  ((2 <= length rule)%nat ->
   exists replacements g',
     BNF.conversion_bin_splitter g parent rule = Ok (replacements, g') /\
     (forall t, In t replacements <->
                In t (bin_chain parent (BNF.current_term_replacement g) rule)) /\
     BNF.current_term_replacement g'
     = BNF.current_term_replacement g - Z.of_nat (length rule - 1) /\
     BNF.start_symbol g' = BNF.start_symbol g /\
     BNF.tags g' = BNF.tags g /\
     (forall k, contains k (BNF.symbols g) = true ->
                lookup k (BNF.symbols g') = lookup k (BNF.symbols g)) /\
     (forall i, BNF.current_term_replacement g - Z.of_nat (length rule - 2) < i
                <= BNF.current_term_replacement g ->
                lookup (PInt i) (BNF.symbols g')
                = match lookup (PInt i) (BNF.symbols g) with
                  | Some s => Some s
                  | None => Some (BNF_Symbol.mk (PInt i) [] [] false)
                  end) /\
     (forall k, contains k (BNF.symbols g') = true ->
                contains k (BNF.symbols g) = true \/
                exists i, k = PInt i /\
                          BNF.current_term_replacement g - Z.of_nat (length rule - 2) < i
                          <= BNF.current_term_replacement g) /\
     ((forall i, i <= BNF.current_term_replacement g ->
                 contains (PInt i) (BNF.symbols g) = false) ->
      forall i, BNF.current_term_replacement g - Z.of_nat (length rule - 2) < i
                <= BNF.current_term_replacement g ->
                contains (PInt i) (BNF.symbols g) = false /\
                lookup (PInt i) (BNF.symbols g')
                = Some (BNF_Symbol.mk (PInt i) [] [] false))) /\
  ((length rule < 2)%nat ->
   BNF.conversion_bin_splitter g parent rule = Raise IndexError).
Proof.
  split.
  - intro Hlen. unfold BNF.conversion_bin_splitter.
    destruct (splitter_loop rule [] parent (BNF.current_term_replacement g)
                (BNF.set_current_term_replacement g
                   (BNF.current_term_replacement g - 1)) Hlen eq_refl)
      as [reps [prev' [rid' [st' [a [b [Hfold [Ha [Hb [Hin [Hc [Hs [Ht [Hl [Hnew Hkeys]]]]]]]]]]]]]]].
    rewrite Hfold, Ha, Hb. simpl bind.
    eexists. exists st'. split; [reflexivity | ].
    split; [ | split; [ | split; [ | split; [ | split; [ | split; [ | split]]]]]].
    + intro t. rewrite Hin. simpl. tauto.
    + rewrite Hc. simpl. lia.
    + exact Hs.
    + exact Ht.
    + exact Hl.
    + exact Hnew.
    + exact Hkeys.
    + intros Hfresh i Hi. assert (Hi' : i <= BNF.current_term_replacement g) by lia.
      specialize (Hfresh i Hi'). split; [exact Hfresh | ].
      rewrite (Hnew i Hi). simpl. unfold contains in Hfresh.
      destruct (lookup (PInt i) (BNF.symbols g)); [discriminate | reflexivity].
  - intro Hlen. unfold BNF.conversion_bin_splitter.
    destruct rule as [ | x [ | y rule]]; [ | | simpl in Hlen; lia]; reflexivity.
Qed.

Lemma conversion_bin_splitter_chain_witness :
  (exists replacements g',
     BNF.conversion_bin_splitter (grammar_of long_and_unit_ops) (PInt 0)
       [PStr "A"; PStr "B"; PStr "C"; PStr "A"] = Ok (replacements, g') /\
     (forall t, In t replacements <->
                In t (bin_chain (PInt 0)
                        (BNF.current_term_replacement (grammar_of long_and_unit_ops))
                        [PStr "A"; PStr "B"; PStr "C"; PStr "A"])) /\
     BNF.current_term_replacement g' = -4 /\
     contains (PInt (-1)) (BNF.symbols (grammar_of long_and_unit_ops)) = false /\
     lookup (PInt (-1)) (BNF.symbols g')
     = Some (BNF_Symbol.mk (PInt (-1)) [] [] false) /\
     contains (PInt (-2)) (BNF.symbols (grammar_of long_and_unit_ops)) = false /\
     lookup (PInt (-2)) (BNF.symbols g')
     = Some (BNF_Symbol.mk (PInt (-2)) [] [] false)) /\
  BNF.conversion_bin_splitter (grammar_of long_and_unit_ops) (PInt 0) [PStr "A"]
  = Raise IndexError.
Proof.
  destruct (conversion_bin_splitter_chain (grammar_of long_and_unit_ops) (PInt 0)
              [PStr "A"; PStr "B"; PStr "C"; PStr "A"]) as [Hlong _].
  destruct (conversion_bin_splitter_chain (grammar_of long_and_unit_ops) (PInt 0)
              [PStr "A"]) as [_ Hshort].
  split; [ | apply Hshort; simpl; lia].
  destruct Hlong as [reps [g' [Hrun [Hchain [Hctr [_ [_ [_ [_ [_ Hfresh]]]]]]]]]];
    [simpl; lia | ].
  assert (Hnone : forall i, i <= BNF.current_term_replacement (grammar_of long_and_unit_ops) ->
                            contains (PInt i) (BNF.symbols (grammar_of long_and_unit_ops))
                            = false).
  { intros i Hi. change (i <= -1) in Hi. unfold contains. cbn.
    destruct (i =? 0) eqn:E; [apply Z.eqb_eq in E; lia | reflexivity]. }
  exists reps, g'. split; [exact Hrun | ]. split; [exact Hchain | ].
  split; [exact Hctr | ].
  destruct (Hfresh Hnone (-1)) as [H1 H1']; [simpl; lia | ].
  destruct (Hfresh Hnone (-2)) as [H2 H2']; [simpl; lia | ].
  auto.
Defined.

(** The chain for [A B C A] under 0 with the ids -1 and -2. *)
Example bin_chain_four :
  bin_chain (PInt 0) (-1) [PStr "A"; PStr "B"; PStr "C"; PStr "A"]
  = [(PInt 0, PStr "A", PInt (-1)); (PInt (-1), PStr "B", PInt (-2));
     (PInt (-2), PStr "C", PStr "A")].
Proof. reflexivity. Qed.

(** ** What BIN achieves *)

Lemma gains_short_refl (g : BNF.t) : gains_short_rules g g.
Proof. intros k s r Hk Hr. right. eauto. Qed.

Lemma gains_short_trans (g1 g2 g3 : BNF.t) :
  gains_short_rules g1 g2 -> gains_short_rules g2 g3 -> gains_short_rules g1 g3.
Proof.
  intros H12 H23 k s r Hk Hr.
  destruct (H23 k s r Hk Hr) as [H | [s2 [Hk2 Hr2]]]; [auto | ].
  exact (H12 k s2 r Hk2 Hr2).
Qed.

Lemma gains_short_same_symbols (g g' : BNF.t) :
  BNF.symbols g' = BNF.symbols g -> gains_short_rules g g'.
Proof. intros Hsym k s r Hk Hr. right. rewrite Hsym in Hk. eauto. Qed.

Lemma gains_short_do_on_symbol (k : pyval) (method : BNF_Symbol.t -> Z * BNF_Symbol.t)
      (extra : list (list pyval)) (g g' : BNF.t) :
  adds_only extra method ->
  (forall r, In r extra -> (length r <= 2)%nat) ->
  BNF.do_on_symbol k method g = Ok g' ->
  gains_short_rules g g'.
Proof.
  intros Hm Hextra H. apply do_on_symbol_inv in H. destruct H as [s [Hs ->]].
  intros k0 s0 r Hk0 Hr. destruct (Py.eqb k0 k) eqn:E.
  - apply pyval_eqb_eq in E. subst k0. rewrite lookup_after_setitem_same in Hk0.
    injection Hk0 as <-. destruct (Hm s r Hr) as [H | H]; [right; eauto | left; auto].
  - apply pyval_eqb_neq in E. rewrite lookup_after_setitem_other in Hk0 by exact E.
    right. eauto.
Qed.

Lemma gains_short_add_symbol (g : BNF.t) (k : pyval) (terminal : bool) :
  gains_short_rules g (snd (BNF.add_symbol g k terminal)).
Proof.
  unfold BNF.add_symbol. destruct (contains k (BNF.symbols g)) eqn:E; simpl;
    [apply gains_short_refl | ].
  intros k0 s0 r Hk0 Hr. destruct (Py.eqb k0 k) eqn:E0.
  - apply pyval_eqb_eq in E0. subst k0. rewrite lookup_after_setitem_same in Hk0.
    injection Hk0 as <-. contradiction.
  - apply pyval_eqb_neq in E0. rewrite lookup_after_setitem_other in Hk0 by exact E0.
    right. eauto.
Qed.

Lemma gains_short_splitter (g g' : BNF.t) (parent : pyval) (rule : list pyval)
      (replacements : list (pyval * pyval * pyval)) :
  BNF.conversion_bin_splitter g parent rule = Ok (replacements, g') ->
  gains_short_rules g g'.
Proof.
  unfold BNF.conversion_bin_splitter.
  match goal with
  | |- context [fold_left ?f _ ?s] => set (body := f); set (start := s)
  end.
  assert (Hloop : let '(_, _, _, st) := fold_left body (all_but_last_two rule) start in
                  gains_short_rules g st).
  { apply (fold_left_inv
             (fun acc : list (pyval * pyval * pyval) * pyval * Z * BNF.t =>
                let '(_, _, _, st) := acc in gains_short_rules g st)).
    - intros item [[[reps prev] rid] st] _ Hst. unfold body.
      pose proof (gains_short_add_symbol st (PInt rid) false) as Hadd.
      destruct (BNF.add_symbol st (PInt rid) false) as [c st1]. simpl in Hadd.
      apply gains_short_trans with st; [exact Hst | ].
      apply gains_short_trans with st1; [exact Hadd | ].
      apply gains_short_same_symbols. reflexivity.
    - unfold start. apply gains_short_same_symbols. reflexivity. }
  destruct (fold_left body (all_but_last_two rule) start) as [[[reps prev] rid] st].
  intro H. bind_inv H. bind_inv H. injection H as _ <-. exact Hloop.
Qed.

(** Removing a rule from a symbol. *)
Lemma remove_rule_gone (k : pyval) (r0 : list pyval) (g g' : BNF.t) :
  BNF.do_on_symbol k (fun p => BNF_Symbol.remove_rule p r0) g = Ok g' ->
  forall s' r, lookup k (BNF.symbols g') = Some s' -> In r (BNF_Symbol.rules s') ->
    r <> r0 /\ exists s, lookup k (BNF.symbols g) = Some s /\ In r (BNF_Symbol.rules s).
Proof.
  intro H. apply do_on_symbol_inv in H. destruct H as [s [Hs ->]].
  intros s' r Hk Hr. rewrite lookup_after_setitem_same in Hk. injection Hk as <-.
  unfold BNF_Symbol.remove_rule in Hr.
  destruct (set_mem tuple_eqb r0 (BNF_Symbol.rules s)) eqn:E; simpl in Hr.
  - apply (set_remove_In tuple_eqb tuple_eqb_eq) in Hr. destruct Hr as [Hr Hne].
    split; [exact Hne | eauto].
  - split; [ | eauto]. intro Heq. subst r.
    apply (set_mem_In tuple_eqb tuple_eqb_eq) in Hr. congruence.
Qed.

(** The body of the inner loop of [conversion_bin] for one long rule. *)
Lemma conversion_bin_rule (symbol : pyval) (rule : list pyval) (st st' : BNF.t) :
  (replacements_st <- BNF.conversion_bin_splitter st symbol rule ;;
   let '(replacements, st2) := replacements_st in
   st3 <- for_each replacements
            (fun '(parent, symbol1, symbol2) a =>
               a1 <- BNF.do_on_symbol parent
                       (fun p => BNF_Symbol.add_rule p [symbol1; symbol2]) a ;;
               a2 <- BNF.do_on_symbol symbol1
                       (fun c => BNF_Symbol.add_parent c parent) a1 ;;
               BNF.do_on_symbol symbol2
                 (fun c => BNF_Symbol.add_parent c parent) a2)
            st2 ;;
   st4 <- BNF.do_on_symbol symbol
            (fun p => BNF_Symbol.remove_rule p rule) st3 ;;
   for_each rule
     (fun item a =>
        only <- BNF.is_only_subrule_with_daughter a symbol item ;;
        if (only : bool)
        then BNF.do_on_symbol item
               (fun c => BNF_Symbol.remove_parent c symbol) a
        else Ok a)
     st4) = Ok st' ->
  forall k s' r, lookup k (BNF.symbols st') = Some s' -> In r (BNF_Symbol.rules s') ->
    (length r <= 2)%nat \/
    (exists s, lookup k (BNF.symbols st) = Some s /\ In r (BNF_Symbol.rules s) /\
               (k = symbol -> r <> rule)).
Proof.
  intro H. bind_inv H. destruct a as [replacements st2].
  bind_inv H. bind_inv H.
  assert (H12 : gains_short_rules st st2)
    by (eapply gains_short_splitter; exact H_call).
  assert (H23 : gains_short_rules st2 a).
  { revert H_call0. apply for_each_inv; [ | apply gains_short_refl].
    intros [[parent s1] s2] b b' _ Hb Hbody. bind_inv Hbody. bind_inv Hbody.
    apply gains_short_trans with b; [exact Hb | ].
    apply gains_short_trans with a1.
    - apply (gains_short_do_on_symbol parent _ [[s1; s2]] b a1
               (adds_only_add_rule [s1; s2])); [ | exact Hbody_call].
      intros r [<- | []]. simpl. lia.
    - apply gains_short_trans with a2.
      + apply (gains_short_do_on_symbol s1 _ [] a1 a2 (adds_only_add_parent parent));
          [intros r [] | exact Hbody_call0].
      + apply (gains_short_do_on_symbol s2 _ [] a2 b' (adds_only_add_parent parent));
          [intros r [] | exact Hbody]. }
  assert (H45 : gains_short_rules a0 st').
  { revert H. apply for_each_inv; [ | apply gains_short_refl].
    intros item b b' _ Hb Hbody. bind_inv Hbody.
    destruct a1; [ | injection Hbody as <-; exact Hb].
    apply gains_short_trans with b; [exact Hb | ].
    apply (gains_short_do_on_symbol item _ [] b b' (adds_only_remove_parent symbol));
      [intros r [] | exact Hbody]. }
  intros k s' r Hk Hr.
  destruct (H45 k s' r Hk Hr) as [Hshort | [s4 [Hk4 Hr4]]]; [auto | ].
  assert (H3 : exists s3, lookup k (BNF.symbols a) = Some s3 /\
                          In r (BNF_Symbol.rules s3) /\ (k = symbol -> r <> rule)).
  { destruct (Py.eqb k symbol) eqn:E.
    - apply pyval_eqb_eq in E. subst k.
      destruct (remove_rule_gone symbol rule a a0 H_call1 s4 r Hk4 Hr4)
        as [Hne [s3 [Hk3 Hr3]]].
      exists s3. auto.
    - apply pyval_eqb_neq in E.
      apply do_on_symbol_inv in H_call1. destruct H_call1 as [s3 [Hs3 ->]].
      rewrite lookup_after_setitem_other in Hk4 by exact E.
      exists s4. repeat split; try assumption. intro; contradiction. }
  destruct H3 as [s3 [Hk3 [Hr3 Hne]]].
  destruct (H23 k s3 r Hk3 Hr3) as [Hshort | [s2 [Hk2 Hr2]]]; [auto | ].
  destruct (H12 k s2 r Hk2 Hr2) as [Hshort | [s1 [Hk1 Hr1]]]; [auto | ].
  right. exists s1. auto.
Qed.

(** The inner loop of [conversion_bin], over the rules still to visit. *)
Lemma conversion_bin_rules (symbol : pyval) (Q : pyval -> Prop) (rules : list (list pyval)) :
  forall st st',
    (forall k s r, lookup k (BNF.symbols st) = Some s -> In r (BNF_Symbol.rules s) ->
       (length r <= 2)%nat \/ Q k \/ (k = symbol /\ In r rules)) ->
    for_each rules
      (fun rule st1 =>
         if BNF.is_bin_applicable rule then
           '(replacements, st2) <- BNF.conversion_bin_splitter st1 symbol rule ;;
           st3 <- for_each replacements
                    (fun '(parent, symbol1, symbol2) a =>
                       a1 <- BNF.do_on_symbol parent
                               (fun p => BNF_Symbol.add_rule p [symbol1; symbol2]) a ;;
                       a2 <- BNF.do_on_symbol symbol1
                               (fun c => BNF_Symbol.add_parent c parent) a1 ;;
                       BNF.do_on_symbol symbol2
                         (fun c => BNF_Symbol.add_parent c parent) a2)
                    st2 ;;
           st4 <- BNF.do_on_symbol symbol
                    (fun p => BNF_Symbol.remove_rule p rule) st3 ;;
           for_each rule
             (fun item a =>
                only <- BNF.is_only_subrule_with_daughter a symbol item ;;
                if (only : bool)
                then BNF.do_on_symbol item
                       (fun c => BNF_Symbol.remove_parent c symbol) a
                else Ok a)
             st4
         else Ok st1)
      st = Ok st' ->
    forall k s r, lookup k (BNF.symbols st') = Some s -> In r (BNF_Symbol.rules s) ->
      (length r <= 2)%nat \/ Q k.
Proof.
  induction rules as [ | rule rules IH]; intros st st' Hinv H.
  - simpl in H. injection H as <-. intros k s r Hk Hr.
    destruct (Hinv k s r Hk Hr) as [H | [H | [_ []]]]; auto.
  - simpl in H. bind_inv H. apply (IH a st'); [ | exact H].
    intros k s r Hk Hr.
    destruct (BNF.is_bin_applicable rule) eqn:Ebin.
    + destruct (conversion_bin_rule symbol rule st a H_call k s r Hk Hr)
        as [Hshort | [s0 [Hk0 [Hr0 Hne]]]]; [auto | ].
      destruct (Hinv k s0 r Hk0 Hr0) as [Hs | [Hq | [Heq [Hhd | Htl]]]]; auto.
      exfalso. apply (Hne Heq). symmetry. exact Hhd.
    + injection H_call as <-.
      destruct (Hinv k s r Hk Hr) as [Hs | [Hq | [Heq [Hhd | Htl]]]]; auto.
      left. subst r. unfold BNF.is_bin_applicable in Ebin.
      apply Nat.ltb_ge in Ebin. exact Ebin.
Qed.

(** The outer loop of [conversion_bin], over the symbols still to visit. *)
Lemma conversion_bin_symbols (symbols : list pyval) :
  forall st st',
    (forall k s r, lookup k (BNF.symbols st) = Some s -> In r (BNF_Symbol.rules s) ->
       (length r <= 2)%nat \/ In k symbols) ->
    for_each symbols
      (fun symbol st0 =>
         s <- getitem symbol (BNF.symbols st0) ;;
         let oldrules := BNF_Symbol.get_rules s in
         for_each oldrules
           (fun rule st1 =>
              if BNF.is_bin_applicable rule then
                '(replacements, st2) <- BNF.conversion_bin_splitter st1 symbol rule ;;
                st3 <- for_each replacements
                         (fun '(parent, symbol1, symbol2) a =>
                            a1 <- BNF.do_on_symbol parent
                                    (fun p => BNF_Symbol.add_rule p [symbol1; symbol2]) a ;;
                            a2 <- BNF.do_on_symbol symbol1
                                    (fun c => BNF_Symbol.add_parent c parent) a1 ;;
                            BNF.do_on_symbol symbol2
                              (fun c => BNF_Symbol.add_parent c parent) a2)
                         st2 ;;
                st4 <- BNF.do_on_symbol symbol
                         (fun p => BNF_Symbol.remove_rule p rule) st3 ;;
                for_each rule
                  (fun item a =>
                     only <- BNF.is_only_subrule_with_daughter a symbol item ;;
                     if (only : bool)
                     then BNF.do_on_symbol item
                            (fun c => BNF_Symbol.remove_parent c symbol) a
                     else Ok a)
                  st4
              else Ok st1)
           st0)
      st = Ok st' ->
    forall k s r, lookup k (BNF.symbols st') = Some s -> In r (BNF_Symbol.rules s) ->
      (length r <= 2)%nat.
Proof.
  induction symbols as [ | symbol symbols IH]; intros st st' Hinv H.
  - simpl in H. injection H as <-. intros k s r Hk Hr.
    destruct (Hinv k s r Hk Hr) as [H | []]. exact H.
  - simpl in H. bind_inv H. apply (IH a st'); [ | exact H].
    bind_inv H_call. apply getitem_ok in H_call_call.
    apply (conversion_bin_rules symbol (fun k => In k symbols)
             (BNF_Symbol.get_rules a0) st a); [ | exact H_call].
    intros k s r Hk Hr. destruct (Hinv k s r Hk Hr) as [Hs | [<- | Hin]]; auto.
    right. right. split; [reflexivity | ].
    assert (s = a0) by congruence. subst s. exact Hr.
Qed.

(** X12. BIN.  When [conversion_bin] returns, no symbol of the
    table holds a rule of more than two members. *)
Theorem conversion_bin_leaves_short_rules (g g' : BNF.t) :
  BNF.conversion_bin g = Ok g' ->
  forall k s r, lookup k (BNF.symbols g') = Some s -> In r (BNF_Symbol.rules s) ->
    (length r <= 2)%nat.
Proof.
  unfold BNF.conversion_bin. apply conversion_bin_symbols.
  intros k s r Hk Hr. right. apply lookup_In in Hk.
  unfold keys. change k with (fst (k, s)). apply in_map. exact Hk.
Qed.

Lemma conversion_bin_leaves_short_rules_witness :
  exists g',
    BNF.conversion_bin (grammar_of long_and_unit_ops) = Ok g' /\
    forall k s r, lookup k (BNF.symbols g') = Some s -> In r (BNF_Symbol.rules s) ->
      (length r <= 2)%nat.
Proof.
  eexists. split; [vm_compute; reflexivity | ].
  apply (conversion_bin_leaves_short_rules (grammar_of long_and_unit_ops)).
  vm_compute. reflexivity.
Defined.

(** ** Grammars that [check_if_cnf] accepts *)

Lemma all_pass_all {A : Type} (xs : list A) (check : A -> result bool) :
  (forall x, In x xs -> check x = Ok true) -> all_pass xs check = Ok true.
Proof.
  induction xs as [ | x xs IH]; simpl; intro H; [reflexivity | ].
  rewrite (H x (or_introl eq_refl)). simpl. apply IH. auto.
Qed.

Lemma check_rule_cnf_rule (g : BNF.t) (rule : list pyval) :
  BNF.check_rule g rule = Ok true <-> cnf_rule g rule = true.
Proof.
  unfold BNF.check_rule, cnf_rule, getitem, is_terminal_in, is_nonterminal_in.
  destruct rule as [ | m1 [ | m2 [ | m3 rest]]]; [tauto | | | split; discriminate].
  - destruct (lookup m1 (BNF.symbols g)) as [s1 | ]; simpl;
      [split; congruence | split; discriminate].
  - destruct (lookup m1 (BNF.symbols g)) as [s1 | ]; simpl;
      [ | split; discriminate].
    destruct (BNF_Symbol.is_terminal s1); simpl; [split; discriminate | ].
    destruct (lookup m2 (BNF.symbols g)) as [s2 | ]; simpl;
      [split; congruence | split; discriminate].
Qed.

Lemma check_if_cnf_cnf_rules (g : BNF.t) :
  BNF.check_if_cnf g = Ok true -> all_rules (fun rule => cnf_rule g rule = true) g.
Proof.
  intros Hcnf k s r Hks Hr. apply check_rule_cnf_rule.
  exact (check_if_cnf_rule g k s r Hcnf Hks Hr).
Qed.

(** X13. [check_if_cnf] answers [True] exactly when every rule in
    the table has no member, or one member that is a terminal, or two
    members that are both non-terminals. *)
Theorem check_if_cnf_accepts (g : BNF.t) :
  BNF.check_if_cnf g = Ok true <-> all_rules (fun rule => cnf_rule g rule = true) g.
Proof.
  split; [apply check_if_cnf_cnf_rules | ].
  intro Hall. unfold BNF.check_if_cnf. apply all_pass_all. intros s Hs.
  apply in_values_lookup in Hs. destruct Hs as [k Hks].
  apply all_pass_all. intros r Hr. apply check_rule_cnf_rule.
  exact (Hall k s r Hks Hr).
Qed.

Lemma cnf_rule_not_necessary (g : BNF.t) (rule : list pyval) :
  cnf_rule g rule = true ->
  BNF.check_if_conversion_term_necessary g rule = Ok false.
Proof.
  unfold BNF.check_if_conversion_term_necessary, cnf_rule, getitem,
    is_terminal_in, is_nonterminal_in.
  destruct rule as [ | m1 [ | m2 [ | m3 rest]]]; [reflexivity | | | discriminate].
  - simpl. destruct (lookup m1 (BNF.symbols g)) as [s1 | ]; [ | discriminate].
    intro H. simpl. rewrite H. reflexivity.
  - simpl. destruct (lookup m1 (BNF.symbols g)) as [s1 | ]; [ | discriminate].
    destruct (lookup m2 (BNF.symbols g)) as [s2 | ];
      [ | rewrite andb_false_r; discriminate].
    intro H. apply andb_true_iff in H. destruct H as [H1 H2].
    apply negb_true_iff in H1. apply negb_true_iff in H2.
    simpl. rewrite H1. simpl. rewrite H2. reflexivity.
Qed.

Lemma cnf_rule_short (g : BNF.t) (rule : list pyval) :
  cnf_rule g rule = true -> BNF.is_bin_applicable rule = false.
Proof.
  destruct rule as [ | m1 [ | m2 [ | m3 rest]]]; try reflexivity. discriminate.
Qed.

Lemma key_lookup {V : Type} (k : pyval) (d : dict V) :
  In k (keys d) -> exists v, lookup k d = Some v.
Proof. intro H. apply contains_lookup. apply in_keys_contains. exact H. Qed.

Lemma no_start_on_right (g : BNF.t) :
  BNF.does_start_occur_on_right g = false -> BNF.conversion_start g = Ok g.
Proof. unfold BNF.conversion_start. intros ->. reflexivity. Qed.

(** X14. On a grammar that [check_if_cnf] accepts, TERM, BIN and
    UNIT return the grammar unchanged, and so does a whole pass when the
    start symbol occurs in no rule. *)
Theorem cnf_grammar_is_fixed (g : BNF.t) :
  BNF.check_if_cnf g = Ok true ->
  BNF.conversion_term g = Ok g /\
  BNF.conversion_bin g = Ok g /\
  BNF.conversion_unit g = Ok g /\
  (BNF.does_start_occur_on_right g = false -> BNF.conversion_pass g = Ok g).
Proof.
  intro Hcnf. apply check_if_cnf_cnf_rules in Hcnf.
  assert (Hterm : BNF.conversion_term g = Ok g).
  { unfold BNF.conversion_term. apply for_each_fixed. intros symbol Hin.
    destruct (key_lookup _ _ Hin) as [s Hs].
    rewrite (proj2 (getitem_ok _ _ _) Hs), bind_Ok.
    apply for_each_fixed. intros rule Hr.
    rewrite (cnf_rule_not_necessary g rule (Hcnf symbol s rule (lookup_In _ _ _ Hs) Hr)).
    reflexivity. }
  assert (Hbin : BNF.conversion_bin g = Ok g).
  { unfold BNF.conversion_bin. apply for_each_fixed. intros symbol Hin.
    destruct (key_lookup _ _ Hin) as [s Hs].
    rewrite (proj2 (getitem_ok _ _ _) Hs), bind_Ok.
    apply for_each_fixed. intros rule Hr.
    rewrite (cnf_rule_short g rule (Hcnf symbol s rule (lookup_In _ _ _ Hs) Hr)).
    reflexivity. }
  assert (Hunit : BNF.conversion_unit g = Ok g).
  { unfold BNF.conversion_unit.
    assert (Hcollect : BNF.conversion_unit_collect g = Ok ([], g)).
    { unfold BNF.conversion_unit_collect. apply for_each_fixed. intros symbol Hin.
      destruct (key_lookup _ _ Hin) as [s Hs].
      rewrite (proj2 (getitem_ok _ _ _) Hs), bind_Ok.
      apply for_each_fixed. intros rule Hr.
      pose proof (Hcnf symbol s rule (lookup_In _ _ _ Hs) Hr) as Hrule.
      destruct rule as [ | m1 [ | m2 rest]]; try reflexivity.
      unfold cnf_rule, is_terminal_in in Hrule. unfold getitem.
      destruct (lookup m1 (BNF.symbols g)) as [s1 | ]; [ | discriminate].
      rewrite bind_Ok, Hrule. reflexivity. }
    rewrite Hcollect. reflexivity. }
  repeat split; try assumption.
  intro Hstart. unfold BNF.conversion_pass, BNF.conversion_del.
  rewrite (no_start_on_right g Hstart), bind_Ok, Hterm, bind_Ok, Hbin, !bind_Ok.
  exact Hunit.
Qed.

Lemma cnf_grammar_is_fixed_witness :
  BNF.conversion_term (grammar_of ab_ops) = Ok (grammar_of ab_ops) /\
  BNF.conversion_bin (grammar_of ab_ops) = Ok (grammar_of ab_ops) /\
  BNF.conversion_unit (grammar_of ab_ops) = Ok (grammar_of ab_ops) /\
  (BNF.does_start_occur_on_right (grammar_of ab_ops) = false ->
   BNF.conversion_pass (grammar_of ab_ops) = Ok (grammar_of ab_ops)).
Proof.
  apply (cnf_grammar_is_fixed (grammar_of ab_ops)). vm_compute. reflexivity.
Defined.

(** ** Tags *)

Lemma set_unset_tags_eq (g : BNF.t) :
  BNF.set_unset_tags g
  = BNF.reset_start_symbol_for_cnf
      (BNF.set_tags g (snd (tags_loop (keys (BNF.symbols g)) 0 (BNF.tags g)))).
Proof.
  unfold BNF.set_unset_tags, tags_loop.
  destruct (fold_left _ (keys (BNF.symbols g)) (0, BNF.tags g)) as [tag tags'].
  reflexivity.
Qed.

Lemma tags_loop_nil (tag : Z) (tg : dict pyval) : tags_loop [] tag tg = (tag, tg).
Proof. reflexivity. Qed.

Lemma tags_loop_cons (k : pyval) (ks : list pyval) (tag : Z) (tg : dict pyval) :
  tags_loop (k :: ks) tag tg
  = if contains k tg then tags_loop ks tag tg
    else tags_loop ks (BNF.skip_used_tags (S (length tg)) tag (values tg))
           (setitem k (PInt (BNF.skip_used_tags (S (length tg)) tag (values tg))) tg).
Proof. unfold tags_loop. simpl. destruct (contains k tg); reflexivity. Qed.

Lemma count_from_le (tag : Z) (vals : list pyval) :
  (count_from (tag + 1) vals <= count_from tag vals)%nat.
Proof.
  unfold count_from. induction vals as [ | v vals IH]; simpl; [lia | ].
  destruct v as [ | z | m e | s | items]; simpl; try exact IH.
  destruct (tag + 1 <=? z) eqn:E1; destruct (tag <=? z) eqn:E2; simpl; lia.
Qed.

Lemma count_from_lt (tag : Z) (vals : list pyval) :
  In (PInt tag) vals -> (count_from (tag + 1) vals < count_from tag vals)%nat.
Proof.
  induction vals as [ | v vals IH]; simpl; [contradiction | ].
  intros [-> | H].
  - pose proof (count_from_le tag vals) as Hle. unfold count_from in *. simpl.
    rewrite Z.leb_refl. replace (tag + 1 <=? tag) with false
      by (symmetry; apply Z.leb_gt; lia).
    simpl. lia.
  - specialize (IH H). unfold count_from in *. simpl.
    destruct v as [ | z | m e | s | items]; simpl; try exact IH.
    destruct (tag + 1 <=? z) eqn:E1; destruct (tag <=? z) eqn:E2; simpl; lia.
Qed.

Lemma count_from_length (tag : Z) (vals : list pyval) :
  (count_from tag vals <= length vals)%nat.
Proof.
  unfold count_from. induction vals as [ | v vals IH]; simpl; [lia | ].
  destruct (match v with PInt z => tag <=? z | _ => false end); simpl; lia.
Qed.

(** With more fuel than there are integers from [tag] on among the values,
    the [while] loop stops at an integer that is not among them. *)
Lemma skip_used_tags_fresh (vals : list pyval) (fuel : nat) :
  forall tag, (count_from tag vals < fuel)%nat ->
    ~ In (PInt (BNF.skip_used_tags fuel tag vals)) vals /\
    tag <= BNF.skip_used_tags fuel tag vals.
Proof.
  induction fuel as [ | fuel IH]; intros tag Hfuel; [lia | ].
  simpl. destruct (set_mem Py.eqb (PInt tag) vals) eqn:E.
  - apply (set_mem_In Py.eqb pyval_eqb_eq) in E.
    pose proof (count_from_lt tag vals E) as Hlt.
    destruct (IH (tag + 1)) as [H1 H2]; [lia | ]. split; [exact H1 | lia].
  - split; [ | lia]. intro H. apply (set_mem_In Py.eqb pyval_eqb_eq) in H. congruence.
Qed.

Lemma values_length {V : Type} (d : dict V) : length (values d) = length d.
Proof. unfold values. apply length_map. Qed.

Lemma skip_used_tags_new (tag : Z) (tg : dict pyval) :
  ~ In (PInt (BNF.skip_used_tags (S (length tg)) tag (values tg))) (values tg) /\
  tag <= BNF.skip_used_tags (S (length tg)) tag (values tg).
Proof.
  apply skip_used_tags_fresh. pose proof (count_from_length tag (values tg)) as H.
  rewrite values_length in H. lia.
Qed.

Lemma values_setitem_new {V : Type} (k : pyval) (v : V) (d : dict V) :
  contains k d = false -> values (setitem k v d) = values d ++ [v].
Proof.
  unfold contains. induction d as [ | [k' v'] d IH]; simpl; [reflexivity | ].
  destruct (Py.eqb k k'); [discriminate | ]. intro H. simpl. rewrite IH by exact H.
  reflexivity.
Qed.

Lemma in_values_setitem {V : Type} (k : pyval) (v v0 : V) (d : dict V) :
  In v0 (values (setitem k v d)) -> v0 = v \/ In v0 (values d).
Proof.
  intro H. apply in_values_lookup in H. destruct H as [k0 H].
  apply in_setitem in H. destruct H as [H | H]; [auto | ].
  right. unfold values. change v0 with (snd (k0, v0)). apply in_map. exact H.
Qed.

Lemma nodup_values_setitem {V : Type} (k : pyval) (v : V) (d : dict V) :
  NoDup (values d) -> ~ In v (values d) -> NoDup (values (setitem k v d)).
Proof.
  induction d as [ | [k' v'] d IH]; simpl; intros Hnd Hv.
  - constructor; [intros [] | constructor].
  - inversion Hnd as [ | x l Hx Hl]; subst.
    destruct (Py.eqb k k'); simpl.
    + constructor; [tauto | exact Hl].
    + constructor; [ | apply IH; tauto].
      intro H. apply in_values_setitem in H. destruct H as [H | H]; [ | tauto].
      subst. tauto.
Qed.

Lemma nodup_values_injective {V : Type} (d : dict V) (k1 k2 : pyval) (v : V) :
  NoDup (values d) -> In (k1, v) d -> In (k2, v) d -> k1 = k2.
Proof.
  induction d as [ | [k' v'] d IH]; simpl; intros Hnd H1 H2; [contradiction | ].
  inversion Hnd as [ | x l Hx Hl]; subst.
  assert (Hin : forall k, In (k, v') d -> False).
  { intros k H. apply Hx. unfold values. change v' with (snd (k, v')).
    apply in_map. exact H. }
  destruct H1 as [H1 | H1]; destruct H2 as [H2 | H2].
  - congruence.
  - injection H1 as _ <-. destruct (Hin _ H2).
  - injection H2 as _ <-. destruct (Hin _ H1).
  - apply IH; assumption.
Qed.

(** What the loop of [set_unset_tags] does to the tags. *)
Lemma tags_loop_spec (ks : list pyval) :
  forall tag tg, 0 <= tag ->
    (forall k t, lookup k tg = Some t -> lookup k (snd (tags_loop ks tag tg)) = Some t) /\
    (forall k, In k ks -> contains k (snd (tags_loop ks tag tg)) = true) /\
    (forall k t, lookup k (snd (tags_loop ks tag tg)) = Some t ->
                 lookup k tg = Some t \/ exists z, 0 <= z /\ t = PInt z) /\
    (NoDup (values tg) -> NoDup (values (snd (tags_loop ks tag tg)))) /\
    (forall v, In v (values (snd (tags_loop ks tag tg))) ->
               In v (values tg) \/ exists z, v = PInt z).
Proof.
  induction ks as [ | k0 ks IH]; intros tag tg Htag.
  - rewrite tags_loop_nil. simpl. repeat split; auto; contradiction.
  - rewrite tags_loop_cons. destruct (contains k0 tg) eqn:E.
    + destruct (IH tag tg Htag) as [H1 [H2 [H3 [H4 H5]]]]. repeat split; auto.
      intros k [<- | Hk]; [ | auto].
      apply contains_lookup in E. destruct E as [t Ht].
      apply contains_lookup. exists t. auto.
    + destruct (skip_used_tags_new tag tg) as [Hfresh Hge].
      set (tag' := BNF.skip_used_tags (S (length tg)) tag (values tg)) in *.
      destruct (IH tag' (setitem k0 (PInt tag') tg)) as [H1 [H2 [H3 [H4 H5]]]]; [lia | ].
      assert (Hother : forall k, contains k tg = true -> k <> k0)
        by (intros k Hk ->; congruence).
      repeat split.
      * intros k t Hk. apply H1. rewrite lookup_setitem_other; [exact Hk | ].
        apply Hother. apply contains_lookup. eauto.
      * intros k [<- | Hk]; [ | auto]. apply contains_lookup. exists (PInt tag').
        apply H1. apply lookup_setitem_same.
      * intros k t Hk. destruct (H3 k t Hk) as [H | H]; [ | auto].
        destruct (Py.eqb k k0) eqn:Ek.
        -- apply pyval_eqb_eq in Ek. subst k. rewrite lookup_setitem_same in H.
           injection H as <-. right. exists tag'. split; [lia | reflexivity].
        -- apply pyval_eqb_neq in Ek. rewrite lookup_setitem_other in H by exact Ek.
           auto.
      * intro Hnd. apply H4. apply nodup_values_setitem; assumption.
      * intros v Hv. destruct (H5 v Hv) as [H | H]; [ | auto].
        apply in_values_setitem in H. destruct H as [-> | H]; eauto.
Qed.

Lemma set_unset_tags_fields (g : BNF.t) :
  BNF.symbols (BNF.set_unset_tags g) = BNF.symbols g /\
  BNF.start_symbol (BNF.set_unset_tags g) = BNF.start_symbol g /\
  lookup (PInt (BNF.start_symbol g)) (BNF.tags (BNF.set_unset_tags g)) = Some PNone /\
  (forall k, contains k (BNF.symbols g) = true ->
             contains k (BNF.tags (BNF.set_unset_tags g)) = true).
Proof.
  rewrite set_unset_tags_eq. unfold BNF.reset_start_symbol_for_cnf, BNF.set_tags. simpl.
  destruct (tags_loop_spec (keys (BNF.symbols g)) 0 (BNF.tags g)) as [_ [H2 _]];
    [lia | ].
  repeat split.
  - apply lookup_setitem_same.
  - intros k Hk. rewrite contains_setitem. apply orb_true_iff. right.
    apply H2. apply contains_lookup in Hk. destruct Hk as [s Hs].
    apply lookup_In in Hs. unfold keys. change k with (fst (k, s)).
    apply in_map. exact Hs.
Qed.

(** X15. [set_unset_tags] touches nothing but the tags.
    Afterwards the start symbol is tagged [None], every symbol of the table
    has a tag, every other symbol that had a tag keeps it, and a tag that
    was not there before is an integer that is not negative. *)
Theorem set_unset_tags_tags_every_symbol (g : BNF.t) :
  BNF.symbols (BNF.set_unset_tags g) = BNF.symbols g /\
  BNF.start_symbol (BNF.set_unset_tags g) = BNF.start_symbol g /\
  BNF.current_term_replacement (BNF.set_unset_tags g) = BNF.current_term_replacement g /\
  lookup (PInt (BNF.start_symbol g)) (BNF.tags (BNF.set_unset_tags g)) = Some PNone /\
  (forall k, contains k (BNF.symbols g) = true ->
             contains k (BNF.tags (BNF.set_unset_tags g)) = true) /\
  (forall k t, k <> PInt (BNF.start_symbol g) ->
     lookup k (BNF.tags g) = Some t ->
     lookup k (BNF.tags (BNF.set_unset_tags g)) = Some t) /\
  (forall k t, k <> PInt (BNF.start_symbol g) ->
     lookup k (BNF.tags (BNF.set_unset_tags g)) = Some t ->
     lookup k (BNF.tags g) = Some t \/ exists z, 0 <= z /\ t = PInt z).
Proof.
  rewrite set_unset_tags_eq. unfold BNF.reset_start_symbol_for_cnf, BNF.set_tags. simpl.
  destruct (tags_loop_spec (keys (BNF.symbols g)) 0 (BNF.tags g)) as [H1 [H2 [H3 _]]];
    [lia | ].
  repeat split.
  - apply lookup_setitem_same.
  - intros k Hk. rewrite contains_setitem. apply orb_true_iff. right.
    apply H2. apply contains_lookup in Hk. destruct Hk as [s Hs].
    apply lookup_In in Hs. unfold keys. change k with (fst (k, s)).
    apply in_map. exact Hs.
  - intros k t Hne Hk. rewrite lookup_setitem_other by exact Hne. auto.
  - intros k t Hne Hk. rewrite lookup_setitem_other in Hk by exact Hne. auto.
Qed.

(** X16. When the caller's tags are pairwise different and none
    is [None], no two keys have the same tag after [set_unset_tags]: the
    integers it hands out avoid the tags in use and each other. *)
Theorem set_unset_tags_distinct (g : BNF.t) :
  NoDup (values (BNF.tags g)) -> ~ In PNone (values (BNF.tags g)) ->
  forall k1 k2 t,
    lookup k1 (BNF.tags (BNF.set_unset_tags g)) = Some t ->
    lookup k2 (BNF.tags (BNF.set_unset_tags g)) = Some t ->
    k1 = k2.
Proof.
  intros Hnd Hnone k1 k2 t Hk1 Hk2.
  rewrite set_unset_tags_eq in Hk1, Hk2.
  unfold BNF.reset_start_symbol_for_cnf, BNF.set_tags in Hk1, Hk2. simpl in Hk1, Hk2.
  destruct (tags_loop_spec (keys (BNF.symbols g)) 0 (BNF.tags g))
    as [_ [_ [_ [H4 H5]]]]; [lia | ].
  apply lookup_In in Hk1. apply lookup_In in Hk2.
  refine (nodup_values_injective _ k1 k2 t _ Hk1 Hk2).
  apply nodup_values_setitem; [exact (H4 Hnd) | ].
  intro H. destruct (H5 PNone H) as [H0 | [z H0]]; [auto | discriminate].
Qed.

Lemma set_unset_tags_distinct_witness :
  NoDup (values (BNF.tags (grammar_of ab_ops))) /\
  ~ In PNone (values (BNF.tags (grammar_of ab_ops))) /\
  forall k1 k2 t,
    lookup k1 (BNF.tags (BNF.set_unset_tags (grammar_of ab_ops))) = Some t ->
    lookup k2 (BNF.tags (BNF.set_unset_tags (grammar_of ab_ops))) = Some t ->
    k1 = k2.
Proof.
  assert (Hnd : NoDup (values (BNF.tags (grammar_of ab_ops)))).
  { vm_compute. repeat constructor; simpl; intuition discriminate. }
  assert (Hnone : ~ In PNone (values (BNF.tags (grammar_of ab_ops)))).
  { vm_compute. intuition discriminate. }
  split; [exact Hnd | ]. split; [exact Hnone | ].
  exact (set_unset_tags_distinct (grammar_of ab_ops) Hnd Hnone).
Defined.

(** A tag [None] given by the caller is the tag of two symbols afterwards. *)
Example set_unset_tags_none_collides :
  let g := BNF.set_unset_tags
             (grammar_of [Op_add_symbol (PStr "a") true; Op_add_tag (PStr "a") PNone]) in
  lookup (PStr "a") (BNF.tags g) = Some PNone /\
  lookup (PInt 0) (BNF.tags g) = Some PNone.
Proof. split; reflexivity. Qed.

(** The tags that [set_unset_tags] gives on [0 -> A B], [A -> a], [B -> b]
    with the caller's tags for [a] and [b]. *)
Example set_unset_tags_ab :
  BNF.tags (BNF.set_unset_tags (grammar_of ab_ops))
  = [(PStr "a", PStr "a"); (PStr "b", PStr "b"); (PInt 0, PNone);
     (PStr "A", PInt 1); (PStr "B", PInt 2)].
Proof. reflexivity. Qed.

Lemma set_unset_tags_tags_every_symbol_witness :
  contains (PStr "A") (BNF.tags (BNF.set_unset_tags (grammar_of ab_ops))) = true /\
  lookup (PStr "a") (BNF.tags (BNF.set_unset_tags (grammar_of ab_ops)))
  = Some (PStr "a") /\
  (lookup (PStr "B") (BNF.tags (grammar_of ab_ops)) = Some (PInt 2) \/
   exists z, 0 <= z /\ PInt 2 = PInt z).
Proof.
  destruct (set_unset_tags_tags_every_symbol (grammar_of ab_ops))
    as [_ [_ [_ [_ [Hall [Hkept Hnew]]]]]].
  split; [apply Hall; reflexivity | ].
  split; [apply Hkept; [discriminate | reflexivity] | ].
  apply Hnew; [discriminate | reflexivity].
Defined.

(** ** The calls that build the phrase structure *)

Lemma symbols_loop_total (tags : dict pyval) (entries : dict BNF_Symbol.t) :
  (forall k s, In (k, s) entries -> contains k tags = true) ->
  forall acc, exists calls,
    for_each entries
      (fun '(symbol, s) calls =>
         symbol_tag <- getitem symbol tags ;;
         Ok (calls ++ [BNF.Call_add_symbol symbol_tag (BNF_Symbol.is_terminal s)]))
      acc = Ok calls.
Proof.
  induction entries as [ | [k0 s0] entries IH]; simpl; intros Htag acc; [eauto | ].
  destruct (proj1 (contains_lookup _ _) (Htag k0 s0 (or_introl eq_refl))) as [t Ht].
  rewrite (proj2 (getitem_ok _ _ _) Ht). simpl. apply IH.
  intros k s Hks. apply (Htag k s). auto.
Qed.

Lemma rules_loop_total (g : BNF.t) (t : pyval) (rules : list (list pyval)) :
  (forall r, In r rules -> exists new, BNF.rule_calls g t r = Ok new) ->
  forall cs, exists cs',
    for_each rules
      (fun rule cs => new <- BNF.rule_calls g t rule ;; Ok (cs ++ new)) cs = Ok cs' /\
    incl cs cs' /\
    forall r new, In r rules -> BNF.rule_calls g t r = Ok new -> incl new cs'.
Proof.
  induction rules as [ | r0 rules IH]; simpl; intros Hok cs.
  - exists cs. split; [reflexivity | ]. split; [apply incl_refl | ].
    intros r new [].
  - destruct (Hok r0 (or_introl eq_refl)) as [new0 Hnew0]. rewrite Hnew0. simpl.
    destruct (IH (fun r Hr => Hok r (or_intror Hr)) (cs ++ new0))
      as [cs' [Hrun [Hincl Hall]]].
    exists cs'. split; [exact Hrun | ]. split.
    + intros c Hc. apply Hincl. apply in_or_app. auto.
    + intros r new [<- | Hr] Hnew.
      * assert (new = new0) by congruence. subst new.
        intros c Hc. apply Hincl. apply in_or_app. auto.
      * exact (Hall r new Hr Hnew).
Qed.

Lemma entries_loop_total (g : BNF.t) (entries : dict BNF_Symbol.t) :
  (forall k s, In (k, s) entries ->
     contains k (BNF.tags g) = true /\
     forall r t, In r (BNF_Symbol.rules s) -> exists new, BNF.rule_calls g t r = Ok new) ->
  forall acc, exists calls,
    for_each entries
      (fun '(symbol, s) calls =>
         symbol_tag <- getitem symbol (BNF.tags g) ;;
         for_each (BNF_Symbol.get_rules s)
           (fun rule cs =>
              new <- BNF.rule_calls g symbol_tag rule ;;
              Ok (cs ++ new))
           calls)
      acc = Ok calls /\
    incl acc calls /\
    forall k s t r new,
      In (k, s) entries -> lookup k (BNF.tags g) = Some t ->
      In r (BNF_Symbol.rules s) -> BNF.rule_calls g t r = Ok new -> incl new calls.
Proof.
  induction entries as [ | [k0 s0] entries IH]; simpl; intros Hok acc.
  - exists acc. split; [reflexivity | ]. split; [apply incl_refl | ].
    intros k s t r new [].
  - destruct (Hok k0 s0 (or_introl eq_refl)) as [Htag Hrules].
    apply contains_lookup in Htag. destruct Htag as [t0 Ht0].
    rewrite (proj2 (getitem_ok _ _ _) Ht0). simpl.
    destruct (rules_loop_total g t0 (BNF_Symbol.get_rules s0)
                (fun r Hr => Hrules r t0 Hr) acc) as [cs [Hrun [Hincl Hall]]].
    rewrite Hrun. simpl.
    destruct (IH (fun k s Hks => Hok k s (or_intror Hks)) cs)
      as [calls [Hrun' [Hincl' Hall']]].
    exists calls. split; [exact Hrun' | ]. split.
    + intros c Hc. auto.
    + intros k s t r new [Heq | Hks] Ht Hr Hnew.
      * injection Heq as <- <-. assert (t = t0) by congruence. subst t.
        intros c Hc. apply Hincl'. exact (Hall r new Hr Hnew c Hc).
      * exact (Hall' k s t r new Hks Ht Hr Hnew).
Qed.

Lemma cnf_rule_declared (g : BNF.t) (rule : list pyval) :
  cnf_rule g rule = true ->
  match rule with
  | [m] => contains m (BNF.symbols g) = true
  | [m1; m2] => contains m1 (BNF.symbols g) = true /\ contains m2 (BNF.symbols g) = true
  | _ => True
  end.
Proof.
  unfold cnf_rule, is_terminal_in, is_nonterminal_in, contains.
  destruct rule as [ | m1 [ | m2 [ | m3 rest]]]; auto.
  - destruct (lookup m1 (BNF.symbols g)); [reflexivity | discriminate].
  - destruct (lookup m1 (BNF.symbols g)); [ | discriminate].
    destruct (lookup m2 (BNF.symbols g)); [auto | ].
    rewrite andb_false_r. discriminate.
Qed.

(** X17. On a grammar that [check_if_cnf] accepts,
    [create_phrase_structure] does not raise, and [convert_to_cnf] returns
    its result without a pass.  Every symbol is declared to the phrase
    structure under its tag with its kind, every rule of one member is
    handed over with [add_terminal_rule] and every rule of two members with
    [add_intermediate_rule], members and parent under their tags. *)
Theorem create_phrase_structure_complete (g : BNF.t) :
  BNF.check_if_cnf g = Ok true ->
  exists calls,
    BNF.create_phrase_structure g = Ok (calls, BNF.set_unset_tags g) /\
    (forall fuel, BNF.convert_to_cnf (S fuel) g = Some (Ok (calls, BNF.set_unset_tags g))) /\
    forall k s, In (k, s) (BNF.symbols g) ->
      exists t, lookup k (BNF.tags (BNF.set_unset_tags g)) = Some t /\
        In (BNF.Call_add_symbol t (BNF_Symbol.is_terminal s)) calls /\
        (forall m, In [m] (BNF_Symbol.rules s) ->
           exists tm, lookup m (BNF.tags (BNF.set_unset_tags g)) = Some tm /\
                      In (BNF.Call_add_terminal_rule t tm) calls) /\
        (forall m1 m2, In [m1; m2] (BNF_Symbol.rules s) ->
           exists t1 t2,
             lookup m1 (BNF.tags (BNF.set_unset_tags g)) = Some t1 /\
             lookup m2 (BNF.tags (BNF.set_unset_tags g)) = Some t2 /\
             In (BNF.Call_add_intermediate_rule t t1 t2) calls).
Proof.
  intro Hcnf. pose proof (check_if_cnf_cnf_rules g Hcnf) as Hall.
  destruct (set_unset_tags_fields g) as [Hsym [_ [_ Htagged]]].
  set (g1 := BNF.set_unset_tags g) in *.
  assert (Hkey : forall k s, In (k, s) (BNF.symbols g1) -> contains k (BNF.tags g1) = true).
  { intros k s Hks. apply Htagged. apply in_keys_contains. rewrite <- Hsym.
    unfold keys. change k with (fst (k, s)). apply in_map. exact Hks. }
  assert (Hmember : forall m, contains m (BNF.symbols g) = true ->
                              exists tm, lookup m (BNF.tags g1) = Some tm).
  { intros m Hm. apply contains_lookup. apply Htagged. exact Hm. }
  assert (Hrule : forall k s r t, In (k, s) (BNF.symbols g1) -> In r (BNF_Symbol.rules s) ->
                    exists new, BNF.rule_calls g1 t r = Ok new).
  { intros k s r t Hks Hr. rewrite Hsym in Hks.
    pose proof (cnf_rule_declared g r (Hall k s r Hks Hr)) as Hdecl.
    unfold BNF.rule_calls. destruct r as [ | m1 [ | m2 [ | m3 rest]]]; eauto.
    - destruct (Hmember m1 Hdecl) as [t1 Ht1].
      rewrite (proj2 (getitem_ok _ _ _) Ht1). simpl. eauto.
    - destruct Hdecl as [Hd1 Hd2].
      destruct (Hmember m1 Hd1) as [t1 Ht1]. destruct (Hmember m2 Hd2) as [t2 Ht2].
      rewrite (proj2 (getitem_ok _ _ _) Ht1), (proj2 (getitem_ok _ _ _) Ht2).
      simpl. eauto. }
  destruct (symbols_loop_total (BNF.tags g1) (BNF.symbols g1) Hkey []) as [calls1 Hrun1].
  destruct (entries_loop_total g1 (BNF.symbols g1)
              (fun k s Hks => conj (Hkey k s Hks)
                                   (fun r t Hr => Hrule k s r t Hks Hr)) calls1)
    as [calls [Hrun2 [Hincl Hrules]]].
  assert (Hcreate : BNF.create_phrase_structure g = Ok (calls, g1)).
  { unfold BNF.create_phrase_structure. fold g1. rewrite Hrun1, bind_Ok, Hrun2.
    reflexivity. }
  exists calls. split; [exact Hcreate | ]. split.
  { intro fuel. simpl. rewrite Hcnf, Hcreate. reflexivity. }
  intros k s Hks. rewrite <- Hsym in Hks.
  destruct (add_symbol_calls _ _ _ _ Hrun1) as [_ Hdeclared].
  destruct (Hdeclared k s Hks) as [t [Ht Hin]].
  exists t. split; [exact Ht | ]. split; [apply Hincl; exact Hin | ]. split.
  - intros m Hm. rewrite Hsym in Hks.
    pose proof (cnf_rule_declared g [m] (Hall k s [m] Hks Hm)) as Hdecl.
    destruct (Hmember m Hdecl) as [tm Htm]. exists tm. split; [exact Htm | ].
    rewrite <- Hsym in Hks.
    apply (Hrules k s t [m] [BNF.Call_add_terminal_rule t tm] Hks Ht Hm);
      [ | simpl; auto].
    unfold BNF.rule_calls. rewrite (proj2 (getitem_ok _ _ _) Htm). reflexivity.
  - intros m1 m2 Hm. rewrite Hsym in Hks.
    destruct (cnf_rule_declared g [m1; m2] (Hall k s [m1; m2] Hks Hm)) as [Hd1 Hd2].
    destruct (Hmember m1 Hd1) as [t1 Ht1]. destruct (Hmember m2 Hd2) as [t2 Ht2].
    exists t1, t2. split; [exact Ht1 | ]. split; [exact Ht2 | ].
    rewrite <- Hsym in Hks.
    apply (Hrules k s t [m1; m2] [BNF.Call_add_intermediate_rule t t1 t2] Hks Ht Hm);
      [ | simpl; auto].
    unfold BNF.rule_calls.
    rewrite (proj2 (getitem_ok _ _ _) Ht1), (proj2 (getitem_ok _ _ _) Ht2). reflexivity.
Qed.

Lemma create_phrase_structure_complete_witness :
  exists calls,
    BNF.create_phrase_structure (grammar_of ab_ops)
    = Ok (calls, BNF.set_unset_tags (grammar_of ab_ops)) /\
    In (BNF.Call_add_intermediate_rule PNone (PInt 1) (PInt 2)) calls /\
    In (BNF.Call_add_terminal_rule (PInt 1) (PStr "a")) calls.
Proof.
  destruct (create_phrase_structure_complete (grammar_of ab_ops))
    as [calls [Hcreate [_ Hall]]]; [vm_compute; reflexivity | ].
  exists calls. split; [exact Hcreate | ]. split.
  - destruct (Hall (PInt 0)
                (BNF_Symbol.mk (PInt 0) [[PStr "A"; PStr "B"]] [] false))
      as [t [Ht [_ [_ Hpair]]]]; [vm_compute; auto | ].
    destruct (Hpair (PStr "A") (PStr "B")) as [t1 [t2 [Ht1 [Ht2 Hin]]]];
      [simpl; auto | ].
    vm_compute in Ht, Ht1, Ht2.
    injection Ht as <-. injection Ht1 as <-. injection Ht2 as <-. exact Hin.
  - destruct (Hall (PStr "A")
                (BNF_Symbol.mk (PStr "A") [[PStr "a"]] [PInt 0] false))
      as [t [Ht [_ [Hone _]]]]; [vm_compute; auto 10 | ].
    destruct (Hone (PStr "a")) as [tm [Htm Hin]]; [simpl; auto | ].
    vm_compute in Ht, Htm.
    injection Ht as <-. injection Htm as <-. exact Hin.
Defined.

(** ** Converting a second time *)

Lemma tags_loop_tagged (ks : list pyval) :
  forall tag tg, (forall k, In k ks -> contains k tg = true) ->
                 tags_loop ks tag tg = (tag, tg).
Proof.
  induction ks as [ | k0 ks IH]; intros tag tg H; [reflexivity | ].
  rewrite tags_loop_cons, (H k0 (or_introl eq_refl)). apply IH.
  intros k Hk. apply H. right. exact Hk.
Qed.

Lemma set_unset_tags_twice (g : BNF.t) :
  BNF.set_unset_tags (BNF.set_unset_tags g) = BNF.set_unset_tags g.
Proof.
  destruct (set_unset_tags_fields g) as [Hsym [Hstart [Hnone Htagged]]].
  set (g1 := BNF.set_unset_tags g) in *.
  rewrite (set_unset_tags_eq g1), tags_loop_tagged.
  - simpl. unfold BNF.reset_start_symbol_for_cnf, BNF.set_tags. simpl.
    rewrite <- Hstart in Hnone. rewrite (setitem_same _ _ _ Hnone). apply grammar_eta.
  - intros k Hk. apply Htagged. rewrite <- Hsym. apply in_keys_contains. exact Hk.
Qed.

Lemma all_pass_ext {A : Type} (xs : list A) (check1 check2 : A -> result bool) :
  (forall x, In x xs -> check1 x = check2 x) ->
  all_pass xs check1 = all_pass xs check2.
Proof.
  induction xs as [ | x xs IH]; simpl; intro H; [reflexivity | ].
  rewrite (H x (or_introl eq_refl)). destruct (check2 x) as [[ | ] | e]; simpl; auto.
Qed.

Lemma check_if_cnf_symbols (g g' : BNF.t) :
  BNF.symbols g' = BNF.symbols g -> BNF.check_if_cnf g' = BNF.check_if_cnf g.
Proof.
  intro Hsym. unfold BNF.check_if_cnf. rewrite Hsym.
  apply all_pass_ext. intros s _. apply all_pass_ext. intros r _.
  unfold BNF.check_rule. rewrite Hsym. reflexivity.
Qed.

(** X18. The grammar that [convert_to_cnf] leaves behind is
    accepted by [check_if_cnf], and calling [convert_to_cnf] on it again
    returns the same calls and the same grammar without a pass. *)
Theorem convert_to_cnf_again (fuel : nat) (g g' : BNF.t) (calls : list BNF.ps_call) :
  BNF.convert_to_cnf fuel g = Some (Ok (calls, g')) ->
  BNF.check_if_cnf g' = Ok true /\
  forall fuel', BNF.convert_to_cnf (S fuel') g' = Some (Ok (calls, g')).
Proof.
  intro H. destruct (convert_to_cnf_returns fuel g _ H) as [g0 [Hcnf Hcreate]].
  assert (Hg' : g' = BNF.set_unset_tags g0).
  { unfold BNF.create_phrase_structure in Hcreate.
    bind_inv Hcreate. bind_inv Hcreate. injection Hcreate as _ <-. reflexivity. }
  assert (Hcnf' : BNF.check_if_cnf g' = Ok true).
  { rewrite Hg', (check_if_cnf_symbols g0 _ (symbols_set_unset_tags g0)). exact Hcnf. }
  split; [exact Hcnf' | ]. intro fuel'. simpl. rewrite Hcnf'.
  unfold BNF.create_phrase_structure in *. rewrite Hg', set_unset_tags_twice.
  rewrite <- Hg'. rewrite <- Hg' in Hcreate. rewrite Hcreate. reflexivity.
Qed.

Lemma convert_to_cnf_again_witness :
  exists calls g',
    BNF.convert_to_cnf 2 (grammar_of long_and_unit_ops) = Some (Ok (calls, g')) /\
    BNF.check_if_cnf g' = Ok true /\
    forall fuel', BNF.convert_to_cnf (S fuel') g' = Some (Ok (calls, g')).
Proof.
  eexists. eexists. split; [vm_compute; reflexivity | ].
  apply (convert_to_cnf_again 2 (grammar_of long_and_unit_ops)).
  vm_compute. reflexivity.
Defined.

(** ** The recognizer *)

Lemma index_nat {A : Type} (l : list A) (i : nat) :
  index l (Z.of_nat i)
  = match nth_error l i with Some x => Ok x | None => Raise IndexError end.
Proof.
  destruct (nth_error l i) as [x | ] eqn:E; [apply index_nth; exact E | ].
  apply nth_error_None in E. unfold index.
  destruct (Z.of_nat i <? 0) eqn:E1; [apply Z.ltb_lt in E1; lia | ].
  rewrite E1. simpl.
  destruct (Z.of_nat (length l) <=? Z.of_nat i) eqn:E2; [reflexivity | ].
  apply Z.leb_gt in E2. lia.
Qed.

Lemma cell_nat (table : CYK.cyk_table) (i j : nat) :
  CYK.cell table (Z.of_nat i) (Z.of_nat j)
  = match table_cell table i j with Some c => Ok c | None => Raise IndexError end.
Proof.
  unfold CYK.cell, table_cell. rewrite index_nat.
  destruct (nth_error table i) as [r | ]; simpl; [apply index_nat | reflexivity].
Qed.

Lemma cell_last (table : CYK.cyk_table) (n : nat) :
  length table = S n ->
  CYK.cell table (-1) 0
  = match table_cell table n 0 with Some c => Ok c | None => Raise IndexError end.
Proof.
  intro Hlen. rewrite <- (cell_nat table n 0). unfold CYK.cell. f_equal.
  unfold index. rewrite Hlen.
  replace (-1 <? 0) with true by reflexivity.
  replace (Z.of_nat n <? 0) with false by (symmetry; apply Z.ltb_ge; lia).
  replace (-1 + Z.of_nat (S n)) with (Z.of_nat n) by lia.
  reflexivity.
Qed.

Lemma nth_error_list_set {A : Type} (l : list A) (i : nat) (v : A) :
  forall k,
    nth_error (CYK.list_set l i v) k
    = if Nat.eqb k i
      then match nth_error l i with Some _ => Some v | None => None end
      else nth_error l k.
Proof.
  revert i. induction l as [ | x l IH]; intros i k.
  - destruct i, k; simpl; try reflexivity. destruct (Nat.eqb k i); reflexivity.
  - destruct i, k; simpl; try reflexivity. apply IH.
Qed.

Lemma cell_add_eq (table : CYK.cyk_table) (i j : nat) (x : pyval) :
  CYK.cell_add table i j x
  = match nth_error table i with
    | Some r =>
        match nth_error r j with
        | Some c => Ok (CYK.list_set table i (CYK.list_set r j (set_add Py.eqb x c)))
        | None => Raise IndexError
        end
    | None => Raise IndexError
    end.
Proof.
  unfold CYK.cell_add. rewrite index_nat.
  destruct (nth_error table i) as [r | ]; simpl; [ | reflexivity].
  rewrite index_nat. destruct (nth_error r j); reflexivity.
Qed.

Lemma table_cell_cell_add (table table' : CYK.cyk_table) (i j : nat) (x : pyval) :
  CYK.cell_add table i j x = Ok table' ->
  forall i' j',
    table_cell table' i' j'
    = if Nat.eqb i' i && Nat.eqb j' j
      then option_map (set_add Py.eqb x) (table_cell table i j)
      else table_cell table i' j'.
Proof.
  rewrite cell_add_eq. unfold table_cell.
  destruct (nth_error table i) as [r | ] eqn:Er; [ | discriminate].
  destruct (nth_error r j) as [c | ] eqn:Ec; [ | discriminate].
  intro H. injection H as <-. intros i' j'.
  rewrite nth_error_list_set, Er.
  destruct (Nat.eqb i' i) eqn:Ei; simpl; [ | reflexivity].
  apply Nat.eqb_eq in Ei. subst i'.
  rewrite nth_error_list_set, Ec, ?Er.
  destruct (Nat.eqb j' j); reflexivity.
Qed.

Lemma table_shape_cell_add (size : nat) (table table' : CYK.cyk_table)
      (i j : nat) (x : pyval) :
  CYK.cell_add table i j x = Ok table' ->
  table_shape size table -> table_shape size table'.
Proof.
  rewrite cell_add_eq.
  destruct (nth_error table i) as [r | ] eqn:Er; [ | discriminate].
  destruct (nth_error r j) as [c | ] eqn:Ec; [ | discriminate].
  intro H. injection H as <-. intros [Hlen Hrows]. split.
  - rewrite list_set_length. exact Hlen.
  - intros i' r' Hr'. rewrite nth_error_list_set, Er in Hr'.
    destruct (Nat.eqb i' i) eqn:Ei.
    + apply Nat.eqb_eq in Ei. subst i'. injection Hr' as <-.
      rewrite list_set_length. apply Hrows. exact Er.
    + apply Hrows. exact Hr'.
Qed.

Lemma table_shape_cell (size : nat) (table : CYK.cyk_table) (i j : nat) :
  table_shape size table -> (i < size)%nat -> (j < size - i)%nat ->
  exists c, table_cell table i j = Some c.
Proof.
  intros [Hlen Hrows] Hi Hj. unfold table_cell.
  destruct (nth_error table i) as [r | ] eqn:Er;
    [ | apply nth_error_None in Er; lia].
  destruct (nth_error r j) as [c | ] eqn:Ec; [eauto | ].
  apply nth_error_None in Ec. rewrite (Hrows i r Er) in Ec. lia.
Qed.

Lemma cell_add_total (size : nat) (table : CYK.cyk_table) (i j : nat) (x : pyval) :
  table_shape size table -> (i < size)%nat -> (j < size - i)%nat ->
  exists table', CYK.cell_add table i j x = Ok table'.
Proof.
  intros Hshape Hi Hj.
  destruct (table_shape_cell size table i j Hshape Hi Hj) as [c Hc].
  rewrite cell_add_eq. unfold table_cell in Hc.
  destruct (nth_error table i) as [r | ]; [ | discriminate].
  rewrite Hc. eauto.
Qed.

Lemma table_all_cell_add (P : nat -> nat -> pyval -> Prop)
      (table table' : CYK.cyk_table) (i j : nat) (x : pyval) :
  CYK.cell_add table i j x = Ok table' ->
  table_all P table -> P i j x -> table_all P table'.
Proof.
  intros Hadd Hall Hx i' j' c' y Hc' Hy.
  rewrite (table_cell_cell_add _ _ _ _ _ Hadd) in Hc'.
  destruct (Nat.eqb i' i && Nat.eqb j' j) eqn:E.
  - apply andb_true_iff in E. destruct E as [Ei Ej].
    apply Nat.eqb_eq in Ei. apply Nat.eqb_eq in Ej. subst i' j'.
    destruct (table_cell table i j) as [c | ] eqn:Ec; [ | discriminate].
    simpl in Hc'. injection Hc' as <-.
    apply (set_add_In Py.eqb pyval_eqb_eq) in Hy. destruct Hy as [-> | Hy];
      [exact Hx | exact (Hall i j c y Ec Hy)].
  - exact (Hall i' j' c' y Hc' Hy).
Qed.

Lemma pair_eqb_eq (x y : pyval * pyval) : BNF.pair_eqb x y = true <-> x = y.
Proof.
  destruct x as [a b], y as [a' b']. unfold BNF.pair_eqb. simpl.
  rewrite andb_true_iff, !pyval_eqb_eq. split; [intros [-> ->]; reflexivity | ].
  intro H. injection H as -> ->. auto.
Qed.

Lemma fold_set_add_pairs (item1 : pyval) (right : list pyval) :
  forall pairs a b,
    In (a, b) (fold_left (fun ps item2 => set_add BNF.pair_eqb (item1, item2) ps)
                         right pairs)
    <-> In (a, b) pairs \/ (a = item1 /\ In b right).
Proof.
  induction right as [ | y right IH]; intros pairs a b; simpl.
  - tauto.
  - rewrite IH, (set_add_In BNF.pair_eqb pair_eqb_eq). split.
    + intros [[H | H] | [H1 H2]]; auto. injection H as -> ->. auto.
    + intros [H | [H1 [H2 | H2]]]; auto. subst. auto.
Qed.

(** Where the pairs of [get_cyk_pairs] come from. *)
Lemma get_cyk_pairs_inv (table : CYK.cyk_table) (row column : nat)
      (pairs : list (pyval * pyval)) :
  CYK.get_cyk_pairs table row column = Ok pairs ->
  forall a b, In (a, b) pairs ->
    exists k c1 c2,
      (k < row)%nat /\
      table_cell table k column = Some c1 /\ In a c1 /\
      table_cell table (row - k - 1) (column + k + 1) = Some c2 /\ In b c2.
Proof.
  unfold CYK.get_cyk_pairs.
  set (Q := fun pairs : list (pyval * pyval) =>
              forall a b, In (a, b) pairs ->
                exists k c1 c2,
                  (k < row)%nat /\
                  table_cell table k column = Some c1 /\ In a c1 /\
                  table_cell table (row - k - 1) (column + k + 1) = Some c2 /\
                  In b c2).
  intro H. change (Q pairs). revert H. apply (for_each_inv Q).
  - intros left_i ps ps' Hin HQ Hbody. apply in_seq in Hin.
    bind_inv Hbody. rewrite cell_nat in Hbody_call.
    destruct (table_cell table left_i column) as [c1 | ] eqn:E1; [ | discriminate].
    injection Hbody_call as <-.
    revert Hbody. apply (for_each_inv Q).
    + intros item1 ps1 ps1' Hitem HQ1 Hbody1. bind_inv Hbody1.
      rewrite cell_nat in Hbody1_call.
      destruct (table_cell table (row - left_i - 1) (column + left_i + 1))
        as [c2 | ] eqn:E2; [ | discriminate].
      injection Hbody1_call as <-. injection Hbody1 as <-.
      intros a b Hab. apply fold_set_add_pairs in Hab.
      destruct Hab as [Hab | [-> Hb]]; [exact (HQ1 a b Hab) | ].
      exists left_i, c1, c2. repeat split; try assumption. lia.
    + exact HQ.
  - intros a b [].
Qed.

Lemma get_common_parents_inv (ps : PhraseStructure.t) (a b : pyval)
      (common : list pyval) :
  CYK.get_common_parents ps a b = Ok common ->
  exists sa sb,
    lookup a (PhraseStructure.symbols ps) = Some sa /\
    lookup b (PhraseStructure.symbols ps) = Some sb /\
    forall p, In p common <->
              In p (PhraseStructure.get_parents sa) /\
              In p (PhraseStructure.get_parents sb).
Proof.
  unfold CYK.get_common_parents. intro H. bind_inv H. bind_inv H.
  injection H as <-. apply getitem_ok in H_call, H_call0.
  exists a0, a1. split; [exact H_call | ]. split; [exact H_call0 | ].
  intro p. unfold set_inter. rewrite filter_In.
  rewrite (set_mem_In Py.eqb pyval_eqb_eq). tauto.
Qed.

(** A row of the table is filled from the rows above it. *)
Lemma fill_cyk_row_inv (P : nat -> nat -> pyval -> Prop) (ps : PhraseStructure.t)
      (row : nat) (table table' : CYK.cyk_table) :
  (forall column k a b p sa sb sp,
     (k < row)%nat -> P k column a -> P (row - k - 1)%nat (column + k + 1)%nat b ->
     lookup a (PhraseStructure.symbols ps) = Some sa ->
     lookup b (PhraseStructure.symbols ps) = Some sb ->
     In p (PhraseStructure.get_parents sa) ->
     In p (PhraseStructure.get_parents sb) ->
     lookup p (PhraseStructure.symbols ps) = Some sp ->
     In [a; b] (PhraseStructure.get_rules sp) ->
     P row column p) ->
  CYK.fill_cyk_row ps row table = Ok table' ->
  table_all P table -> table_all P table'.
Proof.
  intros Hstep H Hall. unfold CYK.fill_cyk_row in H. bind_inv H.
  revert H. apply (for_each_inv (table_all P)); [ | exact Hall].
  intros column tbl tbl' _ Htbl Hbody. bind_inv Hbody.
  pose proof (get_cyk_pairs_inv tbl row column a0 Hbody_call) as Hpairs.
  assert (Hfacts : forall x y, In (x, y) a0 ->
            exists k, (k < row)%nat /\ P k column x /\
                      P (row - k - 1)%nat (column + k + 1)%nat y).
  { intros x y Hxy. destruct (Hpairs x y Hxy) as [k [c1 [c2 [Hk [H1 [Hx [H2 Hy]]]]]]].
    exists k. split; [exact Hk | ]. split.
    - exact (Htbl k column c1 x H1 Hx).
    - exact (Htbl _ _ c2 y H2 Hy). }
  revert Hbody. apply (for_each_inv (table_all P)); [ | exact Htbl].
  intros [x y] tbl1 tbl1' Hxy Htbl1 Hbody1. bind_inv Hbody1.
  destruct (get_common_parents_inv ps x y a1 Hbody1_call)
    as [sa [sb [Hsa [Hsb Hcommon]]]].
  destruct (Hfacts x y Hxy) as [k [Hk [Hx Hy]]].
  revert Hbody1. apply (for_each_inv (table_all P)); [ | exact Htbl1].
  intros parent tbl2 tbl2' Hparent Htbl2 Hbody2. bind_inv Hbody2.
  apply getitem_ok in Hbody2_call. apply Hcommon in Hparent.
  destruct Hparent as [Hpa Hpb].
  destruct (set_mem tuple_eqb [x; y] (PhraseStructure.get_rules a2)) eqn:Erule.
  - apply (set_mem_In tuple_eqb tuple_eqb_eq) in Erule.
    apply (table_all_cell_add P tbl2 tbl2' row column parent Hbody2 Htbl2).
    exact (Hstep column k x y parent sa sb a2 Hk Hx Hy Hsa Hsb Hpa Hpb Hbody2_call Erule).
  - injection Hbody2 as <-. exact Htbl2.
Qed.

(** The base row holds the parents of the symbols of the sequence. *)
Lemma fill_base_row_inv (P : nat -> nat -> pyval -> Prop) (ps : PhraseStructure.t)
      (symbol_list : list pyval) (table table' : CYK.cyk_table) :
  (forall column sym s p,
     nth_error symbol_list column = Some sym ->
     lookup sym (PhraseStructure.symbols ps) = Some s ->
     In p (PhraseStructure.get_parents s) ->
     P 0%nat column p) ->
  CYK.fill_base_row ps symbol_list table = Ok table' ->
  table_all P table -> table_all P table'.
Proof.
  intros Hbase H Hall. unfold CYK.fill_base_row in H.
  revert H. apply (for_each_inv (table_all P)); [ | exact Hall].
  intros column tbl tbl' _ Htbl Hbody. bind_inv Hbody. bind_inv Hbody.
  rewrite index_nat in Hbody_call.
  destruct (nth_error symbol_list column) as [sym | ] eqn:Esym; [ | discriminate].
  injection Hbody_call as <-. apply getitem_ok in Hbody_call0.
  revert Hbody. apply (for_each_inv (table_all P)); [ | exact Htbl].
  intros parent tbl1 tbl1' Hparent Htbl1 Hbody1.
  apply (table_all_cell_add P tbl1 tbl1' 0 column parent Hbody1 Htbl1).
  exact (Hbase column sym a0 parent Esym Hbody_call0 Hparent).
Qed.

Lemma nth_error_rows (size : nat) (len : nat) :
  forall start i r,
    nth_error (map (fun i => repeat ([] : list pyval) (size - i)) (seq start len)) i
    = Some r ->
    (i < len)%nat /\ r = repeat [] (size - (start + i)).
Proof.
  induction len as [ | len IH]; intros start i r H; simpl in H.
  - destruct i; discriminate.
  - destruct i as [ | i]; simpl in H.
    + injection H as <-. rewrite Nat.add_0_r. split; [lia | reflexivity].
    + destruct (IH (S start) i r H) as [Hi ->]. split; [lia | ].
      f_equal. lia.
Qed.

Lemma generate_cyk_table_shape (size : nat) :
  table_shape size (CYK.generate_cyk_table size) /\
  forall i j c, table_cell (CYK.generate_cyk_table size) i j = Some c -> c = [].
Proof.
  unfold CYK.generate_cyk_table. split; [split | ].
  - rewrite length_map, length_seq. reflexivity.
  - intros i r Hr. apply nth_error_rows in Hr. destruct Hr as [_ ->].
    rewrite repeat_length. reflexivity.
  - intros i j c Hc. unfold table_cell in Hc.
    destruct (nth_error _ i) as [r | ] eqn:Er; [ | discriminate].
    apply nth_error_rows in Er. destruct Er as [_ ->].
    apply nth_error_In in Hc. apply repeat_spec in Hc. exact Hc.
Qed.

Lemma table_all_generate (P : nat -> nat -> pyval -> Prop) (size : nat) :
  table_all P (CYK.generate_cyk_table size).
Proof.
  intros i j c x Hc Hx.
  rewrite (proj2 (generate_cyk_table_shape size) i j c Hc) in Hx. contradiction.
Qed.

Lemma firstn_add {A : Type} (a b : nat) :
  forall l : list A, firstn (a + b) l = firstn a l ++ firstn b (skipn a l).
Proof.
  induction a as [ | a IH]; intros [ | x l]; simpl; try reflexivity.
  - rewrite firstn_nil. reflexivity.
  - rewrite IH. reflexivity.
Qed.

Lemma skipn_nth_error {A : Type} (l : list A) :
  forall j x, nth_error l j = Some x -> firstn 1 (skipn j l) = [x].
Proof.
  induction l as [ | y l IH]; intros [ | j] x H; simpl in *; try discriminate.
  - injection H as ->. reflexivity.
  - apply IH. exact H.
Qed.

(** An accepted sequence is spanned by the start tag [None]. *)
Lemma fits_grammar_sound (ps : PhraseStructure.t) (symbol_list : list pyval) :
  CYK.fits_grammar ps symbol_list = Ok true -> spans ps PNone symbol_list.
Proof.
  unfold CYK.fits_grammar. intro H.
  set (size := length symbol_list) in *.
  set (P := fun (i j : nat) (x : pyval) =>
              spans ps x (firstn (S i) (skipn j symbol_list))).
  bind_inv H. bind_inv H. bind_inv H. injection H as Hhead.
  assert (H1 : table_all P a).
  { apply (fill_base_row_inv P ps symbol_list (CYK.generate_cyk_table size) a);
      [ | exact H_call | ].
    - intros column sym s p Hsym Hs Hp. unfold P.
      rewrite (skipn_nth_error _ _ _ Hsym). exact (spans_symbol ps p sym s Hs Hp).
    - apply table_all_generate. }
  assert (H2 : table_all P a0).
  { revert H_call0. apply (for_each_inv (table_all P)); [ | exact H1].
    intros row tbl tbl' _ Htbl Hrow.
    apply (fill_cyk_row_inv P ps row tbl tbl'); [ | exact Hrow | exact Htbl].
    intros column k x y p sa sb sp Hk Hx Hy Hsa Hsb Hpa Hpb Hsp Hrule. unfold P in *.
    replace (S row) with (S k + (row - k))%nat by lia.
    rewrite firstn_add, skipn_skipn.
    replace (S (row - k - 1)) with (row - k)%nat in Hy by lia.
    replace (S k + column)%nat with (column + k + 1)%nat by lia.
    exact (spans_pair ps p x y sa sb sp _ _ Hx Hy Hsa Hsb Hpa Hpb Hsp Hrule). }
  assert (Hshape : length a0 = size).
  { assert (Hlen : forall (tbl tbl' : CYK.cyk_table) x i j,
               CYK.cell_add tbl i j x = Ok tbl' -> length tbl' = length tbl).
    { intros tbl tbl' x i j Hadd. rewrite cell_add_eq in Hadd.
      destruct (nth_error tbl i) as [r | ]; [ | discriminate].
      destruct (nth_error r j) as [c | ]; [ | discriminate].
      injection Hadd as <-. apply list_set_length. }
    assert (Ha : length a = size).
    { revert H_call. unfold CYK.fill_base_row.
      apply (for_each_inv (fun t : CYK.cyk_table => length t = size)).
      - intros column tbl tbl' _ Ht Hbody. bind_inv Hbody. bind_inv Hbody.
        revert Hbody. apply (for_each_inv (fun t : CYK.cyk_table => length t = size));
          [ | exact Ht].
        intros parent t t' _ Ht0 Hadd. rewrite (Hlen _ _ _ _ _ Hadd). exact Ht0.
      - unfold CYK.generate_cyk_table. rewrite length_map, length_seq. reflexivity. }
    revert H_call0. apply (for_each_inv (fun t : CYK.cyk_table => length t = size));
      [ | exact Ha].
    intros row tbl tbl' _ Ht Hrow. unfold CYK.fill_cyk_row in Hrow. bind_inv Hrow.
    revert Hrow. apply (for_each_inv (fun t : CYK.cyk_table => length t = size));
      [ | exact Ht].
    intros column t t' _ Ht0 Hbody. bind_inv Hbody.
    revert Hbody. apply (for_each_inv (fun t : CYK.cyk_table => length t = size));
      [ | exact Ht0].
    intros [x y] t1 t1' _ Ht1 Hbody1. bind_inv Hbody1.
    revert Hbody1. apply (for_each_inv (fun t : CYK.cyk_table => length t = size));
      [ | exact Ht1].
    intros parent t2 t2' _ Ht2 Hbody2. bind_inv Hbody2.
    destruct (set_mem tuple_eqb [x; y] (PhraseStructure.get_rules a5)).
    - rewrite (Hlen _ _ _ _ _ Hbody2). exact Ht2.
    - injection Hbody2 as <-. exact Ht2. }
  destruct size as [ | n] eqn:Esize.
  - destruct a0; [discriminate | discriminate].
  - rewrite (cell_last a0 n Hshape) in H_call1.
    destruct (table_cell a0 n 0) as [c | ] eqn:Ec; [ | discriminate].
    injection H_call1 as <-.
    apply (set_mem_In Py.eqb pyval_eqb_eq) in Hhead.
    pose proof (H2 n 0%nat c PNone Ec Hhead) as Hspan. unfold P in Hspan.
    simpl skipn in Hspan. rewrite <- Esize in Hspan. unfold size in Hspan.
    rewrite firstn_all in Hspan. exact Hspan.
Qed.

(** ** When the recognizer answers *)

Lemma cell_add_ok (ps : PhraseStructure.t) (size : nat) (table : CYK.cyk_table)
      (i j : nat) (x : pyval) :
  table_ok ps size table -> (i < size)%nat -> (j < size - i)%nat ->
  contains x (PhraseStructure.symbols ps) = true ->
  exists table', CYK.cell_add table i j x = Ok table' /\ table_ok ps size table'.
Proof.
  intros [Hshape Hall] Hi Hj Hx.
  destruct (cell_add_total size table i j x Hshape Hi Hj) as [table' Hadd].
  exists table'. split; [exact Hadd | ]. split.
  - exact (table_shape_cell_add size table table' i j x Hadd Hshape).
  - exact (table_all_cell_add _ table table' i j x Hadd Hall Hx).
Qed.

Lemma for_each_returns {A S : Type} (xs : list A) (body : A -> S -> result S) :
  (forall x st, In x xs -> exists st', body x st = Ok st') ->
  forall st, exists st', for_each xs body st = Ok st'.
Proof.
  intros Hbody st.
  destruct (for_each_total (fun _ : S => True) xs body) with (st := st)
    as [st' [H _]]; [ | exact I | eauto].
  intros x s Hx _. destruct (Hbody x s Hx) as [s' Hs']. eauto.
Qed.

Lemma get_cyk_pairs_total (size : nat) (table : CYK.cyk_table) (row column : nat) :
  table_shape size table -> (row < size)%nat -> (column < size - row)%nat ->
  exists pairs, CYK.get_cyk_pairs table row column = Ok pairs.
Proof.
  intros Hshape Hrow Hcol. unfold CYK.get_cyk_pairs. apply for_each_returns.
  intros left_i pairs Hin. apply in_seq in Hin. simpl.
  destruct (table_shape_cell size table left_i column Hshape) as [c1 Hc1]; [lia | lia | ].
  destruct (table_shape_cell size table (row - left_i - 1) (column + left_i + 1) Hshape)
    as [c2 Hc2]; [lia | lia | ].
  rewrite cell_nat, Hc1, bind_Ok. apply for_each_returns.
  intros item1 pairs1 _. rewrite cell_nat, Hc2, bind_Ok. eauto.
Qed.

Lemma fill_cyk_row_total (ps : PhraseStructure.t) (size row : nat)
      (table : CYK.cyk_table) :
  parents_declared ps -> table_ok ps size table -> (row < size)%nat ->
  exists table', CYK.fill_cyk_row ps row table = Ok table' /\ table_ok ps size table'.
Proof.
  intros Hparents Hok Hrow. unfold CYK.fill_cyk_row.
  destruct Hok as [[Hlen Hrows] Hall].
  destruct (nth_error table row) as [r | ] eqn:Er;
    [ | apply nth_error_None in Er; lia].
  rewrite index_nat, Er, bind_Ok. rewrite (Hrows row r Er).
  apply (for_each_total (table_ok ps size)); [ | split; [split | ]; assumption].
  intros column tbl Hcol [Hshape1 Hall1]. apply in_seq in Hcol.
  destruct (get_cyk_pairs_total size tbl row column Hshape1) as [pairs Hpairs];
    [lia | lia | ].
  rewrite Hpairs, bind_Ok.
  pose proof (get_cyk_pairs_inv tbl row column pairs Hpairs) as Horigin.
  apply (for_each_total (table_ok ps size)); [ | split; assumption].
  intros [x y] tbl1 Hxy Hok1.
  destruct (Horigin x y Hxy) as [k [c1 [c2 [Hk [H1 [Hx [H2 Hy]]]]]]].
  pose proof (Hall1 _ _ _ _ H1 Hx) as Hdx. pose proof (Hall1 _ _ _ _ H2 Hy) as Hdy.
  simpl in Hdx, Hdy. apply contains_lookup in Hdx, Hdy.
  destruct Hdx as [sa Hsa]. destruct Hdy as [sb Hsb].
  unfold CYK.get_common_parents.
  rewrite (proj2 (getitem_ok _ _ _) Hsa), bind_Ok, (proj2 (getitem_ok _ _ _) Hsb), !bind_Ok.
  apply (for_each_total (table_ok ps size)); [ | exact Hok1].
  intros parent tbl2 Hparent Hok2. unfold set_inter in Hparent.
  apply filter_In in Hparent. destruct Hparent as [Hpa _].
  pose proof (Hparents x sa parent Hsa Hpa) as Hdp.
  destruct (proj1 (contains_lookup _ _) Hdp) as [sp Hsp].
  rewrite (proj2 (getitem_ok _ _ _) Hsp), bind_Ok.
  destruct (set_mem tuple_eqb [x; y] (PhraseStructure.get_rules sp)); [ | eauto].
  apply cell_add_ok; [exact Hok2 | lia | lia | exact Hdp].
Qed.

Lemma fill_base_row_total (ps : PhraseStructure.t) (symbol_list : list pyval)
      (table : CYK.cyk_table) :
  parents_declared ps ->
  (forall x, In x symbol_list -> contains x (PhraseStructure.symbols ps) = true) ->
  table_ok ps (length symbol_list) table ->
  exists table', CYK.fill_base_row ps symbol_list table = Ok table' /\
                 table_ok ps (length symbol_list) table'.
Proof.
  intros Hparents Hdecl Hok. unfold CYK.fill_base_row.
  apply (for_each_total (table_ok ps (length symbol_list))); [ | exact Hok].
  intros column tbl Hcol Hok1. apply in_seq in Hcol.
  destruct (nth_error symbol_list column) as [sym | ] eqn:Esym;
    [ | apply nth_error_None in Esym; lia].
  rewrite index_nat, Esym, bind_Ok.
  destruct (proj1 (contains_lookup _ _) (Hdecl sym (nth_error_In _ _ Esym))) as [s Hs].
  rewrite (proj2 (getitem_ok _ _ _) Hs), bind_Ok.
  apply (for_each_total (table_ok ps (length symbol_list))); [ | exact Hok1].
  intros parent tbl1 Hparent Hok2.
  apply cell_add_ok; [exact Hok2 | lia | lia | ].
  exact (Hparents sym s parent Hs Hparent).
Qed.

(** X19. On a sequence that is not empty, whose symbols are all in
    the table of the grammar, and for a grammar in which every recorded
    parent is in the table, [fits_grammar] returns a boolean: no index and
    no key is missed. *)
Theorem fits_grammar_answers (ps : PhraseStructure.t) (symbol_list : list pyval) :
  symbol_list <> [] ->
  (forall x, In x symbol_list -> contains x (PhraseStructure.symbols ps) = true) ->
  parents_declared ps ->
  exists b, CYK.fits_grammar ps symbol_list = Ok b.
Proof.
  intros Hne Hdecl Hparents. unfold CYK.fits_grammar.
  set (size := length symbol_list).
  assert (Hok0 : table_ok ps size (CYK.generate_cyk_table size)).
  { split; [apply generate_cyk_table_shape | apply table_all_generate]. }
  destruct (fill_base_row_total ps symbol_list _ Hparents Hdecl Hok0) as [t1 [H1 Hok1]].
  fold size in H1. rewrite H1, bind_Ok.
  destruct (for_each_total (table_ok ps size) (seq 1 (size - 1)) (CYK.fill_cyk_row ps))
    with (st := t1) as [t2 [H2 Hok2]]; [ | exact Hok1 | ].
  { intros row tbl Hrow Hok. apply in_seq in Hrow.
    apply fill_cyk_row_total; [exact Hparents | exact Hok | lia]. }
  rewrite H2, bind_Ok.
  assert (Hsize : exists n, size = S n).
  { unfold size. destruct symbol_list; [congruence | simpl; eauto]. }
  destruct Hsize as [n Hn]. destruct Hok2 as [Hshape2 _].
  rewrite (cell_last t2 n) by (rewrite <- Hn; apply Hshape2).
  destruct (table_shape_cell size t2 n 0 Hshape2) as [c Hc]; [lia | lia | ].
  rewrite Hc, bind_Ok. eauto.
Qed.

Lemma fits_grammar_answers_witness :
  exists b, CYK.fits_grammar ab_phrase_structure [PStr "b"; PStr "a"; PStr "b"] = Ok b.
Proof.
  apply (fits_grammar_answers ab_phrase_structure [PStr "b"; PStr "a"; PStr "b"]).
  - discriminate.
  - intros x [<- | [<- | [<- | []]]]; reflexivity.
  - intros k s p Hk Hp. vm_compute in Hk.
    repeat match type of Hk with
           | (if ?c then _ else _) = _ =>
               destruct c; [injection Hk as <-; simpl in Hp;
                            repeat (destruct Hp as [<- | Hp]; [reflexivity | ]);
                            contradiction | ]
           end.
    discriminate.
Defined.

(** ** What the recognizer finds *)

Lemma table_le_refl (table : CYK.cyk_table) : table_le table table.
Proof. intros i j x H. exact H. Qed.

Lemma table_le_trans (t1 t2 t3 : CYK.cyk_table) :
  table_le t1 t2 -> table_le t2 t3 -> table_le t1 t3.
Proof. intros H12 H23 i j x H. apply H23, H12, H. Qed.

Lemma cell_add_adds (table table' : CYK.cyk_table) (i j : nat) (x : pyval) :
  CYK.cell_add table i j x = Ok table' ->
  table_le table table' /\ in_cell table' i j x.
Proof.
  intro Hadd. pose proof (table_cell_cell_add _ _ _ _ _ Hadd) as Hcell.
  assert (Hc : exists c, table_cell table i j = Some c).
  { rewrite cell_add_eq in Hadd. unfold table_cell.
    destruct (nth_error table i) as [r | ]; [ | discriminate].
    destruct (nth_error r j) as [c | ]; [eauto | discriminate]. }
  destruct Hc as [c Hc]. split.
  - intros i' j' y [c' [Hc' Hy]]. unfold in_cell. rewrite Hcell.
    destruct (Nat.eqb i' i && Nat.eqb j' j) eqn:E; [ | eauto].
    apply andb_true_iff in E. destruct E as [Ei Ej].
    apply Nat.eqb_eq in Ei. apply Nat.eqb_eq in Ej. subst i' j'.
    rewrite Hc. simpl. eexists. split; [reflexivity | ].
    apply (set_add_In Py.eqb pyval_eqb_eq). right. congruence.
  - unfold in_cell. rewrite Hcell, !Nat.eqb_refl, Hc. simpl.
    eexists. split; [reflexivity | ].
    apply (set_add_In Py.eqb pyval_eqb_eq). left. reflexivity.
Qed.

(** A loop that only adds establishes, for each element it visits, what the
    body establishes for it. *)
Lemma for_each_establishes {A S : Type} (le : S -> S -> Prop) (R : A -> S -> Prop)
      (xs : list A) (body : A -> S -> result S) (st0 : S) :
  (forall s, le s s) ->
  (forall s1 s2 s3, le s1 s2 -> le s2 s3 -> le s1 s3) ->
  (forall x s s', R x s -> le s s' -> R x s') ->
  (forall x s s', In x xs -> le st0 s -> body x s = Ok s' -> le s s' /\ R x s') ->
  forall st', for_each xs body st0 = Ok st' ->
              le st0 st' /\ forall x, In x xs -> R x st'.
Proof.
  intros Hrefl Htrans Hmono Hbody.
  assert (Hgen : forall ys st st',
             (forall y, In y ys -> In y xs) -> le st0 st ->
             for_each ys body st = Ok st' ->
             le st st' /\ forall y, In y ys -> R y st').
  { induction ys as [ | y ys IH]; simpl; intros st st' Hsub Hle H.
    - injection H as <-. split; [apply Hrefl | contradiction].
    - bind_inv H.
      destruct (Hbody y st a (Hsub y (or_introl eq_refl)) Hle H_call) as [Hle1 Hy].
      destruct (IH a st' (fun z Hz => Hsub z (or_intror Hz))
                   (Htrans _ _ _ Hle Hle1) H) as [Hle2 Hys].
      split; [exact (Htrans _ _ _ Hle1 Hle2) | ].
      intros z [<- | Hz]; [exact (Hmono _ _ _ Hy Hle2) | exact (Hys z Hz)]. }
  intros st' H. exact (Hgen xs st0 st' (fun y Hy => Hy) (Hrefl st0) H).
Qed.

(** [get_cyk_pairs] leaves no pair out. *)
Lemma get_cyk_pairs_complete (table : CYK.cyk_table) (row column : nat)
      (pairs : list (pyval * pyval)) :
  CYK.get_cyk_pairs table row column = Ok pairs ->
  forall k a b, (k < row)%nat ->
    in_cell table k column a ->
    in_cell table (row - k - 1) (column + k + 1) b ->
    In (a, b) pairs.
Proof.
  unfold CYK.get_cyk_pairs. intro H.
  apply (for_each_establishes (@incl (pyval * pyval))
           (fun k pairs => forall a b,
              in_cell table k column a ->
              in_cell table (row - k - 1) (column + k + 1) b ->
              In (a, b) pairs)) in H.
  - destruct H as [_ H]. intros k a b Hk Ha Hb.
    apply (H k); [apply in_seq; lia | exact Ha | exact Hb].
  - apply incl_refl.
  - intros s1 s2 s3. apply incl_tran.
  - intros k s s' HR Hincl a b Ha Hb. apply Hincl. exact (HR a b Ha Hb).
  - intros left_i s s' _ _ Hbody. bind_inv Hbody. rewrite cell_nat in Hbody_call.
    destruct (table_cell table left_i column) as [c1 | ] eqn:E1; [ | discriminate].
    injection Hbody_call as <-.
    apply (for_each_establishes (@incl (pyval * pyval))
             (fun item1 pairs => forall b,
                in_cell table (row - left_i - 1) (column + left_i + 1) b ->
                In (item1, b) pairs)) in Hbody.
    + destruct Hbody as [Hincl Hbody]. split; [exact Hincl | ].
      intros a b [c [Hc Ha]] Hb. assert (c = c1) by congruence. subst c.
      exact (Hbody a Ha b Hb).
    + apply incl_refl.
    + intros s1 s2 s3. apply incl_tran.
    + intros item1 t t' HR Hincl b Hb. apply Hincl. exact (HR b Hb).
    + intros item1 t t' _ _ Hbody1. bind_inv Hbody1. rewrite cell_nat in Hbody1_call.
      destruct (table_cell table (row - left_i - 1) (column + left_i + 1))
        as [c2 | ] eqn:E2; [ | discriminate].
      injection Hbody1_call as <-. injection Hbody1 as <-. split.
      * intros [x y] Hxy. apply fold_set_add_pairs. auto.
      * intros b [c [Hc Hb]]. assert (c = c2) by congruence. subst c.
        apply fold_set_add_pairs. auto.
Qed.

Lemma fill_cyk_row_shape (ps : PhraseStructure.t) (size row : nat)
      (table table' : CYK.cyk_table) :
  CYK.fill_cyk_row ps row table = Ok table' ->
  table_shape size table -> table_shape size table'.
Proof.
  unfold CYK.fill_cyk_row. intros H Hshape. bind_inv H.
  revert H. apply (for_each_inv (table_shape size)); [ | exact Hshape].
  intros column t t' _ Ht Hbody. bind_inv Hbody.
  revert Hbody. apply (for_each_inv (table_shape size)); [ | exact Ht].
  intros [x y] t1 t1' _ Ht1 Hbody1. bind_inv Hbody1.
  revert Hbody1. apply (for_each_inv (table_shape size)); [ | exact Ht1].
  intros parent t2 t2' _ Ht2 Hbody2. bind_inv Hbody2.
  destruct (set_mem tuple_eqb [x; y] (PhraseStructure.get_rules a2)).
  - exact (table_shape_cell_add size t2 t2' row column parent Hbody2 Ht2).
  - injection Hbody2 as <-. exact Ht2.
Qed.

Lemma fill_base_row_shape (ps : PhraseStructure.t) (size : nat)
      (symbol_list : list pyval) (table table' : CYK.cyk_table) :
  CYK.fill_base_row ps symbol_list table = Ok table' ->
  table_shape size table -> table_shape size table'.
Proof.
  unfold CYK.fill_base_row. intros H Hshape.
  revert H. apply (for_each_inv (table_shape size)); [ | exact Hshape].
  intros column t t' _ Ht Hbody. bind_inv Hbody. bind_inv Hbody.
  revert Hbody. apply (for_each_inv (table_shape size)); [ | exact Ht].
  intros parent t1 t1' _ Ht1 Hadd.
  exact (table_shape_cell_add size t1 t1' 0 column parent Hadd Ht1).
Qed.

Lemma spans_nonempty (ps : PhraseStructure.t) (x : pyval) (w : list pyval) :
  spans ps x w -> (1 <= length w)%nat.
Proof.
  induction 1; simpl; [lia | ]. rewrite length_app. lia.
Qed.

Lemma app_firstn_split {A : Type} (w1 w2 : list A) :
  forall n m, w1 ++ w2 = firstn n m ->
    w1 = firstn (length w1) m /\
    w2 = firstn (n - length w1) (skipn (length w1) m).
Proof.
  induction w1 as [ | x w1 IH]; intros n m H; simpl in *.
  - rewrite Nat.sub_0_r. auto.
  - destruct n as [ | n]; [discriminate | ].
    destruct m as [ | y m]; [discriminate | ]. simpl in H.
    injection H as -> H. destruct (IH n m H) as [H1 H2]. simpl.
    rewrite <- H1. auto.
Qed.

Lemma row_complete_le (ps : PhraseStructure.t) (symbol_list : list pyval)
      (table table' : CYK.cyk_table) (i : nat) :
  table_le table table' ->
  row_complete ps symbol_list table i -> row_complete ps symbol_list table' i.
Proof. intros Hle H j x Hj Hx. apply Hle. exact (H j x Hj Hx). Qed.

Lemma segment_length {A : Type} (l : list A) (i j : nat) :
  (i + j < length l)%nat -> length (firstn (S i) (skipn j l)) = S i.
Proof. intro H. rewrite length_firstn, length_skipn. lia. Qed.

(** The base row holds every parent of every symbol of the sequence. *)
Lemma fill_base_row_complete (ps : PhraseStructure.t) (symbol_list : list pyval)
      (table table' : CYK.cyk_table) :
  CYK.fill_base_row ps symbol_list table = Ok table' ->
  table_le table table' /\ row_complete ps symbol_list table' 0.
Proof.
  unfold CYK.fill_base_row. intro H.
  apply (for_each_establishes table_le
           (fun column t => forall sym s p,
              nth_error symbol_list column = Some sym ->
              lookup sym (PhraseStructure.symbols ps) = Some s ->
              In p (PhraseStructure.get_parents s) ->
              in_cell t 0 column p)) in H.
  - destruct H as [Hle H]. split; [exact Hle | ].
    intros j x Hj Hx. simpl in Hj.
    destruct (nth_error symbol_list j) as [sym | ] eqn:Esym;
      [ | apply nth_error_None in Esym; lia].
    rewrite (skipn_nth_error _ _ _ Esym) in Hx.
    inversion Hx as [p a s Hs Hp Heq1 Heq2
                    | p a b sa sb sp w1 w2 Ha Hb Hsa Hsb Hpa Hpb Hsp Hrule Heq1 Heq2].
    + subst. eapply (H j); [apply in_seq; lia | eassumption | eassumption | eassumption].
    + apply spans_nonempty in Ha, Hb.
      assert (Hlen : length (w1 ++ w2) = 1%nat) by (rewrite Heq2; reflexivity).
      rewrite length_app in Hlen. lia.
  - apply table_le_refl.
  - apply table_le_trans.
  - intros column t t' HR Hle sym s p Hsym Hs Hp. apply Hle. exact (HR sym s p Hsym Hs Hp).
  - intros column t t' _ _ Hbody. bind_inv Hbody. bind_inv Hbody.
    rewrite index_nat in Hbody_call.
    destruct (nth_error symbol_list column) as [sym0 | ] eqn:Esym; [ | discriminate].
    injection Hbody_call as <-. apply getitem_ok in Hbody_call0.
    apply (for_each_establishes table_le
             (fun parent t => in_cell t 0 column parent)) in Hbody.
    + destruct Hbody as [Hle Hbody]. split; [exact Hle | ].
      intros sym s p Hsym Hs Hp. injection Hsym as <-.
      assert (s = a0) by congruence. subst s. exact (Hbody p Hp).
    + apply table_le_refl.
    + apply table_le_trans.
    + intros parent t1 t1' HR Hle. apply Hle. exact HR.
    + intros parent t1 t1' _ _ Hadd. exact (cell_add_adds _ _ _ _ _ Hadd).
Qed.

(** After a row is filled it holds every symbol that spans a segment of the
    row's length, when the rows above do. *)
Lemma fill_cyk_row_complete (ps : PhraseStructure.t) (symbol_list : list pyval)
      (row : nat) (table table' : CYK.cyk_table) :
  table_shape (length symbol_list) table -> (1 <= row)%nat ->
  (forall i, (i < row)%nat -> row_complete ps symbol_list table i) ->
  CYK.fill_cyk_row ps row table = Ok table' ->
  table_le table table' /\ row_complete ps symbol_list table' row.
Proof.
  intros Hshape Hrow Habove H. unfold CYK.fill_cyk_row in H. bind_inv H.
  rewrite index_nat in H_call.
  destruct (nth_error table row) as [r | ] eqn:Er; [ | discriminate].
  injection H_call as <-. rewrite (proj2 Hshape row r Er) in H.
  apply (for_each_establishes table_le
           (fun column t => forall x,
              (row + column < length symbol_list)%nat ->
              spans ps x (firstn (S row) (skipn column symbol_list)) ->
              in_cell t row column x)) in H.
  - destruct H as [Hle H]. split; [exact Hle | ].
    intros j x Hj Hx. apply (H j); [apply in_seq; lia | exact Hj | exact Hx].
  - apply table_le_refl.
  - apply table_le_trans.
  - intros column t t' HR Hle x Hc Hx. apply Hle. exact (HR x Hc Hx).
  - intros column t t' _ Hle0 Hbody. bind_inv Hbody.
    pose proof (get_cyk_pairs_complete t row column a Hbody_call) as Hpairs.
    apply (for_each_establishes table_le
             (fun '(x, y) t => forall sa sb p sp,
                lookup x (PhraseStructure.symbols ps) = Some sa ->
                lookup y (PhraseStructure.symbols ps) = Some sb ->
                In p (PhraseStructure.get_parents sa) ->
                In p (PhraseStructure.get_parents sb) ->
                lookup p (PhraseStructure.symbols ps) = Some sp ->
                In [x; y] (PhraseStructure.get_rules sp) ->
                in_cell t row column p)) in Hbody.
    + destruct Hbody as [Hle Hbody]. split; [exact Hle | ].
      intros x Hc Hx.
      inversion Hx as [p a' s Hs Hp Heq1 Heq2
                      | p a' b' sa sb sp w1 w2 Ha Hb Hsa Hsb Hpa Hpb Hsp Hrule Heq1 Heq2].
      * assert (Hlen : length [a'] = S row)
          by (rewrite Heq2; exact (segment_length symbol_list row column Hc)).
        simpl in Hlen. lia.
      * subst p. pose proof (spans_nonempty _ _ _ Ha) as Hn1.
        pose proof (spans_nonempty _ _ _ Hb) as Hn2.
        assert (Hlen : (length w1 + length w2 = S row)%nat).
        { rewrite <- length_app. rewrite Heq2.
          exact (segment_length symbol_list row column Hc). }
        destruct (app_firstn_split w1 w2 (S row) (skipn column symbol_list) Heq2)
          as [H1 H2].
        set (k := (length w1 - 1)%nat).
        assert (Hk : (k < row)%nat) by (unfold k; lia).
        replace (length w1) with (S k) in H1, H2 by (unfold k; lia).
        rewrite skipn_skipn in H2.
        replace (S row - S k)%nat with (S (row - k - 1)) in H2 by lia.
        replace (S k + column)%nat with (column + k + 1)%nat in H2 by lia.
        rewrite H1 in Ha. rewrite H2 in Hb.
        assert (Hina : in_cell t k column a').
        { apply Hle0. apply (Habove k Hk); [lia | exact Ha]. }
        assert (Hinb : in_cell t (row - k - 1) (column + k + 1) b').
        { apply Hle0. apply (Habove (row - k - 1)%nat); [lia | lia | exact Hb]. }
        pose proof (Hpairs k a' b' Hk Hina Hinb) as Hpair.
        exact (Hbody (a', b') Hpair sa sb x sp Hsa Hsb Hpa Hpb Hsp Hrule).
    + apply table_le_refl.
    + apply table_le_trans.
    + intros [x y] t1 t1' HR Hle sa sb p sp Hsa Hsb Hpa Hpb Hsp Hrule.
      apply Hle. exact (HR sa sb p sp Hsa Hsb Hpa Hpb Hsp Hrule).
    + intros [x y] t1 t1' _ _ Hbody1. bind_inv Hbody1.
      destruct (get_common_parents_inv ps x y a0 Hbody1_call)
        as [sa0 [sb0 [Hsa0 [Hsb0 Hcommon]]]].
      apply (for_each_establishes table_le
               (fun parent t => forall sp,
                  lookup parent (PhraseStructure.symbols ps) = Some sp ->
                  In [x; y] (PhraseStructure.get_rules sp) ->
                  in_cell t row column parent)) in Hbody1.
      * destruct Hbody1 as [Hle Hbody1]. split; [exact Hle | ].
        intros sa sb p sp Hsa Hsb Hpa Hpb Hsp Hrule.
        assert (sa = sa0) by congruence. assert (sb = sb0) by congruence. subst sa sb.
        exact (Hbody1 p (proj2 (Hcommon p) (conj Hpa Hpb)) sp Hsp Hrule).
      * apply table_le_refl.
      * apply table_le_trans.
      * intros parent t2 t2' HR Hle sp Hsp Hrule. apply Hle. exact (HR sp Hsp Hrule).
      * intros parent t2 t2' _ _ Hbody2. bind_inv Hbody2.
        apply getitem_ok in Hbody2_call.
        destruct (set_mem tuple_eqb [x; y] (PhraseStructure.get_rules a1)) eqn:Erule.
        -- destruct (cell_add_adds _ _ _ _ _ Hbody2) as [Hle Hin].
           split; [exact Hle | ]. intros sp _ _. exact Hin.
        -- injection Hbody2 as <-. split; [apply table_le_refl | ].
           intros sp Hsp Hrule. assert (sp = a1) by congruence. subst sp.
           apply (set_mem_In tuple_eqb tuple_eqb_eq) in Hrule. congruence.
Qed.

Lemma rows_complete (ps : PhraseStructure.t) (symbol_list : list pyval) (n : nat) :
  forall start table table',
    (1 <= start)%nat ->
    table_shape (length symbol_list) table ->
    (forall i, (i < start)%nat -> row_complete ps symbol_list table i) ->
    for_each (seq start n) (CYK.fill_cyk_row ps) table = Ok table' ->
    forall i, (i < start + n)%nat -> row_complete ps symbol_list table' i.
Proof.
  induction n as [ | n IH]; intros start table table' Hstart Hshape Habove H; simpl in H.
  - injection H as <-. intros i Hi. apply Habove. lia.
  - bind_inv H.
    destruct (fill_cyk_row_complete ps symbol_list start table a Hshape Hstart Habove H_call)
      as [Hle Hrow].
    intros i Hi. apply (IH (S start) a table'); try lia; try assumption.
    + exact (fill_cyk_row_shape ps _ start table a H_call Hshape).
    + intros i' Hi'. destruct (Nat.eq_dec i' start) as [-> | Hne]; [exact Hrow | ].
      apply (row_complete_le ps symbol_list table a i' Hle). apply Habove. lia.
Qed.

(** X20. When [fits_grammar] returns, it returns [True] exactly
    when the start tag [None] spans the sequence: the table is built from
    common parents of neighbouring segments that hold the pair as a rule,
    and from the parents of the single symbols. *)
Theorem fits_grammar_decides_spans
        (ps : PhraseStructure.t) (symbol_list : list pyval) (b : bool) :
  CYK.fits_grammar ps symbol_list = Ok b ->
  (b = true <-> spans ps PNone symbol_list).
Proof.
  intro H. split; [intros ->; apply fits_grammar_sound; exact H | ].
  intro Hspan. unfold CYK.fits_grammar in H.
  bind_inv H. bind_inv H. bind_inv H. injection H as <-.
  pose proof (proj1 (generate_cyk_table_shape (length symbol_list))) as Hshape0.
  pose proof (fill_base_row_shape ps _ symbol_list _ a H_call Hshape0) as Hshape1.
  destruct (fill_base_row_complete ps symbol_list _ a H_call) as [_ Hbase].
  assert (Hrows : forall i, (i < 1 + (length symbol_list - 1))%nat ->
                            row_complete ps symbol_list a0 i).
  { apply (rows_complete ps symbol_list (length symbol_list - 1) 1 a a0);
      [lia | exact Hshape1 | | exact H_call0].
    intros i Hi. replace i with 0%nat by lia. exact Hbase. }
  assert (Hshape2 : table_shape (length symbol_list) a0).
  { revert H_call0. apply (for_each_inv (table_shape (length symbol_list)));
      [ | exact Hshape1].
    intros row t t' _ Ht Hrow. exact (fill_cyk_row_shape ps _ row t t' Hrow Ht). }
  destruct symbol_list as [ | x0 rest].
  - inversion Hspan as [p a' s Hs Hp Heq1 Heq2
                       | p a' b' sa sb sp w1 w2 Ha Hb Hsa Hsb Hpa Hpb Hsp Hrule Heq1 Heq2].
    apply spans_nonempty in Ha. destruct w1; [simpl in Ha; lia | discriminate].
  - simpl length in *.
    rewrite (cell_last a0 (length rest) (proj1 Hshape2)) in H_call1.
    assert (Hhead : in_cell a0 (length rest) 0 PNone).
    { unfold row_complete in Hrows. apply (Hrows (length rest)); [lia | simpl; lia | ].
      simpl skipn. rewrite firstn_all2 by (simpl; lia). exact Hspan. }
    destruct Hhead as [c [Hc Hin]].
    rewrite Hc in H_call1. injection H_call1 as <-.
    apply (set_mem_In Py.eqb pyval_eqb_eq). exact Hin.
Qed.

Lemma fits_grammar_decides_spans_witness :
  (true = true <-> spans ab_phrase_structure PNone [PStr "a"; PStr "b"]) /\
  (false = true <-> spans ab_phrase_structure PNone [PStr "b"; PStr "a"]).
Proof.
  split.
  - apply (fits_grammar_decides_spans ab_phrase_structure [PStr "a"; PStr "b"] true).
    reflexivity.
  - apply (fits_grammar_decides_spans ab_phrase_structure [PStr "b"; PStr "a"] false).
    reflexivity.
Defined.

(** ** A sequence of one symbol *)

Lemma for_each_cons {A S : Type} (x : A) (xs : list A) (body : A -> S -> result S)
      (st : S) :
  for_each (x :: xs) body st = bind (body x st) (for_each xs body).
Proof. reflexivity. Qed.

Lemma add_parents_single_cell (parents : list pyval) :
  forall c,
    for_each parents (fun parent tbl => CYK.cell_add tbl 0 0 parent) [[c]]
    = Ok [[fold_left (fun c p => set_add Py.eqb p c) parents c]].
Proof.
  induction parents as [ | p parents IH]; intro c; [reflexivity | ].
  rewrite for_each_cons, cell_add_eq. simpl. apply IH.
Qed.

Lemma set_mem_fold_set_add (x : pyval) (parents : list pyval) :
  forall c,
    set_mem Py.eqb x (fold_left (fun c p => set_add Py.eqb p c) parents c)
    = set_mem Py.eqb x c || set_mem Py.eqb x parents.
Proof.
  induction parents as [ | p parents IH]; intro c; simpl.
  - rewrite orb_false_r. reflexivity.
  - rewrite IH. unfold set_add. destruct (set_mem Py.eqb p c) eqn:E.
    + destruct (Py.eqb x p) eqn:Ex; [ | reflexivity].
      apply pyval_eqb_eq in Ex. subst p. rewrite E. reflexivity.
    + unfold set_mem at 1. rewrite existsb_app. simpl. rewrite orb_false_r.
      fold (set_mem Py.eqb x c). rewrite orb_assoc. reflexivity.
Qed.

(** X21. On a sequence of one symbol of the table,
    [fits_grammar] answers whether [None] is among the parents of the
    symbol; no rule is consulted. *)
Theorem fits_grammar_single_symbol
        (ps : PhraseStructure.t) (x : pyval) (s : PhraseStructure.PhraseStructureSymbol) :
  lookup x (PhraseStructure.symbols ps) = Some s ->
  CYK.fits_grammar ps [x]
  = Ok (set_mem Py.eqb PNone (PhraseStructure.get_parents s)).
Proof.
  intro Hs. unfold CYK.fits_grammar, CYK.fill_base_row. simpl.
  rewrite (proj2 (getitem_ok _ _ _) Hs), bind_Ok.
  change (CYK.generate_cyk_table 1) with [[([] : list pyval)]].
  rewrite add_parents_single_cell. simpl.
  rewrite set_mem_fold_set_add. reflexivity.
Qed.

Lemma fits_grammar_single_symbol_witness :
  CYK.fits_grammar ab_phrase_structure [PInt 1]
  = Ok (set_mem Py.eqb PNone
          (PhraseStructure.get_parents
             (PhraseStructure.mk_symbol (PInt 1) [[PStr "a"]] [PNone] false))).
Proof.
  apply (fits_grammar_single_symbol ab_phrase_structure (PInt 1)). reflexivity.
Defined.

(** ** What UNIT achieves *)

Lemma rules_grow_refl (g : BNF.t) : rules_grow g g.
Proof. intros k s Hs. exists s. split; [exact Hs | ]. split; [reflexivity | apply incl_refl]. Qed.

Lemma rules_grow_trans (g1 g2 g3 : BNF.t) :
  rules_grow g1 g2 -> rules_grow g2 g3 -> rules_grow g1 g3.
Proof.
  intros H12 H23 k s Hs. destruct (H12 k s Hs) as [s2 [Hs2 [Hk2 Hr2]]].
  destruct (H23 k s2 Hs2) as [s3 [Hs3 [Hk3 Hr3]]].
  exists s3. split; [exact Hs3 | ]. split; [congruence | ].
  intros r Hr. apply Hr3, Hr2, Hr.
Qed.

Lemma rules_grow_add_rule (k : pyval) (r : list pyval) (g g' : BNF.t) :
  BNF.do_on_symbol k (fun p => BNF_Symbol.add_rule p r) g = Ok g' -> rules_grow g g'.
Proof.
  intro H. apply do_on_symbol_inv in H. destruct H as [s [Hs ->]].
  intros k0 s0 Hs0. destruct (Py.eqb k0 k) eqn:E.
  - apply pyval_eqb_eq in E. subst k0. rewrite lookup_after_setitem_same.
    assert (s0 = s) by congruence. subst s0.
    eexists. split; [reflexivity | ]. unfold BNF_Symbol.add_rule.
    destruct (BNF_Symbol.is_terminal s) eqn:Et; simpl;
      [split; [exact Et | apply incl_refl] | ].
    split; [reflexivity | ]. intros r0 Hr0.
    apply (set_add_In tuple_eqb tuple_eqb_eq). auto.
  - apply pyval_eqb_neq in E. rewrite lookup_after_setitem_other by exact E.
    exists s0. split; [exact Hs0 | ]. split; [reflexivity | apply incl_refl].
Qed.

Lemma no_new_rules_refl (g : BNF.t) : no_new_rules g g.
Proof. intros k s r Hs Hr. eauto. Qed.

Lemma no_new_rules_trans (g1 g2 g3 : BNF.t) :
  no_new_rules g1 g2 -> no_new_rules g2 g3 -> no_new_rules g1 g3.
Proof.
  intros H12 H23 k s r Hs Hr. destruct (H23 k s r Hs Hr) as [s2 [Hs2 Hr2]].
  exact (H12 k s2 r Hs2 Hr2).
Qed.

Lemma no_new_rules_do_on_symbol (k : pyval) (method : BNF_Symbol.t -> Z * BNF_Symbol.t)
      (g g' : BNF.t) :
  adds_only [] method ->
  BNF.do_on_symbol k method g = Ok g' -> no_new_rules g g'.
Proof.
  intros Hm H. apply do_on_symbol_inv in H. destruct H as [s [Hs ->]].
  intros k0 s0 r Hk0 Hr. destruct (Py.eqb k0 k) eqn:E.
  - apply pyval_eqb_eq in E. subst k0. rewrite lookup_after_setitem_same in Hk0.
    injection Hk0 as <-. destruct (Hm s r Hr) as [H | []]. eauto.
  - apply pyval_eqb_neq in E. rewrite lookup_after_setitem_other in Hk0 by exact E.
    eauto.
Qed.

(** The first loop nest of [conversion_unit] collects every unit rule whose
    member is a non-terminal. *)
Lemma conversion_unit_collect_finds (g g1 : BNF.t) (products : list (pyval * pyval)) :
  BNF.conversion_unit_collect g = Ok (products, g1) ->
  forall k s m t,
    lookup k (BNF.symbols g) = Some s -> In [m] (BNF_Symbol.rules s) ->
    lookup m (BNF.symbols g) = Some t -> BNF_Symbol.is_terminal t = false ->
    In (k, m) products.
Proof.
  unfold BNF.conversion_unit_collect. intro H.
  set (le := fun (a b : list (pyval * pyval) * BNF.t) =>
               incl (fst a) (fst b) /\ rules_grow (snd a) (snd b)).
  assert (Hrefl : forall a, le a a)
    by (intro a; split; [apply incl_refl | apply rules_grow_refl]).
  assert (Htrans : forall a b c, le a b -> le b c -> le a c).
  { intros a b c [H1 H2] [H3 H4]. split;
      [exact (incl_tran H1 H3) | exact (rules_grow_trans _ _ _ H2 H4)]. }
  apply (for_each_establishes le
           (fun k (a : list (pyval * pyval) * BNF.t) =>
              forall s m t,
                lookup k (BNF.symbols g) = Some s -> In [m] (BNF_Symbol.rules s) ->
                lookup m (BNF.symbols g) = Some t -> BNF_Symbol.is_terminal t = false ->
                In (k, m) (fst a))) in H; try assumption.
  - destruct H as [_ H]. intros k s m t Hs Hr Ht Hkind.
    apply (H k) with s t; try assumption.
    apply lookup_In in Hs. unfold keys. change k with (fst (k, s)). apply in_map. exact Hs.
  - intros k a b HR [Hincl _] s m t Hs Hr Ht Hkind. apply Hincl.
    exact (HR s m t Hs Hr Ht Hkind).
  - intros symbol [products0 st] [products1 st1] _ [_ Hgrow] Hbody. simpl in Hgrow.
    bind_inv Hbody. apply getitem_ok in Hbody_call.
    apply (for_each_establishes le
             (fun rule (a : list (pyval * pyval) * BNF.t) =>
                forall m t, rule = [m] ->
                  lookup m (BNF.symbols g) = Some t -> BNF_Symbol.is_terminal t = false ->
                  In (symbol, m) (fst a))) in Hbody; try assumption.
    + destruct Hbody as [Hle Hbody]. split; [exact Hle | ].
      intros s m t Hs Hr Ht Hkind.
      destruct (Hgrow symbol s Hs) as [s' [Hs' [_ Hincl]]].
      assert (s' = a) by congruence. subst s'.
      exact (Hbody [m] (Hincl _ Hr) m t eq_refl Ht Hkind).
    + intros rule a1 b1 HR [Hincl _] m t Hrule Ht Hkind. apply Hincl.
      exact (HR m t Hrule Ht Hkind).
    + intros rule [p2 st2] [p3 st3] _ [_ Hgrow2] Hbody2. simpl in Hgrow2.
      assert (Hgrow02 : rules_grow g st2)
        by exact (rules_grow_trans _ _ _ Hgrow Hgrow2).
      destruct rule as [ | m0 [ | m1 rest]].
      * injection Hbody2 as <- <-. split; [apply Hrefl | ]. intros m t Hrule. discriminate.
      * bind_inv Hbody2. apply getitem_ok in Hbody2_call.
        destruct (negb (BNF_Symbol.is_terminal a0)) eqn:Ekind.
        -- bind_inv Hbody2. injection Hbody2 as <- <-.
           assert (Hg : rules_grow st2 a1).
           { revert Hbody2_call0. apply (for_each_inv (rules_grow st2));
               [ | apply rules_grow_refl].
             intros subrule b b' _ Hb Hadd.
             exact (rules_grow_trans _ _ _ Hb (rules_grow_add_rule _ _ _ _ Hadd)). }
           split.
           ++ split; simpl; [ | exact Hg]. intros x Hx.
              apply (set_add_In BNF.pair_eqb pair_eqb_eq). auto.
           ++ intros m t Hrule Ht Hkind. injection Hrule as <-. simpl.
              apply (set_add_In BNF.pair_eqb pair_eqb_eq). auto.
        -- injection Hbody2 as <- <-. split; [apply Hrefl | ].
           intros m t Hrule Ht Hkind. injection Hrule as <-.
           destruct (Hgrow02 m0 t Ht) as [t' [Ht' [Hk' _]]].
           assert (t' = a0) by congruence. subst t'.
           rewrite Hk', Hkind in Ekind. discriminate.
      * injection Hbody2 as <- <-. split; [apply Hrefl | ]. intros m t Hrule. discriminate.
Qed.

(** X22. UNIT.  A rule of one member that is a non-terminal,
    held by a symbol before [conversion_unit], is not among the rules of
    that symbol afterwards. *)
Theorem conversion_unit_removes_unit_rules (g g' : BNF.t) :
  BNF.conversion_unit g = Ok g' ->
  forall k s m t s',
    lookup k (BNF.symbols g) = Some s -> In [m] (BNF_Symbol.rules s) ->
    lookup m (BNF.symbols g) = Some t -> BNF_Symbol.is_terminal t = false ->
    lookup k (BNF.symbols g') = Some s' ->
    ~ In [m] (BNF_Symbol.rules s').
Proof.
  unfold BNF.conversion_unit. intro H. bind_inv H. destruct a as [products g1].
  pose proof (conversion_unit_collect_finds g g1 products H_call) as Hfound.
  apply (for_each_establishes no_new_rules
           (fun '(parent, product) st =>
              forall s', lookup parent (BNF.symbols st) = Some s' ->
                         ~ In [product] (BNF_Symbol.rules s'))) in H.
  - destruct H as [_ H]. intros k s m t s' Hs Hr Ht Hkind Hs'.
    exact (H (k, m) (Hfound k s m t Hs Hr Ht Hkind) s' Hs').
  - apply no_new_rules_refl.
  - apply no_new_rules_trans.
  - intros [parent product] st st' HR Hle s' Hs' Hin.
    destruct (Hle parent s' [product] Hs' Hin) as [s0 [Hs0 Hin0]].
    exact (HR s0 Hs0 Hin0).
  - intros [parent product] st st' _ _ Hbody. bind_inv Hbody. bind_inv Hbody.
    assert (H1 : no_new_rules st a)
      by exact (no_new_rules_do_on_symbol _ _ _ _
                  (adds_only_remove_rule [product]) Hbody_call).
    assert (Hgone : forall s', lookup parent (BNF.symbols a) = Some s' ->
                               ~ In [product] (BNF_Symbol.rules s')).
    { intros s' Hs' Hin.
      destruct (remove_rule_gone parent [product] st a Hbody_call s' _ Hs' Hin) as [Hne _].
      congruence. }
    destruct a0.
    + assert (H2 : no_new_rules a st')
        by exact (no_new_rules_do_on_symbol _ _ _ _
                    (adds_only_remove_parent parent) Hbody).
      split; [exact (no_new_rules_trans _ _ _ H1 H2) | ].
      intros s' Hs' Hin. destruct (H2 parent s' [product] Hs' Hin) as [s0 [Hs0 Hin0]].
      exact (Hgone s0 Hs0 Hin0).
    + injection Hbody as <-. split; [exact H1 | exact Hgone].
Qed.

Lemma conversion_unit_removes_unit_rules_witness :
  exists g',
    BNF.conversion_unit (grammar_of long_and_unit_ops) = Ok g' /\
    forall s',
      lookup (PInt 0) (BNF.symbols g') = Some s' ->
      ~ In [PStr "B"] (BNF_Symbol.rules s').
Proof.
  eexists. split; [vm_compute; reflexivity | ].
  intro s'.
  apply (conversion_unit_removes_unit_rules (grammar_of long_and_unit_ops) _
           ltac:(vm_compute; reflexivity) (PInt 0)
           (BNF_Symbol.mk (PInt 0) [[PStr "A"; PStr "B"; PStr "C"]; [PStr "B"]] [] false)
           (PStr "B")
           (BNF_Symbol.mk (PStr "B") [[PStr "b"]] [PInt 0] false) s').
  - reflexivity.
  - simpl. auto.
  - reflexivity.
  - reflexivity.
Defined.

(** ** Identities handed out by the conversion *)

Lemma conversion_bin_splitter_ok (g g' : BNF.t) (parent : pyval) (rule : list pyval)
      (replacements : list (pyval * pyval * pyval)) :
  BNF.conversion_bin_splitter g parent rule = Ok (replacements, g') ->
  (forall t, In t replacements <->
             In t (bin_chain parent (BNF.current_term_replacement g) rule)) /\
  (forall i, BNF.current_term_replacement g - Z.of_nat (length rule - 2) < i
             <= BNF.current_term_replacement g ->
             lookup (PInt i) (BNF.symbols g')
             = match lookup (PInt i) (BNF.symbols g) with
               | Some s => Some s
               | None => Some (BNF_Symbol.mk (PInt i) [] [] false)
               end).
Proof.
  intro H.
  assert (Hlen : (2 <= length rule)%nat).
  { destruct rule as [ | x [ | y rule]]; [discriminate | discriminate | simpl; lia]. }
  unfold BNF.conversion_bin_splitter in H.
  destruct (splitter_loop rule [] parent (BNF.current_term_replacement g)
              (BNF.set_current_term_replacement g
                 (BNF.current_term_replacement g - 1)) Hlen eq_refl)
    as [reps [prev' [rid' [st' [a [b [Hfold [Ha [Hb [Hin [_ [_ [_ [_ [Hnew _]]]]]]]]]]]]]]].
  rewrite Hfold, Ha, Hb in H. simpl in H. injection H as <- <-.
  split; [intro t; rewrite Hin; simpl; tauto | exact Hnew].
Qed.

Lemma allocates_fresh_ns_inv (s : BNF.t) : ns_inv s -> allocates_fresh s.
Proof.
  intro Hinv. pose proof Hinv as [Hc [Hs Hk]].
  assert (Hfree : forall i, i <= BNF.current_term_replacement s ->
                            contains (PInt i) (BNF.symbols s) = false).
  { intros i Hi. destruct (contains (PInt i) (BNF.symbols s)) eqn:E; [ | reflexivity].
    apply Hk in E. lia. }
  split; [ | split].
  - intros item id s' H.
    pose proof (ns_inv_evolves arity_two s s' Hinv
                  (evolves_conversion_term_replacer arity_two s s' item id H)) as Hinv'.
    unfold BNF.conversion_term_replacer in H. bind_inv H. bind_inv H.
    injection H as <- <-.
    split; [reflexivity | ]. split; [exact Hc | ]. split; [ | exact Hinv'].
    split; [apply Hfree; lia | ].
    assert (Hparent : forall r, BNF_Symbol.is_terminal
                                  (snd (BNF_Symbol.add_parent r
                                          (PInt (BNF.current_term_replacement s))))
                                = BNF_Symbol.is_terminal r) by reflexivity.
    destruct (do_on_symbol_kind item
                (fun r => BNF_Symbol.add_parent r (PInt (BNF.current_term_replacement s)))
                a a0 Hparent H_call0
                (PInt (BNF.current_term_replacement s))) as [_ ->].
    assert (Hkind : forall r, BNF_Symbol.is_terminal
                                (snd (BNF_Symbol.add_rule r [item]))
                              = BNF_Symbol.is_terminal r).
    { intro r. unfold BNF_Symbol.add_rule.
      destruct (BNF_Symbol.is_terminal r) eqn:E; simpl; congruence. }
    destruct (do_on_symbol_kind (PInt (BNF.current_term_replacement s))
                (fun r => BNF_Symbol.add_rule r [item]) _ a Hkind H_call
                (PInt (BNF.current_term_replacement s))) as [_ ->].
    unfold is_nonterminal_in. simpl. rewrite lookup_setitem_same. reflexivity.
  - intros parent rule reps s' H.
    pose proof (ns_inv_evolves arity_two s s' Hinv
                  (evolves_conversion_bin_splitter arity_two s s' parent rule reps H))
      as Hinv'.
    destruct (conversion_bin_splitter_ok s s' parent rule reps H) as [Hchain Hnew].
    split; [exact Hchain | ]. split; [ | exact Hinv'].
    intros i Hi. split; [lia | ].
    assert (Hi' : contains (PInt i) (BNF.symbols s) = false) by (apply Hfree; lia).
    split; [exact Hi' | ].
    unfold is_nonterminal_in. rewrite (Hnew i Hi). unfold contains in Hi'.
    destruct (lookup (PInt i) (BNF.symbols s)); [discriminate | reflexivity].
  - intros s' H.
    pose proof (ns_inv_evolves arity_two s s' Hinv
                  (evolves_conversion_start arity_two s s' H)) as Hinv'.
    split; [ | split; [ | exact Hinv']].
    + intro Hright. unfold BNF.conversion_start in H. rewrite Hright in H.
      injection H as <-. reflexivity.
    + intro Hright. unfold BNF.conversion_start in H. rewrite Hright in H.
      unfold BNF.add_intermediate_symbol in H.
      set (s1 := BNF.set_start_symbol s (BNF.start_symbol s + 1)) in *.
      pose proof (add_symbol_frame s1 (PInt (BNF.start_symbol s1)) false)
        as [_ [Hstart2 _]].
      pose proof (add_symbol_lookup s1 (PInt (BNF.start_symbol s1))
                    (PInt (BNF.start_symbol s1)) false) as Hlk2.
      destruct (BNF.add_symbol s1 (PInt (BNF.start_symbol s1)) false) as [c s2].
      cbn [snd] in Hstart2, Hlk2. bind_inv H. destruct a as [code s3].
      injection H as <-.
      destruct (add_rule_frame _ _ _ _ _ H_call) as [Hstart3 _].
      destruct (add_rule_kind _ _ _ _ _ H_call (PInt (BNF.start_symbol s + 1)))
        as [_ Hkind3].
      assert (Hfresh : contains (PInt (BNF.start_symbol s + 1)) (BNF.symbols s) = false).
      { destruct (contains (PInt (BNF.start_symbol s + 1)) (BNF.symbols s)) eqn:E;
          [ | reflexivity]. apply Hk in E. lia. }
      assert (Hnew : BNF.start_symbol s3 = BNF.start_symbol s + 1)
        by (rewrite Hstart3, Hstart2; reflexivity).
      rewrite Hnew. split; [reflexivity | ]. split; [lia | ].
      split; [exact Hfresh | ].
      rewrite Hkind3. unfold is_nonterminal_in.
      change (BNF.start_symbol s1) with (BNF.start_symbol s + 1) in Hlk2.
      change (BNF.symbols s1) with (BNF.symbols s) in Hlk2.
      rewrite pyval_eqb_refl in Hlk2. rewrite Hlk2. unfold contains in Hfresh.
      destruct (lookup (PInt (BNF.start_symbol s + 1)) (BNF.symbols s));
        [discriminate | reflexivity].
Qed.

Lemma steps_keep_ns_inv_ns_inv (s : BNF.t) : ns_inv s -> steps_keep_ns_inv s.
Proof.
  intro Hinv. unfold steps_keep_ns_inv.
  split; [ | split; [ | split; [ | split; [ | split]]]].
  - intros k method s' H.
    destruct (do_on_symbol_frame k method s s' H) as [Hs [Hc [_ [_ Hk]]]].
    destruct Hinv as [Hc0 [Hs0 Hk0]]. unfold ns_inv. rewrite Hs, Hc.
    split; [exact Hc0 | ]. split; [exact Hs0 | ].
    intros z Hz. rewrite Hk in Hz. exact (Hk0 z Hz).
  - intros parent rule s' H. apply (ns_inv_evolves arity_two s s' Hinv).
    eapply evolves_determinalizer; eauto using arity_two_not_unit, arity_two_short.
  - intros s' H. apply (ns_inv_evolves arity_two s s' Hinv).
    eapply evolves_conversion_term; eauto using arity_two_not_unit, arity_two_short.
  - intros s' H. apply (ns_inv_evolves arity_two s s' Hinv).
    eapply evolves_conversion_bin; eauto using arity_two_not_unit, arity_two_short.
  - intros s' H. apply (ns_inv_evolves arity_two s s' Hinv).
    eapply evolves_conversion_unit; eauto using arity_two_not_unit, arity_two_short.
  - intros s' H. apply (ns_inv_evolves arity_two s s' Hinv).
    eapply evolves_conversion_pass; eauto using arity_two_not_unit, arity_two_short.
Qed.

(** C6 (amended). For a grammar built with the public calls from symbols
    none of which is equal to an integer, any number of passes runs without
    raising, and before and after every integer key of the symbol table
    lies above the next replacement id, which is below zero, and at or
    below the start symbol, which is zero or more: the two ranges of
    synthetic identities do not meet, and the next identity of each is not
    in the table.  A symbol that is in the table after some passes is
    still there with the same kind after any further passes.  In every
    state with those bounds, each identity that [conversion_start],
    [conversion_term_replacer] and [conversion_bin_splitter] hand out is
    not a key of the table before the call and is a non-terminal after it,
    the ids of one chain are consecutive integers, and the call, like every
    other change that a pass makes to the table, leaves a state with those
    bounds again. *)
Theorem synthetic_ids_never_collide (ops : list op) (n1 n2 : nat) :
  Forall declares_no_int ops ->
  (exists g g1 g2,
     run_ops ops BNF.init = Ok g /\
     passes n1 g = Ok g1 /\
     passes n2 g1 = Ok g2 /\
     ns_inv g /\ ns_inv g1 /\ ns_inv g2 /\ next_ids_fresh g2 /\
     forall k, contains k (BNF.symbols g1) = true ->
               contains k (BNF.symbols g2) = true /\
               is_terminal_in g2 k = is_terminal_in g1 k) /\
  (forall s, ns_inv s -> allocates_fresh s /\ steps_keep_ns_inv s).
Proof.
  intro Hops. split.
  - destruct (keys_stay_between_counters ops n1 n2 Hops)
      as [g [g1 [g2 [Hrun [Hp1 [Hp2 [Hinv2 [Hfresh Hkept]]]]]]]].
    exists g, g1, g2.
    pose proof (ns_inv_run_ops ops g Hops Hrun) as Hinv.
    pose proof (ns_inv_evolves _ g g1 Hinv (evolves_passes n1 g g1 Hp1)) as Hinv1.
    repeat (split; [assumption | ]). exact Hkept.
  - intros s Hs. split;
      [apply allocates_fresh_ns_inv | apply steps_keep_ns_inv_ns_inv]; exact Hs.
Qed.

Lemma synthetic_ids_never_collide_witness :
  (exists g g1 g2,
     run_ops long_and_unit_ops BNF.init = Ok g /\
     passes 1 g = Ok g1 /\
     passes 2 g1 = Ok g2 /\
     ns_inv g /\ ns_inv g1 /\ ns_inv g2 /\ next_ids_fresh g2 /\
     forall k, contains k (BNF.symbols g1) = true ->
               contains k (BNF.symbols g2) = true /\
               is_terminal_in g2 k = is_terminal_in g1 k) /\
  allocates_fresh BNF.init /\ steps_keep_ns_inv BNF.init.
Proof.
  destruct (synthetic_ids_never_collide long_and_unit_ops 1 2) as [Hpasses Hstates].
  - repeat constructor.
  - split; [exact Hpasses | ]. apply Hstates.
    unfold ns_inv. simpl. split; [lia | split; [lia | ]].
    intros z Hz. unfold contains in Hz. simpl in Hz.
    destruct (z =? 0) eqn:E; [apply Z.eqb_eq in E; lia | discriminate].
Defined.

(** The ids that the splitter hands out for a rule of four members in the
    state after TERM allocated -1: -2 and -3, and the counter moves to -5. *)
Example splitter_after_replacer :
  match BNF.conversion_term_replacer (grammar_of mixed_ops) (PStr "b") with
  | Ok (id, g1) =>
      match BNF.conversion_bin_splitter g1 (PInt 0)
              [PStr "A"; PStr "A"; PStr "A"; PStr "A"] with
      | Ok (replacements, g2) =>
          Some (id, replacements, BNF.current_term_replacement g2)
      | Raise _ => None
      end
  | Raise _ => None
  end
  = Some (-1, [(PInt 0, PStr "A", PInt (-2)); (PInt (-2), PStr "A", PInt (-3));
               (PInt (-3), PStr "A", PStr "A")], -5).
Proof. vm_compute. reflexivity. Qed.

(** ** The grammar that [convert_to_cnf] returns *)

(** *** The tags through a pass *)











(** *** The calls, in order *)






(** *** The phrase structure under the calls *)










